(** * ICL ESG decision tool: the scenario engine of [app.py]

    The module [app.py] is a Streamlit dashboard.  Its only logic is five
    pure functions: four transforms of a pandas [DataFrame]
    ([apply_ghg_scenario], [apply_water_scenario], [apply_energy_scenario],
    [apply_waste_scenario]) and the scalar score [combined_esg_scenario].

    Modelling choices.

    - A [DataFrame] is the list of its rows, in index order; every row is a
      record with one field per column.  A column assignment
      [df[c] = f(df[c])] is a [map] that rewrites the field [c] of every row.
      [df.copy()] is the value itself: nothing is shared with the caller.
    - Python is dynamically typed: the same function body runs on the [int]
      a slider returns and on [float64] columns.  The bodies are therefore
      written once, over the interface [Num] of the operations they use
      ([+ - * / // <] and [round]).  The interface is instantiated twice:
      at IEEE binary64 ([PrimFloat]), which is bit for bit what NumPy and
      CPython compute with, and at the rationals [Q], where [/] is exact and
      the results are the numbers the specification speaks of.

    Layout.  The engine and its two arithmetics come first, then the
    vocabulary of the statements.  The properties follow: facts of exact
    arithmetic; the rounding of binary64, derived from the specification of
    IEEE arithmetic in [SpecFloat] (an operation on non-negative doubles
    returns the double nearest to the exact result, ties to even, and that
    rounding is monotone); floor division, the transforms and the score on
    doubles; the laws of the engine, stated for every arithmetic where they
    are the equations of the code, and in exact arithmetic and in binary64
    where rounding matters; the rounding of doubles of either sign, for the
    score on all doubles; and further properties read off the code. *)

From Stdlib Require Import ZArith QArith Qround Qminmax Qpower Lqa Lia List Bool.
From Stdlib Require Floats.
Import ListNotations.

(** ** Numbers *)

Declare Scope num_scope.
Delimit Scope num_scope with num.

Class Num (A : Type) : Type := {
  (** a numeric literal of the source text, e.g. [0.005] or [30] *)
  lit : Q -> A;
  add : A -> A -> A;
  sub : A -> A -> A;
  mul : A -> A -> A;
  (** true division, Python's [/] *)
  div : A -> A -> A;
  (** floor division, Python's [//] *)
  floordiv : A -> A -> A;
  (** Python's [<] *)
  ltb : A -> A -> bool;
  (** Python's [round(x, ndigits)] for [ndigits >= 0] *)
  round : A -> nat -> A
}.

Infix "+" := add : num_scope.
Infix "-" := sub : num_scope.
Infix "*" := mul : num_scope.
Infix "/" := div : num_scope.
Infix "//" := floordiv (at level 40, left associativity) : num_scope.
Infix "<?" := ltb : num_scope.

Section Engine.

Context {A : Type} `{Num A}.
Local Open Scope num_scope.

(** *** Built-ins the source calls *)

(** Python's [min(a, b)]: the first argument is kept unless the second is
    strictly smaller. *)
Definition py_min (a b : A) : A := if b <? a then b else a.

(** pandas' [Series.clip(upper=u)] on one cell: a cell above [u] becomes [u]. *)
Definition clip_upper (u x : A) : A := if u <? x then u else x.

(** pandas' [Series.clip(lower=l)] on one cell: a cell below [l] becomes [l]. *)
Definition clip_lower (l x : A) : A := if x <? l then l else x.

(** ** Data frames *)

(** [df_ghg]: columns ['Year'], ['Scope 1+2 GHG']. *)
Record ghg_row : Type := {
  ghg_Year : Z;
  Scope12_GHG : A
}.

(** [df_water]: columns ['Year'], ['Freshwater_m3'], ['NonFreshwater_m3']. *)
Record water_row : Type := {
  water_Year : Z;
  Freshwater_m3 : A;
  NonFreshwater_m3 : A
}.

(** [df_energy]: columns ['Year'], ['Total_Energy_GJ'], ['Renewables_%']. *)
Record energy_row : Type := {
  energy_Year : Z;
  Total_Energy_GJ : A;
  Renewables_pct : A
}.

(** [df_waste]: columns ['Year'], ['Hazardous_t'], ['NonHazardous_t']. *)
Record waste_row : Type := {
  waste_Year : Z;
  Hazardous_t : A;
  NonHazardous_t : A
}.

(** Column assignment [df[c] = f(df[c])], one definition per assigned column. *)
Definition set_Scope12_GHG (f : A -> A) (r : ghg_row) : ghg_row :=
  {| ghg_Year := ghg_Year r; Scope12_GHG := f (Scope12_GHG r) |}.

Definition set_Freshwater_m3 (f : A -> A) (r : water_row) : water_row :=
  {| water_Year := water_Year r;
     Freshwater_m3 := f (Freshwater_m3 r);
     NonFreshwater_m3 := NonFreshwater_m3 r |}.

Definition set_Renewables_pct (f : A -> A) (r : energy_row) : energy_row :=
  {| energy_Year := energy_Year r;
     Total_Energy_GJ := Total_Energy_GJ r;
     Renewables_pct := f (Renewables_pct r) |}.

(** ** The sample data of [load_data] *)

Definition df_ghg : list ghg_row :=
  [ {| ghg_Year := 2018; Scope12_GHG := lit 2.94 |};
    {| ghg_Year := 2019; Scope12_GHG := lit 2.65 |};
    {| ghg_Year := 2020; Scope12_GHG := lit 2.51 |};
    {| ghg_Year := 2021; Scope12_GHG := lit 2.54 |};
    {| ghg_Year := 2022; Scope12_GHG := lit 2.41 |};
    {| ghg_Year := 2023; Scope12_GHG := lit 2.29 |} ].

Definition df_water : list water_row :=
  [ {| water_Year := 2018; Freshwater_m3 := lit 20.2; NonFreshwater_m3 := lit 48.8 |};
    {| water_Year := 2019; Freshwater_m3 := lit 19.8; NonFreshwater_m3 := lit 49.0 |};
    {| water_Year := 2020; Freshwater_m3 := lit 19.1; NonFreshwater_m3 := lit 48.2 |};
    {| water_Year := 2021; Freshwater_m3 := lit 20.2; NonFreshwater_m3 := lit 48.8 |};
    {| water_Year := 2022; Freshwater_m3 := lit 19.6; NonFreshwater_m3 := lit 49.4 |};
    {| water_Year := 2023; Freshwater_m3 := lit 17.4; NonFreshwater_m3 := lit 47.3 |} ].

Definition df_energy : list energy_row :=
  [ {| energy_Year := 2018; Total_Energy_GJ := lit 35.3; Renewables_pct := lit 3 |};
    {| energy_Year := 2019; Total_Energy_GJ := lit 36.5; Renewables_pct := lit 4 |};
    {| energy_Year := 2020; Total_Energy_GJ := lit 33.8; Renewables_pct := lit 5 |};
    {| energy_Year := 2021; Total_Energy_GJ := lit 34.0; Renewables_pct := lit 6 |};
    {| energy_Year := 2022; Total_Energy_GJ := lit 35.1; Renewables_pct := lit 8 |};
    {| energy_Year := 2023; Total_Energy_GJ := lit 36.4; Renewables_pct := lit 9 |} ].

Definition df_waste : list waste_row :=
  [ {| waste_Year := 2018; Hazardous_t := lit 29.5; NonHazardous_t := lit 5.5 |};
    {| waste_Year := 2019; Hazardous_t := lit 28.2; NonHazardous_t := lit 22.3 |};
    {| waste_Year := 2020; Hazardous_t := lit 27.9; NonHazardous_t := lit 38.5 |};
    {| waste_Year := 2021; Hazardous_t := lit 34.9; NonHazardous_t := lit 32.0 |};
    {| waste_Year := 2022; Hazardous_t := lit 28.0; NonHazardous_t := lit 10.5 |};
    {| waste_Year := 2023; Hazardous_t := lit 23.9; NonHazardous_t := lit 21.5 |} ].

(** The cell that [main] reads with
    [df_ghg.loc[df_ghg["Year"] == y, "Scope 1+2 GHG"].values[0]]. *)
Definition ghg_of_year (y : Z) (df : list ghg_row) : option A :=
  option_map Scope12_GHG (find (fun r => Z.eqb (ghg_Year r) y) df).

(** ** The scenario transforms *)

Definition apply_ghg_scenario (df : list ghg_row) (additional_reduction_pct : A)
  : list ghg_row :=
  let df_scenario := df in
  map (set_Scope12_GHG
         (fun x => x * (lit 1 - additional_reduction_pct / lit 100)))
      df_scenario.

Definition apply_water_scenario (df : list water_row) (investment_m : A)
  : list water_row * A :=
  let df_scenario := df in
  let reduction_pct := (investment_m // lit 10) * lit 1 in
  let df_scenario :=
    map (set_Freshwater_m3 (fun x => x * (lit 1 - reduction_pct / lit 100)))
        df_scenario in
  (df_scenario, reduction_pct).

Definition apply_energy_scenario (df : list energy_row) (solar_mw_add : A)
  : list energy_row :=
  let df_scenario := df in
  let step := solar_mw_add // lit 10 in
  let df_scenario := map (set_Renewables_pct (fun x => x + step)) df_scenario in
  let df_scenario := map (set_Renewables_pct (clip_upper (lit 100))) df_scenario in
  df_scenario.

Definition apply_waste_scenario (df : list waste_row) (new_reuse_k : A)
  : list waste_row :=
  let df_scenario := df in
  map (fun r =>
         let haz_reduction := Hazardous_t r * lit 0.005 * new_reuse_k in
         let nonhaz_reduction := NonHazardous_t r * lit 0.003 * new_reuse_k in
         {| waste_Year := waste_Year r;
            Hazardous_t := clip_lower (lit 0) (Hazardous_t r - haz_reduction);
            NonHazardous_t :=
              clip_lower (lit 0) (NonHazardous_t r - nonhaz_reduction) |})
      df_scenario.

(** ** The composite score *)

Definition combined_esg_scenario (ghg_red water_inv solar_mw waste_reuse : A) : A :=
  let ghg_score := py_min (ghg_red / lit 30) (lit 1) * lit 25 in
  let water_score := py_min (water_inv / lit 50) (lit 1) * lit 25 in
  let solar_score := py_min (solar_mw / lit 50) (lit 1) * lit 25 in
  let waste_score := py_min (waste_reuse / lit 10) (lit 1) * lit 25 in
  let total_score := ghg_score + water_score + solar_score + waste_score in
  round total_score 2.

End Engine.

Arguments ghg_row A : clear implicits.
Arguments water_row A : clear implicits.
Arguments energy_row A : clear implicits.
Arguments waste_row A : clear implicits.

(** ** Exact arithmetic: the instance at [Q] *)

(** Rounding a rational to the nearest integer, ties to the even one
    (the rule of Python's [round]). *)
Definition round_half_even (q : Q) : Z :=
  let f := Qfloor q in
  match Qcompare (q - inject_Z f) (1 # 2) with
  | Lt => f
  | Gt => (f + 1)%Z
  | Eq => if Z.even f then f else (f + 1)%Z
  end.

Definition Qround (x : Q) (ndigits : nat) : Q :=
  let scale := inject_Z (10 ^ Z.of_nat ndigits) in
  inject_Z (round_half_even (x * scale)) / scale.

Definition Qfloordiv (x y : Q) : Q := inject_Z (Qfloor (x / y)).

Definition Qltb (x y : Q) : bool := negb (Qle_bool y x).

#[export] Instance Num_Q : Num Q := {
  lit := fun q => q;
  add := Qplus;
  sub := Qminus;
  mul := Qmult;
  div := Qdiv;
  floordiv := Qfloordiv;
  ltb := Qltb;
  round := Qround
}.

(** ** IEEE binary64: the instance at [PrimFloat.float] *)

Module Binary64.

Import PrimFloat SpecFloat FloatOps.

(** The double nearest to the rational [n / d], ties to even: how a decimal
    literal is read, and how the decimal that [round] produces is read back. *)
Definition nearest (n : Z) (d : positive) : PrimFloat.float :=
  match n with
  | Z0 => zero
  | Zpos m =>
      let '(q, e, l) := SFdiv_core_binary prec emax (Zpos m) 0 (Zpos d) 0 in
      SF2Prim (binary_round_aux prec emax false q e l)
  | Zneg m =>
      let '(q, e, l) := SFdiv_core_binary prec emax (Zpos m) 0 (Zpos d) 0 in
      SF2Prim (binary_round_aux prec emax true q e l)
  end.

Definition Q2F (q : Q) : PrimFloat.float := nearest (Qnum q) (Qden q).

(** The exact value of a finite double ([0] for infinities and nan). *)
Definition F2Q (x : PrimFloat.float) : Q :=
  match Prim2SF x with
  | S754_finite s m e =>
      let v := cond_Zopp s (Zpos m) in
      match e with
      | Zneg k => v # (2 ^ k)
      | _ => inject_Z (v * 2 ^ e)
      end
  | _ => 0
  end.

(** C's [copysign(0.0, x)]. *)
Definition copysign0 (x : PrimFloat.float) : PrimFloat.float :=
  if get_sign x then neg_zero else zero.

(** C's [fmod]: exact, with the sign of the dividend. *)
Definition fmod (x y : PrimFloat.float) : PrimFloat.float :=
  if is_nan x || is_nan y || is_infinity x || is_zero y then nan
  else if is_infinity y then x
  else
    let qx := F2Q x in
    let qy := F2Q y in
    let t := Z.quot (Qnum qx * Zpos (Qden qy)) (Zpos (Qden qx) * Qnum qy) in
    let r := Qred (qx - inject_Z t * qy) in
    match Qnum r with
    | Z0 => copysign0 x
    | _ => Q2F r
    end.

(** C's [floor]. *)
Definition floor (x : PrimFloat.float) : PrimFloat.float :=
  if is_finite x && negb (is_zero x) then
    match Qfloor (F2Q x) with
    | Z0 => copysign0 x
    | z => nearest z 1
    end
  else x.

(** CPython's [float_floor_div] ([_float_div_mod] in [floatobject.c]).  A
    zero divisor raises [ZeroDivisionError] in Python; the engine divides by
    the literal [10] only, and the case is mapped to [nan] here. *)
Definition float_floor_div (vx wx : PrimFloat.float) : PrimFloat.float :=
  if is_zero wx then nan
  else
    let mod_ := fmod vx wx in
    let div_ := div (sub vx mod_) wx in
    let div_ :=
      if is_zero mod_ then div_
      else if Bool.eqb (ltb wx zero) (ltb mod_ zero) then div_
      else sub div_ one in
    if is_zero div_ then copysign0 (div vx wx)
    else
      let floordiv := floor div_ in
      if ltb (Q2F 0.5) (sub div_ floordiv) then add floordiv one else floordiv.

(** CPython's [float.__round__] for [ndigits >= 0]: the decimal with
    [ndigits] fractional digits nearest to the exact value of [x] (ties to
    even), read back as the nearest double. *)
Definition float_round (x : PrimFloat.float) (ndigits : nat) : PrimFloat.float :=
  if negb (is_finite x) then x
  else if (323 <? ndigits)%nat then x
  else
    let scale := (10 ^ Z.of_nat ndigits)%Z in
    match round_half_even (F2Q x * inject_Z scale) with
    | Z0 => copysign0 x
    | n => nearest n (Z.to_pos scale)
    end.

#[export] Instance Num_float : Num PrimFloat.float := {
  lit := Q2F;
  add := PrimFloat.add;
  sub := PrimFloat.sub;
  mul := PrimFloat.mul;
  div := PrimFloat.div;
  floordiv := float_floor_div;
  ltb := PrimFloat.ltb;
  round := float_round
}.

End Binary64.

Export Binary64.

(** ** Vocabulary of the statements *)

Section Vocabulary.
Local Open Scope Q_scope.

(** Two frames hold the same numbers, row by row ([==] on [Q] identifies
    [1 # 2] and [2 # 4]). *)
Definition ghg_row_eq (r r' : ghg_row Q) : Prop :=
  ghg_Year r' = ghg_Year r /\ Scope12_GHG r' == Scope12_GHG r.

(** Every numeric field of a row is non-negative. *)
Definition nonneg_ghg (r : ghg_row Q) : Prop :=
  (0 <= ghg_Year r)%Z /\ 0 <= Scope12_GHG r.

Definition nonneg_water (r : water_row Q) : Prop :=
  (0 <= water_Year r)%Z /\ 0 <= Freshwater_m3 r /\ 0 <= NonFreshwater_m3 r.

Definition nonneg_energy (r : energy_row Q) : Prop :=
  (0 <= energy_Year r)%Z /\ 0 <= Total_Energy_GJ r /\ 0 <= Renewables_pct r.

Definition nonneg_waste (r : waste_row Q) : Prop :=
  (0 <= waste_Year r)%Z /\ 0 <= Hazardous_t r /\ 0 <= NonHazardous_t r.

(** The score as the specification words it: the four capped shares of 25
    points, added, and rounded to two decimals. *)
Definition esg_score_spec (ghg water solar waste : Q) : Q :=
  Qround (Qmin (ghg / 30) 1 * 25 + Qmin (water / 50) 1 * 25
          + Qmin (solar / 50) 1 * 25 + Qmin (waste / 10) 1 * 25) 2.

(** The water row after a reduction of [pct] percent, as the specification
    words it. *)
Definition water_spec (pct : Q) (r r' : water_row Q) : Prop :=
  Freshwater_m3 r' == Freshwater_m3 r * (1 - pct / 100).

(** The energy row after a gain of [step] points, as the specification words
    it: the sum, at most 100. *)
Definition energy_spec (step : Q) (r r' : energy_row Q) : Prop :=
  Renewables_pct r' == Qmin (Renewables_pct r + step) 100.

(** The waste row after [k] thousand tonnes of reuse, as the specification
    words it: each field reduced by its own share, and floored at 0. *)
Definition waste_spec (k : Q) (r r' : waste_row Q) : Prop :=
  Hazardous_t r' == Qmax 0 (Hazardous_t r - Hazardous_t r * 0.005 * k) /\
  NonHazardous_t r' == Qmax 0 (NonHazardous_t r - NonHazardous_t r * 0.003 * k).

End Vocabulary.

(** ** Vocabulary of the rounding of binary64 *)

Section FloatVocabulary.
Import SpecFloat FloatOps FloatAxioms.
Local Open Scope Q_scope.

(** The power of two [2^e], for every integer exponent. *)
Definition bpow (e : Z) : Q := 2 ^ e.

(** [located mrs y]: the record [mrs] describes the rational [y]: its
    mantissa is the integer part of [y], and its round and sticky bits say
    where [y] lies between the mantissa and its successor. *)
Definition located (mrs : shr_record) (y : Q) : Prop :=
  (0 <= shr_m mrs)%Z /\
  match shr_r mrs, shr_s mrs with
  | false, false => y == inject_Z (shr_m mrs)
  | false, true => inject_Z (shr_m mrs) < y /\ y < inject_Z (shr_m mrs) + (1 # 2)
  | true, false => y == inject_Z (shr_m mrs) + (1 # 2)
  | true, true => inject_Z (shr_m mrs) + (1 # 2) < y /\ y < inject_Z (shr_m mrs) + 1
  end.

(** [located_at mrs e v]: the record describes [v] in units of [2^e]. *)
Definition located_at (mrs : shr_record) (e : Z) (v : Q) : Prop :=
  located mrs (v / bpow e).

(** [rounds v r]: [r] is the multiple of the unit in the last place of [v]
    that is nearest to [v], ties to even. *)
Definition rounds (v r : Q) : Prop :=
  exists d : Z,
    0 < v /\ v < bpow d /\ (bpow (d - 1) <= v \/ (d <= -1022)%Z) /\
    r == inject_Z (round_half_even (v / bpow (fexp prec emax d)))
         * bpow (fexp prec emax d).

(** The sign and the value of what [binary_round_aux] returns. *)
Definition round_result (sx : bool) (r : Q) (z : spec_float) : Prop :=
  match z with
  | S754_zero s => s = sx /\ r == 0
  | S754_finite s m e => s = sx /\ r == inject_Z (Zpos m) * bpow e
  | S754_infinity s => s = sx /\ bpow emax <= r
  | S754_nan => False
  end.

Definition round_valid (sx : bool) (r : Q) (z : spec_float) : Prop :=
  round_result sx r z /\ valid_binary z = true.

(** The exact value of a finite double ([0] for infinities and nan). *)
Definition SFvalue (x : spec_float) : Q :=
  match x with
  | S754_finite s m e => inject_Z (cond_Zopp s (Zpos m)) * bpow e
  | _ => 0
  end.

(** Zero (of either sign) or a positive finite double. *)
Definition nonneg_finite (x : spec_float) : Prop :=
  match x with
  | S754_zero _ => True
  | S754_finite false _ _ => True
  | _ => False
  end.

(** Zero, a positive finite double, or plus infinity. *)
Definition nonneg (x : spec_float) : Prop :=
  match x with
  | S754_zero _ | S754_finite false _ _ | S754_infinity false => True
  | _ => False
  end.

(** [rounded v z]: the double [z] is what the non-negative real [v] rounds
    to (a zero when [v] is zero, plus infinity on overflow). *)
Definition rounded (v : Q) (z : spec_float) : Prop :=
  (v == 0 /\ exists s, z = S754_zero s)
  \/ (exists r, rounds v r /\ round_valid false r z).

(** Plus infinity ranks as [2^emax], above every finite double. *)
Definition rank (x : spec_float) : Q :=
  match x with
  | S754_infinity _ => bpow emax
  | _ => SFvalue x
  end.

(** The same on machine doubles. *)
Definition fnonneg (x : PrimFloat.float) : Prop := nonneg (Prim2SF x).

Definition ffinite (x : PrimFloat.float) : Prop := nonneg_finite (Prim2SF x).

Definition fpositive (x : PrimFloat.float) : Prop :=
  exists m e, Prim2SF x = S754_finite false m e.

Definition fle (x y : PrimFloat.float) : Prop :=
  SFleb (Prim2SF x) (Prim2SF y) = true.

(** Non-negative, and finite and non-negative, by the comparisons of the
    machine: [0.0 <= x], and [0.0 <= x < inf]. *)
Definition nonneg64 (x : PrimFloat.float) : Prop :=
  PrimFloat.leb PrimFloat.zero x = true.

Definition finite64 (x : PrimFloat.float) : Prop :=
  nonneg64 x /\ PrimFloat.ltb x PrimFloat.infinity = true.

(** Every numeric field of a row of doubles satisfies [P]. *)
Definition ghg_fields64 (P : PrimFloat.float -> Prop) (r : ghg_row PrimFloat.float)
  : Prop :=
  (0 <= ghg_Year r)%Z /\ P (Scope12_GHG r).

Definition water_fields64 (P : PrimFloat.float -> Prop) (r : water_row PrimFloat.float)
  : Prop :=
  (0 <= water_Year r)%Z /\ P (Freshwater_m3 r) /\ P (NonFreshwater_m3 r).

Definition energy_fields64 (P : PrimFloat.float -> Prop) (r : energy_row PrimFloat.float)
  : Prop :=
  (0 <= energy_Year r)%Z /\ P (Total_Energy_GJ r) /\ P (Renewables_pct r).

Definition waste_fields64 (P : PrimFloat.float -> Prop) (r : waste_row PrimFloat.float)
  : Prop :=
  (0 <= waste_Year r)%Z /\ P (Hazardous_t r) /\ P (NonHazardous_t r).

End FloatVocabulary.

(** ** Doubles of either sign *)

Section SignedVocabulary.
Import SpecFloat FloatOps FloatAxioms.
Local Open Scope Q_scope.

(** Every double but nan. *)
Definition notnan (x : spec_float) : Prop :=
  match x with
  | S754_nan => False
  | _ => True
  end.

(** A zero or a finite double, of either sign. *)
Definition sfinite (x : spec_float) : Prop :=
  match x with
  | S754_zero _ | S754_finite _ _ _ => True
  | _ => False
  end.

(** [srounded v z]: the double [z] is what the real [v] rounds to; a
    negative real rounds as its opposite does, with the sign flipped. *)
Definition srounded (v : Q) (z : spec_float) : Prop :=
  (0 <= v /\ rounded v z) \/ (v <= 0 /\ rounded (- v) (SFopp z)).

(** The rank of a double of either sign: minus infinity ranks as
    [- 2^emax], below every finite double. *)
Definition srank (x : spec_float) : Q :=
  match x with
  | S754_infinity true => - bpow emax
  | S754_infinity false => bpow emax
  | _ => SFvalue x
  end.

(** The same on machine doubles. *)
Definition fnum (x : PrimFloat.float) : Prop := notnan (Prim2SF x).

Definition fnan (x : PrimFloat.float) : Prop := Prim2SF x = S754_nan.

End SignedVocabulary.

(** * Properties *)

(** ** Rows of a mapped frame *)

Lemma Forall2_map_r {X Y : Type} (R : X -> Y -> Prop) (f : X -> Y) (l : list X) :
  (forall x, R x (f x)) -> Forall2 R l (map f l).
Proof.
  intro HR. induction l as [|x l IH]; cbn [map]; constructor; auto.
Qed.

Lemma map_id_ext {X : Type} (f : X -> X) (l : list X) :
  (forall x, f x = x) -> map f l = l.
Proof.
  intro Hf. induction l as [|x l IH]; cbn [map]; [reflexivity|].
  rewrite Hf, IH. reflexivity.
Qed.

(** ** Exact arithmetic *)

(** Turning a comparison of rationals into the order it states. *)
Ltac Qcompare_prop E :=
  match type of E with
  | Qcompare _ _ = Eq => apply Qeq_alt in E
  | Qcompare _ _ = Lt => apply Qlt_alt in E
  | Qcompare _ _ = Gt => apply Qgt_alt in E
  end.

Section QFacts.
Local Open Scope Q_scope.

Lemma Qltb_lt (x y : Q) : Qltb x y = true <-> x < y.
Proof.
  unfold Qltb. rewrite negb_true_iff.
  destruct (Qle_bool y x) eqn:E; split; intro HH; try discriminate; try reflexivity.
  - apply Qle_bool_iff in E. lra.
  - apply Qnot_le_lt. intro C. apply Qle_bool_iff in C. congruence.
Qed.

Lemma Qltb_ge (x y : Q) : Qltb x y = false <-> y <= x.
Proof.
  unfold Qltb. rewrite negb_false_iff. apply Qle_bool_iff.
Qed.

Lemma py_min_Qmin (a b : Q) : py_min a b == Qmin a b.
Proof.
  unfold py_min; cbn [ltb Num_Q].
  destruct (Qltb b a) eqn:E.
  - apply Qltb_lt in E. symmetry. apply Q.min_r. lra.
  - apply Qltb_ge in E. symmetry. apply Q.min_l. exact E.
Qed.

Lemma clip_upper_Qmin (u x : Q) : clip_upper u x == Qmin x u.
Proof.
  unfold clip_upper; cbn [ltb Num_Q].
  destruct (Qltb u x) eqn:E.
  - apply Qltb_lt in E. symmetry. apply Q.min_r. lra.
  - apply Qltb_ge in E. symmetry. apply Q.min_l. exact E.
Qed.

Lemma clip_lower_Qmax (l x : Q) : clip_lower l x == Qmax l x.
Proof.
  unfold clip_lower; cbn [ltb Num_Q].
  destruct (Qltb x l) eqn:E.
  - apply Qltb_lt in E. symmetry. apply Q.max_l. lra.
  - apply Qltb_ge in E. symmetry. apply Q.max_r. exact E.
Qed.

Lemma round_half_even_bounds (q : Q) :
  (Qfloor q <= round_half_even q <= Qfloor q + 1)%Z.
Proof.
  unfold round_half_even.
  destruct (Qcompare _ _); [destruct (Z.even _)| |]; lia.
Qed.

Lemma round_half_even_comp (p q : Q) : p == q -> round_half_even p = round_half_even q.
Proof.
  intro E. unfold round_half_even.
  rewrite (Qfloor_comp _ _ E).
  assert (E' : p - inject_Z (Qfloor q) == q - inject_Z (Qfloor q)) by (rewrite E; reflexivity).
  rewrite (Qcompare_comp _ _ E' _ _ (Qeq_refl (1#2))). reflexivity.
Qed.

Lemma round_half_even_Z (z : Z) : round_half_even (inject_Z z) = z.
Proof.
  unfold round_half_even. rewrite Qfloor_Z.
  destruct (Qcompare (inject_Z z - inject_Z z) (1 # 2)) eqn:E;
    [apply Qeq_alt in E | reflexivity | apply Qgt_alt in E]; exfalso; lra.
Qed.

Lemma round_half_even_mono (p q : Q) :
  p <= q -> (round_half_even p <= round_half_even q)%Z.
Proof.
  intro Hpq.
  pose proof (Qfloor_resp_le _ _ Hpq) as Hf.
  pose proof (round_half_even_bounds p) as Bp.
  pose proof (round_half_even_bounds q) as Bq.
  destruct (Z.eq_dec (Qfloor p) (Qfloor q)) as [Ef|Nf]; [|lia].
  clear Hf Bp Bq. unfold round_half_even. rewrite Ef.
  destruct (Qcompare (q - inject_Z (Qfloor q)) (1 # 2)) eqn:Eq2; Qcompare_prop Eq2;
  destruct (Qcompare (p - inject_Z (Qfloor q)) (1 # 2)) eqn:Ep2; Qcompare_prop Ep2;
    try (destruct (Z.even (Qfloor q))); try lia; exfalso; lra.
Qed.

Lemma scale_pos (n : nat) : 0 < inject_Z (10 ^ Z.of_nat n).
Proof.
  assert (0 < 10 ^ Z.of_nat n)%Z by (apply Z.pow_pos_nonneg; lia).
  unfold Qlt; simpl. lia.
Qed.

Lemma Qround_comp (x y : Q) (n : nat) : x == y -> Qround x n == Qround y n.
Proof.
  intro E. unfold Qround.
  set (s := inject_Z (10 ^ Z.of_nat n)).
  assert (E2 : round_half_even (x * s) = round_half_even (y * s)).
  { apply round_half_even_comp. rewrite E. reflexivity. }
  rewrite E2. reflexivity.
Qed.

Lemma Qround_mono (x y : Q) (n : nat) : x <= y -> Qround x n <= Qround y n.
Proof.
  intro L. unfold Qround.
  pose proof (scale_pos n) as Hs.
  set (s := inject_Z (10 ^ Z.of_nat n)) in *.
  assert (M : (round_half_even (x * s) <= round_half_even (y * s))%Z).
  { apply round_half_even_mono. nra. }
  apply Qmult_le_compat_r.
  - rewrite <- Zle_Qle. exact M.
  - apply Qlt_le_weak, Qinv_lt_0_compat, Hs.
Qed.

Lemma Qround_Z (z : Z) (n : nat) : Qround (inject_Z z) n == inject_Z z.
Proof.
  unfold Qround.
  pose proof (scale_pos n) as Hs.
  set (k := (10 ^ Z.of_nat n)%Z) in *.
  rewrite (round_half_even_comp (inject_Z z * inject_Z k) (inject_Z (z * k))).
  - rewrite round_half_even_Z. rewrite inject_Z_mult. field. lra.
  - rewrite inject_Z_mult. reflexivity.
Qed.

End QFacts.

(** ** Binary64 arithmetic *)

Section FloatFacts.
Import PrimFloat SpecFloat FloatOps FloatAxioms.

Lemma digits2_pos_shift52 (m : positive) :
  Zpos (digits2_pos (m * 4503599627370496)) = (Zpos (digits2_pos m) + 52)%Z.
Proof.
  rewrite Pos.mul_comm. cbn [Pos.mul digits2_pos]. lia.
Qed.

(** Multiplying a double by [1.0] returns the same double, bit for bit: the
    product mantissa is the mantissa followed by 52 zero bits, which the
    rounding shifts out without loss. *)
Lemma SF64mul_one (x : spec_float) :
  valid_binary x = true -> SF64mul x (Prim2SF one) = x.
Proof.
  intro V.
  change (Prim2SF one) with (S754_finite false 4503599627370496 (-52)).
  destruct x as [s|s| |s m e]; cbn [SF64mul SFmul];
    try (rewrite xorb_false_r); try reflexivity.
  cbn [valid_binary] in V. unfold bounded, canonical_mantissa in V.
  apply andb_true_iff in V. destruct V as [C B].
  apply Z.eqb_eq in C.
  unfold binary_round_aux, shr_fexp.
  cbn [Zdigits2]. rewrite digits2_pos_shift52.
  replace (Z.pos (digits2_pos m) + 52 + (e + -52))%Z
    with (Z.pos (digits2_pos m) + e)%Z by lia.
  rewrite C.
  replace (e - (e + -52))%Z with 52%Z by lia.
  rewrite (Pos.mul_comm m). cbn [Pos.mul].
  cbn [shr shr_record_of_loc iter_pos shr_1 orb shr_m loc_of_shr_record
       round_nearest_even].
  replace (e + -52 + 52)%Z with e by lia.
  cbn [Zdigits2]. rewrite C. rewrite Z.sub_diag.
  cbn [shr shr_m]. rewrite B. reflexivity.
Qed.

Lemma float_mul_one_r (x : PrimFloat.float) : PrimFloat.mul x one = x.
Proof.
  apply Prim2SF_inj. rewrite mul_spec. apply SF64mul_one. apply Prim2SF_valid.
Qed.

End FloatFacts.

(** Closed facts about doubles are decided by evaluation. *)
Ltac closed_float :=
  first [ vm_compute; exact I
        | vm_compute; eexists; eexists; reflexivity
        | vm_compute; reflexivity ].

(** ** The rounding of binary64, from [SpecFloat] *)

Section Rounding.
Import SpecFloat FloatOps FloatAxioms.
Local Open Scope Q_scope.

(** *** Powers of two *)

Lemma bpow_pos (e : Z) : 0 < bpow e.
Proof. apply Qpower_0_lt. reflexivity. Qed.

Lemma bpow_add (a b : Z) : bpow (a + b) == bpow a * bpow b.
Proof. apply Qpower_plus. discriminate. Qed.

Lemma bpow_0 : bpow 0 == 1.
Proof. reflexivity. Qed.

Lemma bpow_1 : bpow 1 == 2.
Proof. reflexivity. Qed.

Lemma bpow_succ (e : Z) : bpow (e + 1) == 2 * bpow e.
Proof. rewrite bpow_add, bpow_1. ring. Qed.

Lemma bpow_le (a b : Z) : (a <= b)%Z -> bpow a <= bpow b.
Proof. intro L. apply Qpower_le_compat_l; [exact L|]. discriminate. Qed.

Lemma bpow_lt (a b : Z) : (a < b)%Z -> bpow a < bpow b.
Proof. intro L. apply Qpower_lt_compat_l; [exact L|]. reflexivity. Qed.

Lemma bpow_lt_inv (a b : Z) : bpow a < bpow b -> (a < b)%Z.
Proof. intro L. apply (Qpower_lt_compat_l_inv 2); [exact L|reflexivity]. Qed.

Lemma bpow_inject (e : Z) : (0 <= e)%Z -> bpow e == inject_Z (2 ^ e).
Proof. intro L. unfold bpow. rewrite Zpower_Qpower by exact L. reflexivity. Qed.

Lemma bpow_sub (a b : Z) : bpow (a - b) == bpow a / bpow b.
Proof. apply Qpower_minus. discriminate. Qed.

(** *** Binary digits *)

Lemma digits2_pos_bounds (p : positive) :
  (2 ^ (Zpos (digits2_pos p) - 1) <= Zpos p < 2 ^ Zpos (digits2_pos p))%Z.
Proof.
  induction p as [p IH|p IH|]; cbn [digits2_pos].
  - rewrite Pos2Z.inj_succ.
    replace (Z.succ (Zpos (digits2_pos p)) - 1)%Z with (Zpos (digits2_pos p) - 1 + 1)%Z by lia.
    rewrite Z.pow_succ_r by lia.
    rewrite Z.pow_add_r by lia. change (2 ^ 1)%Z with 2%Z. lia.
  - rewrite Pos2Z.inj_succ.
    replace (Z.succ (Zpos (digits2_pos p)) - 1)%Z with (Zpos (digits2_pos p) - 1 + 1)%Z by lia.
    rewrite Z.pow_succ_r by lia.
    rewrite Z.pow_add_r by lia. change (2 ^ 1)%Z with 2%Z. lia.
  - cbn. lia.
Qed.

Lemma Zdigits2_bounds (m : Z) :
  (0 < m)%Z -> (2 ^ (Zdigits2 m - 1) <= m < 2 ^ Zdigits2 m)%Z.
Proof.
  destruct m as [|p|p]; try lia. intros _. apply digits2_pos_bounds.
Qed.

Lemma Zdigits2_nonneg (m : Z) : (0 <= Zdigits2 m)%Z.
Proof. destruct m; cbn; lia. Qed.

Lemma Zdigits2_pos (m : Z) : (0 < m)%Z -> (0 < Zdigits2 m)%Z.
Proof. destruct m; cbn; lia. Qed.

(** The number of digits is determined by the two powers that bracket. *)
Lemma Zdigits2_unique (m d : Z) :
  (2 ^ (d - 1) <= m < 2 ^ d)%Z -> (0 < d)%Z -> Zdigits2 m = d.
Proof.
  intros [L U] Hd.
  assert (Hm : (0 < m)%Z).
  { assert (0 < 2 ^ (d - 1))%Z by (apply Z.pow_pos_nonneg; lia). lia. }
  destruct (Zdigits2_bounds m Hm) as [L' U'].
  pose proof (Zdigits2_pos m Hm) as Hp.
  destruct (Z.lt_trichotomy (Zdigits2 m) d) as [C|[C|C]]; [|exact C|].
  - assert (2 ^ Zdigits2 m <= 2 ^ (d - 1))%Z by (apply Z.pow_le_mono_r; lia). lia.
  - assert (2 ^ d <= 2 ^ (Zdigits2 m - 1))%Z by (apply Z.pow_le_mono_r; lia). lia.
Qed.

(** *** Shifting a mantissa right *)

Lemma inject_Z_xO (p : positive) : inject_Z (Zpos p~0) == 2 * inject_Z (Zpos p).
Proof. unfold Qeq; simpl; lia. Qed.

Lemma inject_Z_xI (p : positive) : inject_Z (Zpos p~1) == 2 * inject_Z (Zpos p) + 1.
Proof. unfold Qeq; simpl; lia. Qed.

Lemma located_comp (mrs : shr_record) (y y' : Q) :
  y == y' -> located mrs y -> located mrs y'.
Proof.
  intros E [Hm H]. split; [exact Hm|].
  destruct (shr_r mrs), (shr_s mrs); rewrite <- E; exact H.
Qed.

Lemma located_shr_1 (mrs : shr_record) (y : Q) :
  located mrs y -> located (shr_1 mrs) (y * (1 # 2)).
Proof.
  destruct mrs as [m r s]. unfold located. cbn [shr_m shr_r shr_s].
  intros [Hm H].
  destruct m as [|[p|p|]|p]; try lia;
    destruct r, s; cbn [shr_1 shr_m shr_r shr_s orb];
    (split; [lia|]);
    try rewrite inject_Z_xO in H; try rewrite inject_Z_xI in H;
    change (inject_Z 0) with 0 in *; change (inject_Z 1) with 1 in *;
    try rewrite inject_Z_xO; try rewrite inject_Z_xI; lra.
Qed.

Lemma half_bpow (y : Q) (e : Z) : y / bpow e * (1 # 2) == y / bpow (e + 1).
Proof.
  rewrite bpow_succ. pose proof (bpow_pos e). field. lra.
Qed.

Lemma located_iter_shr_1 (n : positive) :
  forall (mrs : shr_record) (y : Q),
    located mrs y -> located (iter_pos shr_1 n mrs) (y / bpow (Zpos n)).
Proof.
  induction n as [n IH|n IH|]; intros mrs y H; cbn [iter_pos].
  - apply (located_comp _ (y * (1 # 2) / bpow (Zpos n) / bpow (Zpos n))).
    + rewrite (Pos2Z.inj_xI n). replace (2 * Zpos n + 1)%Z with (Zpos n + Zpos n + 1)%Z by lia.
      rewrite bpow_succ, bpow_add. pose proof (bpow_pos (Zpos n)). field. lra.
    + apply IH, IH, located_shr_1, H.
  - apply (located_comp _ (y / bpow (Zpos n) / bpow (Zpos n))).
    + rewrite (Pos2Z.inj_xO n). replace (2 * Zpos n)%Z with (Zpos n + Zpos n)%Z by lia.
      rewrite bpow_add. pose proof (bpow_pos (Zpos n)). field. lra.
    + apply IH, IH, H.
  - apply (located_comp _ (y * (1 # 2))).
    + rewrite bpow_1. field.
    + apply located_shr_1, H.
Qed.

Lemma shr_spec (mrs : shr_record) (e n : Z) (v : Q) :
  located_at mrs e v ->
  snd (shr mrs e n) = (e + Z.max 0 n)%Z /\
  located_at (fst (shr mrs e n)) (e + Z.max 0 n) v.
Proof.
  unfold located_at. intro H.
  destruct n as [|p|p]; cbn [shr fst snd].
  - rewrite Z.max_l by lia. rewrite Z.add_0_r. split; [reflexivity|exact H].
  - rewrite Z.max_r by lia. split; [reflexivity|].
    apply (located_comp _ (v / bpow e / bpow (Zpos p))).
    + rewrite bpow_add. pose proof (bpow_pos e). pose proof (bpow_pos (Zpos p)).
      field. lra.
    + apply located_iter_shr_1, H.
  - rewrite Z.max_l by lia. rewrite Z.add_0_r. split; [reflexivity|exact H].
Qed.

(** *** Rounding a located value to nearest, ties to even *)

Lemma Qfloor_unique (y : Q) (m : Z) :
  inject_Z m <= y -> y < inject_Z m + 1 -> Qfloor y = m.
Proof.
  intros L U.
  pose proof (Qfloor_le y) as F1. pose proof (Qlt_floor y) as F2.
  rewrite inject_Z_plus in F2. change (inject_Z 1) with 1 in F2.
  assert (A : inject_Z (Qfloor y) < inject_Z m + 1) by lra.
  assert (B : inject_Z m < inject_Z (Qfloor y) + 1) by lra.
  change 1 with (inject_Z 1) in A, B. rewrite <- inject_Z_plus in A, B.
  rewrite <- Zlt_Qlt in A, B. lia.
Qed.

Lemma round_located (mrs : shr_record) (y : Q) :
  located mrs y ->
  round_nearest_even (shr_m mrs) (loc_of_shr_record mrs) = round_half_even y.
Proof.
  destruct mrs as [m r s]. unfold located. cbn [shr_m shr_r shr_s].
  intros [Hm H]. unfold round_half_even.
  assert (F : Qfloor y = m).
  { apply Qfloor_unique; destruct r, s; lra. }
  rewrite F.
  destruct r, s; cbn [loc_of_shr_record round_nearest_even];
    destruct (Qcompare (y - inject_Z m) (1 # 2)) eqn:E; Qcompare_prop E;
    try reflexivity; exfalso; lra.
Qed.

(** *** The rounding of binary64 *)

Lemma fexp_eq (d : Z) : fexp prec emax d = Z.max (d - 53) (-1074).
Proof. reflexivity. Qed.

Lemma located_integer (mrs : shr_record) (Y : Z) :
  located mrs (inject_Z Y) -> shr_m mrs = Y.
Proof.
  destruct mrs as [m r s]. unfold located. cbn [shr_m shr_r shr_s].
  intros [Hm H].
  assert (I : forall a b : Z, inject_Z a < inject_Z b -> inject_Z a + 1 <= inject_Z b).
  { intros a b L. rewrite <- Zlt_Qlt in L. change 1 with (inject_Z 1).
    rewrite <- inject_Z_plus, <- Zle_Qle. lia. }
  destruct r, s.
  - assert (L : inject_Z m < inject_Z Y) by lra. apply I in L. lra.
  - assert (L : inject_Z m < inject_Z Y) by lra. apply I in L. lra.
  - assert (L : inject_Z m < inject_Z Y) by lra. apply I in L. lra.
  - symmetry. apply inject_Z_injective. exact H.
Qed.

Lemma bpow_ge_1 (k : Z) : (0 <= k)%Z -> 1 <= bpow k.
Proof. intro L. rewrite <- bpow_0. apply bpow_le, L. Qed.

Lemma round_half_even_nonneg (y : Q) : 0 <= y -> (0 <= round_half_even y)%Z.
Proof.
  intro Hy. rewrite <- (round_half_even_Z 0). apply round_half_even_mono. exact Hy.
Qed.

(** Bounds on the rounded mantissa of a value whose magnitude is known. *)
Lemma rounded_mantissa_bounds (v : Q) (d : Z) :
  bpow (d - 1) <= v -> v < bpow d ->
  let E := fexp prec emax d in
  let m2 := round_half_even (v / bpow E) in
  ((1 <= d - E)%Z /\ (2 ^ (d - E - 1) <= m2 <= 2 ^ (d - E))%Z)
  \/ ((d - E <= 0)%Z /\ (0 <= m2 <= 1)%Z).
Proof.
  intros L U E m2. pose proof (bpow_pos E) as HE.
  destruct (Z_lt_le_dec 0 (d - E)) as [K|K].
  - left. split; [lia|]. split.
    + rewrite <- (round_half_even_Z (2 ^ (d - E - 1))). apply round_half_even_mono.
      rewrite <- bpow_inject by lia.
      replace (d - E - 1)%Z with (d - 1 - E)%Z by lia. rewrite bpow_sub.
      apply Qmult_le_compat_r; [exact L|]. apply Qlt_le_weak, Qinv_lt_0_compat, HE.
    + rewrite <- (round_half_even_Z (2 ^ (d - E))). apply round_half_even_mono.
      rewrite <- bpow_inject by lia. rewrite bpow_sub.
      apply Qmult_le_compat_r; [lra|]. apply Qlt_le_weak, Qinv_lt_0_compat, HE.
  - right. split; [lia|]. split.
    + apply round_half_even_nonneg.
      apply Qmult_le_0_compat; [|apply Qlt_le_weak, Qinv_lt_0_compat, HE].
      pose proof (bpow_pos (d - 1)). lra.
    + rewrite <- (round_half_even_Z 1). apply round_half_even_mono.
      change (inject_Z 1) with 1.
      apply Qle_shift_div_r; [exact HE|]. rewrite Qmult_1_l.
      assert (bpow d <= bpow E) by (apply bpow_le; lia). lra.
Qed.

Lemma Zdigits2_le (m k : Z) : (0 <= k)%Z -> (0 <= m < 2 ^ k)%Z -> (Zdigits2 m <= k)%Z.
Proof.
  intros Hk [L U]. destruct (Z.eq_dec m 0) as [Z0|NZ]; [subst; cbn; lia|].
  destruct (Zdigits2_bounds m ltac:(lia)) as [B _].
  destruct (Z_le_gt_dec (Zdigits2 m) k) as [C|C]; [exact C|].
  assert (2 ^ k <= 2 ^ (Zdigits2 m - 1))%Z by (apply Z.pow_le_mono_r; lia). lia.
Qed.

Lemma rounded_mantissa_upper (v : Q) (d : Z) :
  0 < v -> v < bpow d ->
  let E := fexp prec emax d in
  let m2 := round_half_even (v / bpow E) in
  (0 <= m2 <= 2 ^ Z.max 0 (d - E))%Z.
Proof.
  intros P U E m2. pose proof (bpow_pos E) as HE. split.
  - apply round_half_even_nonneg.
    apply Qmult_le_0_compat; [lra|apply Qlt_le_weak, Qinv_lt_0_compat, HE].
  - rewrite <- (round_half_even_Z (2 ^ Z.max 0 (d - E))). apply round_half_even_mono.
    rewrite <- bpow_inject by lia.
    apply Qle_trans with (bpow (d - E)).
    + rewrite bpow_sub. apply Qmult_le_compat_r; [lra|].
      apply Qlt_le_weak, Qinv_lt_0_compat, HE.
    + apply bpow_le. lia.
Qed.

Lemma round_half_even_le_pow (y : Q) (k : Z) :
  (0 <= k)%Z -> y <= bpow k -> inject_Z (round_half_even y) <= bpow k.
Proof.
  intros Hk L. rewrite bpow_inject by exact Hk. rewrite <- Zle_Qle.
  rewrite <- (round_half_even_Z (2 ^ k)). apply round_half_even_mono.
  rewrite <- bpow_inject by exact Hk. exact L.
Qed.

Lemma round_half_even_ge_pow (y : Q) (k : Z) :
  (0 <= k)%Z -> bpow k <= y -> bpow k <= inject_Z (round_half_even y).
Proof.
  intros Hk L. rewrite bpow_inject by exact Hk. rewrite <- Zle_Qle.
  rewrite <- (round_half_even_Z (2 ^ k)). apply round_half_even_mono.
  rewrite <- bpow_inject by exact Hk. exact L.
Qed.

Lemma Qdiv_bpow_le (v : Q) (a E : Z) : v <= bpow a -> v / bpow E <= bpow (a - E).
Proof.
  intro L. rewrite bpow_sub. pose proof (bpow_pos E).
  apply Qmult_le_compat_r; [exact L|]. apply Qlt_le_weak, Qinv_lt_0_compat. assumption.
Qed.

Lemma Qdiv_bpow_ge (v : Q) (a E : Z) : bpow a <= v -> bpow (a - E) <= v / bpow E.
Proof.
  intro L. rewrite bpow_sub. pose proof (bpow_pos E).
  apply Qmult_le_compat_r; [exact L|]. apply Qlt_le_weak, Qinv_lt_0_compat. assumption.
Qed.

Lemma bpow_split (a E : Z) : bpow a == bpow (a - E) * bpow E.
Proof.
  rewrite <- bpow_add. replace (a - E + E)%Z with a by lia. reflexivity.
Qed.

(** After rounding, the mantissa either fits its exponent or is the power
    of two just above, which one more exact shift brings back. *)
Lemma renormalize_shift (v : Q) (d : Z) :
  0 < v -> v < bpow d -> (bpow (d - 1) <= v \/ (d <= -1022)%Z) ->
  let E := fexp prec emax d in
  let m2 := round_half_even (v / bpow E) in
  let n2 := (fexp prec emax (Zdigits2 m2 + E) - E)%Z in
  (0 <= m2)%Z /\
  (n2 = 0%Z \/ (n2 = 1%Z /\ (1 <= d - E)%Z /\ m2 = (2 ^ (d - E))%Z)).
Proof.
  intros Pv U [L|T] E m2 n2.
  - destruct (rounded_mantissa_bounds v d L U) as [[K [B1 B2]]|[K [B1 B2]]];
      fold E in K, B1, B2; fold m2 in B1, B2.
    + assert (P : (0 < 2 ^ (d - E - 1))%Z) by (apply Z.pow_pos_nonneg; lia).
      split; [lia|].
      assert (S : (2 ^ (d - E) = 2 * 2 ^ (d - E - 1))%Z).
      { replace (d - E)%Z with (Z.succ (d - E - 1)) at 1 by lia.
        apply Z.pow_succ_r. lia. }
      destruct (Z.eq_dec m2 (2 ^ (d - E))) as [Emax|Nmax].
      * assert (D : Zdigits2 m2 = (d - E + 1)%Z).
        { apply Zdigits2_unique; [|lia].
          replace (d - E + 1 - 1)%Z with (d - E)%Z by lia.
          rewrite Z.pow_add_r by lia. change (2 ^ 1)%Z with 2%Z. lia. }
        unfold n2. rewrite D. unfold E. rewrite !fexp_eq.
        destruct (Z_le_gt_dec
                    (Z.max (d - Z.max (d - 53) (-1074) + 1
                            + Z.max (d - 53) (-1074) - 53) (-1074)
                     - Z.max (d - 53) (-1074)) 0) as [C|C].
        -- left. lia.
        -- right. split; [lia|]. split; [lia|exact Emax].
      * left. assert (D : Zdigits2 m2 = (d - E)%Z).
        { apply Zdigits2_unique; lia. }
        unfold n2. rewrite D. replace (d - E + E)%Z with d by lia. fold E. lia.
    + split; [lia|]. left. unfold n2.
      assert (HE : E = (-1074)%Z) by (unfold E in *; rewrite fexp_eq in *; lia).
      destruct (Z.eq_dec m2 0) as [Z0|NZ].
      * rewrite Z0. cbn [Zdigits2]. rewrite HE. reflexivity.
      * replace m2 with 1%Z by lia. cbn [Zdigits2 digits2_pos]. rewrite HE. cbn. lia.
  - destruct (rounded_mantissa_upper v d Pv U) as [B1 B2]. fold E in B2. fold m2 in B1, B2.
    split; [exact B1|]. left.
    assert (HE : E = (-1074)%Z) by (unfold E; rewrite fexp_eq; lia).
    assert (D : (Zdigits2 m2 <= Z.max 0 (d - E) + 1)%Z).
    { apply Zdigits2_le; [lia|]. split; [exact B1|].
      rewrite Z.pow_add_r by lia. change (2 ^ 1)%Z with 2%Z.
      assert (0 < 2 ^ Z.max 0 (d - E))%Z by (apply Z.pow_pos_nonneg; lia). lia. }
    pose proof (Zdigits2_nonneg m2) as D0.
    unfold n2. rewrite fexp_eq. lia.
Qed.

Lemma binary_round_aux_spec (sx : bool) (mx ex : Z) (lx : location) (v : Q) :
  0 < v ->
  located_at (shr_record_of_loc mx lx) ex v ->
  ((1 <= mx)%Z /\ (ex <= fexp prec emax (Zdigits2 mx + ex))%Z)
  \/ (mx = 0%Z /\ (ex <= -1074)%Z) ->
  exists r, rounds v r /\ round_valid sx r (binary_round_aux prec emax sx mx ex lx).
Proof.
  intros Pv Hloc Hpre.
  set (d := (Zdigits2 mx + ex)%Z) in *.
  set (E := fexp prec emax d) in *.
  assert (HexE : (ex <= E)%Z).
  { destruct Hpre as [[_ H]|[H0 H]]; [exact H|].
    unfold E, d. rewrite H0. cbn [Zdigits2]. rewrite fexp_eq. lia. }
  (* the magnitude of v *)
  assert (B : inject_Z mx <= v / bpow ex /\ v / bpow ex < inject_Z mx + 1).
  { destruct Hloc as [_ H].
    destruct lx as [|[| |]]; cbn [shr_record_of_loc shr_m shr_r shr_s] in H; lra. }
  pose proof (bpow_pos ex) as Hex.
  assert (V : v == v / bpow ex * bpow ex) by (field; lra).
  assert (Hv : v < bpow d /\ (bpow (d - 1) <= v \/ (d <= -1022)%Z)).
  { destruct Hpre as [[Hm _]|[H0 Hl]].
    - destruct (Zdigits2_bounds mx ltac:(lia)) as [D1 D2].
      pose proof (Zdigits2_pos mx ltac:(lia)) as Dp.
      assert (D3 : (mx + 1 <= 2 ^ Zdigits2 mx)%Z) by lia.
      rewrite Zle_Qle in D1, D3. rewrite inject_Z_plus in D3.
      change (inject_Z 1) with 1 in D3.
      rewrite <- !bpow_inject in D1, D3 by lia.
      unfold d.
      replace (Zdigits2 mx + ex - 1)%Z with ((Zdigits2 mx - 1) + ex)%Z by lia.
      rewrite !bpow_add. destruct B as [B1 B2].
      split.
      + rewrite V at 1. apply Qmult_lt_compat_r; lra.
      + left. rewrite V. apply Qmult_le_compat_r; lra.
    - unfold d. rewrite H0 in *. cbn [Zdigits2]. rewrite Z.add_0_l.
      change (inject_Z 0) with 0 in B. destruct B as [B1 B2].
      split; [|right; lia].
      apply Qle_lt_trans with (v / bpow ex * bpow ex); [rewrite <- V; apply Qle_refl|].
      apply Qlt_le_trans with (1 * bpow ex); [|rewrite Qmult_1_l; apply Qle_refl].
      apply Qmult_lt_compat_r; lra. }
  destruct Hv as [Hv2 Hv1].
  pose proof (bpow_pos E) as HE.
  exists (inject_Z (round_half_even (v / bpow E)) * bpow E). split.
  { exists d. split; [exact Pv|]. split; [exact Hv2|]. split; [exact Hv1|]. reflexivity. }
  unfold binary_round_aux.
  (* first shift *)
  unfold shr_fexp at 1. fold d. fold E.
  pose proof (shr_spec (shr_record_of_loc mx lx) ex (E - ex) v Hloc) as [S1e S1l].
  destruct (shr (shr_record_of_loc mx lx) ex (E - ex)) as [mrs' e'].
  cbn [fst snd] in S1e, S1l. 
  replace (ex + Z.max 0 (E - ex))%Z with E in S1e, S1l by lia. subst e'.
  rewrite (round_located mrs' (v / bpow E) S1l).
  set (m2 := round_half_even (v / bpow E)).
  (* second shift *)
  destruct (renormalize_shift v d Pv Hv2 Hv1) as [Hm2 Hn2]. fold E in Hm2, Hn2. fold m2 in Hm2, Hn2.
  unfold shr_fexp.
  set (n2 := (fexp prec emax (Zdigits2 m2 + E) - E)%Z) in *.
  assert (L2 : located_at (shr_record_of_loc m2 loc_Exact) E (inject_Z m2 * bpow E)).
  { split; cbn [shr_record_of_loc shr_m shr_r shr_s]; [exact Hm2|]. field. lra. }
  pose proof (shr_spec _ E n2 _ L2) as [S2e S2l].
  destruct (shr (shr_record_of_loc m2 loc_Exact) E n2) as [mrs'' e''].
  cbn [fst snd] in S2e, S2l. subst e''.
  (* the mantissa after the second shift *)
  assert (X : exists Y, (m2 = 2 ^ Z.max 0 n2 * Y)%Z
                        /\ (0 <= Y)%Z
                        /\ fexp prec emax (Zdigits2 Y + (E + Z.max 0 n2))
                           = (E + Z.max 0 n2)%Z).
  { destruct Hn2 as [C|(C & K & HY)].
    - exists m2. rewrite C. change (Z.max 0 0) with 0%Z.
      rewrite Z.pow_0_r, Z.mul_1_l, Z.add_0_r.
      split; [reflexivity|]. split; [exact Hm2|]. unfold n2 in C. lia.
    - exists (2 ^ (d - E - 1))%Z. rewrite C. change (Z.max 0 1) with 1%Z.
      assert (P : (0 < 2 ^ (d - E - 1))%Z) by (apply Z.pow_pos_nonneg; lia).
      split; [|split; [lia|]].
      + rewrite HY. rewrite <- Z.pow_add_r by lia. f_equal. lia.
      + assert (D2 : Zdigits2 m2 = (d - E + 1)%Z).
        { rewrite HY. apply Zdigits2_unique; [|lia].
          replace (d - E + 1 - 1)%Z with (d - E)%Z by lia.
          rewrite Z.pow_add_r by lia. change (2 ^ 1)%Z with 2%Z.
          assert (0 < 2 ^ (d - E))%Z by (apply Z.pow_pos_nonneg; lia). lia. }
        assert (DY : Zdigits2 (2 ^ (d - E - 1)) = (d - E)%Z).
        { assert (S : (2 ^ (d - E) = 2 * 2 ^ (d - E - 1))%Z).
          { replace (d - E)%Z with (Z.succ (d - E - 1)) at 1 by lia.
            apply Z.pow_succ_r. lia. }
          apply Zdigits2_unique; lia. }
        rewrite DY. unfold n2 in C. rewrite D2 in C.
        replace (d - E + (E + 1))%Z with (d - E + 1 + E)%Z by lia. lia. }
  destruct X as (Y & HY & HY0 & HcanY).
  assert (M3 : shr_m mrs'' = Y).
  { apply located_integer. eapply located_comp; [|exact S2l].
    rewrite HY, inject_Z_mult, bpow_add. rewrite <- bpow_inject by lia.
    pose proof (bpow_pos (Z.max 0 n2)). field. lra. }
  rewrite M3.
  assert (R : inject_Z m2 * bpow E == inject_Z Y * bpow (E + Z.max 0 n2)).
  { rewrite HY, inject_Z_mult, bpow_add. rewrite <- bpow_inject by lia. ring. }
  unfold round_valid.
  destruct Y as [|p|p]; [| |lia]; cbn [round_result valid_binary].
  - split; [|reflexivity]. split; [reflexivity|]. rewrite R. change (inject_Z 0) with 0. ring.
  - destruct (Z.leb_spec (E + Z.max 0 n2) (emax - prec)) as [Le|Gt];
      cbn [round_result valid_binary].
    + split; [split; [reflexivity|exact R]|].
      unfold bounded, canonical_mantissa. apply andb_true_iff. split.
      * apply Z.eqb_eq. exact HcanY.
      * apply Z.leb_le. exact Le.
    + split; [|reflexivity]. split; [reflexivity|].
      change (emax - prec)%Z with 971%Z in Gt. change emax with 1024%Z.
      assert (HEd : E = Z.max (d - 53) (-1074)) by (unfold E; apply fexp_eq).
      destruct Hn2 as [C|(C & K & HY')].
      * (* no renormalization: the value is at least 2^(d-1) >= 2^emax *)
        rewrite C in Gt. change (Z.max 0 0) with 0%Z in Gt.
        destruct Hv1 as [Hv1|Hv1]; [|lia].
        apply Qle_trans with (bpow (d - 1)); [apply bpow_le; lia|].
        rewrite (bpow_split (d - 1) E). apply Qmult_le_compat_r; [|lra].
        apply round_half_even_ge_pow; [lia|]. apply Qdiv_bpow_ge. exact Hv1.
      * (* the mantissa is the power of two 2^(d-E): the value is 2^d *)
        fold m2 in HY'. rewrite HY'. rewrite <- bpow_inject by lia. rewrite <- bpow_add.
        apply bpow_le. rewrite C in Gt. change (Z.max 0 1) with 1%Z in Gt. lia.
Qed.

(** *** Rounding is monotone *)

Lemma rounds_mono (v1 r1 v2 r2 : Q) :
  rounds v1 r1 -> rounds v2 r2 -> v1 <= v2 -> r1 <= r2.
Proof.
  intros (d1 & Pv1 & U1 & L1 & R1) (d2 & Pv2 & U2 & L2 & R2) Hv.
  set (E1 := fexp prec emax d1) in *. set (E2 := fexp prec emax d2) in *.
  pose proof (bpow_pos E1) as P1. pose proof (bpow_pos E2) as P2.
  rewrite R1, R2.
  destruct (Z.lt_trichotomy E1 E2) as [HE1|[EE|HE1]].
  - assert (HE : E2 = (d2 - 53)%Z /\ (d1 < d2)%Z /\ (-1021 < d2)%Z).
    { unfold E1, E2 in *. rewrite !fexp_eq in *. lia. }
    destruct HE as (HE2 & Hd' & Hd2).
    destruct L2 as [L2|L2]; [|lia].
    apply Qle_trans with (bpow (d2 - 1)).
    + assert (A : inject_Z (round_half_even (v1 / bpow E1)) <= bpow (d2 - 1 - E1)).
      { apply round_half_even_le_pow; [lia|]. apply Qdiv_bpow_le.
        assert (bpow d1 <= bpow (d2 - 1)) by (apply bpow_le; lia). lra. }
      rewrite (bpow_split (d2 - 1) E1). apply Qmult_le_compat_r; [exact A|lra].
    + assert (A : bpow (d2 - 1 - E2) <= inject_Z (round_half_even (v2 / bpow E2))).
      { apply round_half_even_ge_pow; [lia|]. apply Qdiv_bpow_ge. exact L2. }
      rewrite (bpow_split (d2 - 1) E2). apply Qmult_le_compat_r; [exact A|lra].
  - rewrite EE. apply Qmult_le_compat_r; [|lra].
    rewrite <- Zle_Qle. apply round_half_even_mono.
    apply Qmult_le_compat_r; [exact Hv|]. apply Qlt_le_weak, Qinv_lt_0_compat, P2.
  - exfalso.
    assert (HE : (d2 < d1)%Z /\ (-1021 < d1)%Z).
    { unfold E1, E2 in *. rewrite !fexp_eq in *. lia. }
    destruct HE as (Hd' & Hd1).
    destruct L1 as [L1|L1]; [|lia].
    assert (bpow d2 <= bpow (d1 - 1)) by (apply bpow_le; lia). lra.
Qed.

Lemma rounds_pos (v r : Q) : rounds v r -> 0 < v /\ 0 <= r.
Proof.
  intros (d & P & U & L & R). split; [exact P|]. rewrite R.
  apply Qmult_le_0_compat; [|apply Qlt_le_weak, bpow_pos].
  change 0 with (inject_Z 0). rewrite <- Zle_Qle. apply round_half_even_nonneg.
  apply Qmult_le_0_compat; [lra|]. apply Qlt_le_weak, Qinv_lt_0_compat, bpow_pos.
Qed.

Lemma rounds_comp (v v' r : Q) : v == v' -> rounds v r -> rounds v' r.
Proof.
  intros E (d & P & U & L & R). exists d.
  split; [rewrite <- E; exact P|]. split; [rewrite <- E; exact U|].
  split; [destruct L as [L|L]; [left; rewrite <- E; exact L|right; exact L]|].
  rewrite R.
  rewrite (round_half_even_comp (v / bpow (fexp prec emax d)) (v' / bpow (fexp prec emax d))).
  - reflexivity.
  - rewrite E. reflexivity.
Qed.

(** *** The value and the order of doubles *)

Lemma canonical_digits (m : positive) (e : Z) :
  bounded prec emax m e = true ->
  (Zpos (digits2_pos m) <= 53)%Z /\
  ((-1074) <= e)%Z /\
  ((-1074 < e)%Z -> Zpos (digits2_pos m) = 53%Z).
Proof.
  unfold bounded, canonical_mantissa. intro B.
  apply andb_true_iff in B. destruct B as [C _]. apply Z.eqb_eq in C.
  rewrite fexp_eq in C. lia.
Qed.

Lemma finite_value_lt (m1 : positive) (e1 : Z) (m2 : positive) (e2 : Z) :
  bounded prec emax m1 e1 = true -> bounded prec emax m2 e2 = true ->
  (e1 < e2)%Z ->
  inject_Z (Zpos m1) * bpow e1 < inject_Z (Zpos m2) * bpow e2.
Proof.
  intros B1 B2 L.
  destruct (canonical_digits m1 e1 B1) as (D1 & E1 & _).
  destruct (canonical_digits m2 e2 B2) as (_ & _ & D2).
  specialize (D2 ltac:(lia)).
  destruct (digits2_pos_bounds m1) as [_ U1].
  destruct (digits2_pos_bounds m2) as [L2 _]. rewrite D2 in L2.
  assert (U1' : (Zpos m1 < 2 ^ 53)%Z).
  { assert (2 ^ Zpos (digits2_pos m1) <= 2 ^ 53)%Z by (apply Z.pow_le_mono_r; lia). lia. }
  rewrite Zlt_Qlt in U1'. rewrite Zle_Qle in L2.
  rewrite <- !bpow_inject in U1', L2 by lia.
  pose proof (bpow_pos e1) as P1. pose proof (bpow_pos e2) as P2.
  apply Qlt_le_trans with (bpow 53 * bpow e1).
  - apply Qmult_lt_compat_r; assumption.
  - apply Qle_trans with (bpow (53 - 1) * bpow e2).
    + rewrite <- !bpow_add. apply bpow_le. lia.
    + apply Qmult_le_compat_r; [exact L2|lra].
Qed.

Lemma inject_Z_pos_compare (m1 m2 : positive) (e : Z) :
  Qcompare (inject_Z (Zpos m1) * bpow e) (inject_Z (Zpos m2) * bpow e)
  = Pos.compare m1 m2.
Proof.
  pose proof (bpow_pos e) as P.
  destruct (Pos.compare_spec m1 m2) as [C|C|C].
  - subst. apply Qeq_alt. reflexivity.
  - apply Qlt_alt. apply Qmult_lt_compat_r; [exact P|]. rewrite <- Zlt_Qlt. lia.
  - apply Qgt_alt. apply Qmult_lt_compat_r; [exact P|]. rewrite <- Zlt_Qlt. lia.
Qed.

Lemma SFcompare_value (x y : spec_float) :
  valid_binary x = true -> valid_binary y = true ->
  nonneg_finite x -> nonneg_finite y ->
  SFcompare x y = Some (Qcompare (SFvalue x) (SFvalue y)).
Proof.
  intros Vx Vy Nx Ny.
  destruct x as [sx|sx| |[|] mx ex]; try contradiction;
  destruct y as [sy|sy| |[|] my ey]; try contradiction;
    cbn [SFcompare SFvalue cond_Zopp].
  - reflexivity.
  - f_equal. symmetry. apply Qlt_alt.
    apply Qmult_lt_0_compat; [reflexivity|apply bpow_pos].
  - f_equal. symmetry. apply Qgt_alt.
    apply Qmult_lt_0_compat; [reflexivity|apply bpow_pos].
  - cbn [valid_binary] in Vx, Vy. f_equal.
    destruct (Z.compare_spec ex ey) as [C|C|C].
    + subst. rewrite inject_Z_pos_compare. reflexivity.
    + symmetry. apply Qlt_alt. apply finite_value_lt; assumption.
    + symmetry. apply Qgt_alt. apply finite_value_lt; assumption.
Qed.

Lemma SFleb_value (x y : spec_float) :
  valid_binary x = true -> valid_binary y = true ->
  nonneg_finite x -> nonneg_finite y ->
  (SFleb x y = true <-> SFvalue x <= SFvalue y).
Proof.
  intros Vx Vy Nx Ny. unfold SFleb. rewrite (SFcompare_value x y Vx Vy Nx Ny).
  destruct (Qcompare (SFvalue x) (SFvalue y)) eqn:E; Qcompare_prop E;
    split; intro H; try reflexivity; try discriminate; lra.
Qed.

Lemma SFltb_value (x y : spec_float) :
  valid_binary x = true -> valid_binary y = true ->
  nonneg_finite x -> nonneg_finite y ->
  (SFltb x y = true <-> SFvalue x < SFvalue y).
Proof.
  intros Vx Vy Nx Ny. unfold SFltb. rewrite (SFcompare_value x y Vx Vy Nx Ny).
  destruct (Qcompare (SFvalue x) (SFvalue y)) eqn:E; Qcompare_prop E;
    split; intro H; try reflexivity; try discriminate; lra.
Qed.

Lemma SFvalue_nonneg (x : spec_float) : nonneg_finite x -> 0 <= SFvalue x.
Proof.
  destruct x as [s|s| |[|] m e]; cbn [nonneg_finite SFvalue cond_Zopp];
    try contradiction; intros _; try lra.
  apply Qmult_le_0_compat; [discriminate|apply Qlt_le_weak, bpow_pos].
Qed.

(** *** Division: the quotient and where the exact value lies *)

Lemma frac_half (r m : Z) :
  (0 < m)%Z ->
  (inject_Z r / inject_Z m < 1 # 2 <-> (2 * r < m)%Z)
  /\ (inject_Z r / inject_Z m == 1 # 2 <-> (2 * r = m)%Z)
  /\ ((1 # 2) < inject_Z r / inject_Z m <-> (m < 2 * r)%Z).
Proof.
  intro Hm.
  assert (Pm : 0 < inject_Z m) by (change 0 with (inject_Z 0); rewrite <- Zlt_Qlt; exact Hm).
  assert (E : inject_Z r / inject_Z m - (1 # 2)
              == (inject_Z (2 * r) - inject_Z m) * / (2 * inject_Z m)).
  { rewrite inject_Z_mult. change (inject_Z 2) with 2. field. lra. }
  assert (Pi : 0 < / (2 * inject_Z m)) by (apply Qinv_lt_0_compat; lra).
  set (a := inject_Z r / inject_Z m) in *.
  set (k := / (2 * inject_Z m)) in *.
  repeat split; intro H.
  - assert (C : inject_Z (2 * r) - inject_Z m < 0) by nra.
    assert (C' : inject_Z (2 * r) < inject_Z m) by lra.
    rewrite <- Zlt_Qlt in C'. exact C'.
  - rewrite Zlt_Qlt in H. nra.
  - assert (C : inject_Z (2 * r) - inject_Z m == 0) by nra.
    assert (C' : inject_Z (2 * r) == inject_Z m) by lra.
    apply (proj1 (inject_Z_injective _ _)). exact C'.
  - rewrite <- H in E.
    assert (C : inject_Z (2 * r) - inject_Z (2 * r) == 0) by ring.
    rewrite C in E. lra.
  - assert (C : 0 < inject_Z (2 * r) - inject_Z m) by nra.
    assert (C' : inject_Z m < inject_Z (2 * r)) by lra.
    rewrite <- Zlt_Qlt in C'. exact C'.
  - rewrite Zlt_Qlt in H. nra.
Qed.

Lemma new_location_located (q r m : Z) :
  (0 <= q)%Z -> (0 <= r < m)%Z ->
  located (shr_record_of_loc q (new_location m r))
          (inject_Z q + inject_Z r / inject_Z m).
Proof.
  intros Hq [Hr0 Hrm].
  assert (Hm : (0 < m)%Z) by lia.
  destruct (frac_half r m Hm) as (F1 & F2 & F3).
  assert (Pm : 0 < inject_Z m) by (change 0 with (inject_Z 0); rewrite <- Zlt_Qlt; exact Hm).
  assert (T0 : r <> 0%Z -> 0 < inject_Z r / inject_Z m).
  { intro N. apply Qlt_shift_div_l; [exact Pm|]. rewrite Qmult_0_l.
    change 0 with (inject_Z 0). rewrite <- Zlt_Qlt. lia. }
  assert (T1 : inject_Z r / inject_Z m < 1).
  { apply Qlt_shift_div_r; [exact Pm|]. rewrite Qmult_1_l. rewrite <- Zlt_Qlt. lia. }
  set (t := inject_Z r / inject_Z m) in *.
  split.
  { destruct (new_location m r) as [|[| |]]; cbn [shr_record_of_loc shr_m]; exact Hq. }
  unfold new_location, new_location_even, new_location_odd.
  assert (Er : forall (a b : location),
             (if Z.eqb r 0 then a else b) = if Z.eq_dec r 0 then a else b).
  { intros a b. destruct (Z.eqb_spec r 0), (Z.eq_dec r 0); congruence. }
  destruct (Z.even m) eqn:Ev; rewrite Er; destruct (Z.eq_dec r 0) as [R0|RN];
    try (cbn [shr_record_of_loc shr_m shr_r shr_s];
         unfold t; rewrite R0; change (inject_Z 0) with 0; field; lra);
    specialize (T0 RN).
  - destruct (Z.compare_spec (2 * r) m) as [C|C|C];
      cbn [shr_record_of_loc shr_m shr_r shr_s].
    + apply F2 in C. lra.
    + apply F1 in C. lra.
    + apply F3 in C. lra.
  - assert (Nh : (2 * r <> m)%Z).
    { intro C. rewrite <- C in Ev. rewrite Z.even_mul in Ev. discriminate. }
    destruct (Z.compare_spec (2 * r + 1) m) as [C|C|C];
      cbn [shr_record_of_loc shr_m shr_r shr_s].
    + assert (C' : (2 * r < m)%Z) by lia. apply F1 in C'. lra.
    + assert (C' : (2 * r < m)%Z) by lia. apply F1 in C'. lra.
    + assert (C' : (m < 2 * r)%Z) by lia. apply F3 in C'. lra.
Qed.

Lemma fexp_mono (a b : Z) : (a <= b)%Z -> (fexp prec emax a <= fexp prec emax b)%Z.
Proof. intro L. rewrite !fexp_eq. lia. Qed.

Lemma SFdiv_core_spec (m1 m2 : positive) (e1 e2 : Z) :
  let v := (inject_Z (Zpos m1) * bpow e1) / (inject_Z (Zpos m2) * bpow e2) in
  let '(q, e', l) := SFdiv_core_binary prec emax (Zpos m1) e1 (Zpos m2) e2 in
  0 < v
  /\ located_at (shr_record_of_loc q l) e' v
  /\ (((1 <= q)%Z /\ (e' <= fexp prec emax (Zdigits2 q + e'))%Z)
      \/ (q = 0%Z /\ (e' <= -1074)%Z)).
Proof.
  intro v. unfold SFdiv_core_binary.
  set (d1 := Zdigits2 (Zpos m1)). set (d2 := Zdigits2 (Zpos m2)).
  set (e' := Z.min (fexp prec emax (d1 + e1 - (d2 + e2))) (e1 - e2)).
  set (s := (e1 - e2 - e')%Z).
  assert (Hs : (0 <= s)%Z) by (unfold s, e'; lia).
  set (m' := match s with Zpos _ => Z.shiftl (Zpos m1) s | Z0 => Zpos m1 | Zneg _ => 0%Z end).
  assert (Hm' : m' = (Zpos m1 * 2 ^ s)%Z).
  { unfold m'. destruct s as [|p|p]; [lia| |lia]. apply Z.shiftl_mul_pow2. lia. }
  pose proof (Z_div_mod m' (Zpos m2) ltac:(lia)) as DM.
  destruct (Z.div_eucl m' (Zpos m2)) as [q r]. destruct DM as [DM1 DM2].
  pose proof (bpow_pos e1) as P1. pose proof (bpow_pos e2) as P2.
  pose proof (bpow_pos e') as P'.
  assert (I1 : 0 < inject_Z (Zpos m1)) by reflexivity.
  assert (I2 : 0 < inject_Z (Zpos m2)) by reflexivity.
  assert (P2s : (0 < 2 ^ s)%Z) by (apply Z.pow_pos_nonneg; lia).
  assert (Hq : (0 <= q)%Z) by nia.
  split; [|split].
  - unfold v. apply Qlt_shift_div_l; [nra|]. nra.
  - unfold located_at. eapply located_comp; [|apply (new_location_located q r (Zpos m2) Hq DM2)].
    unfold v.
    assert (Em : inject_Z (Zpos m1) * bpow s == inject_Z (Zpos m2) * inject_Z q + inject_Z r).
    { rewrite bpow_inject by exact Hs. rewrite <- inject_Z_mult, <- Hm', DM1.
      rewrite inject_Z_plus, inject_Z_mult. reflexivity. }
    assert (Es : bpow e1 == bpow s * bpow e2 * bpow e').
    { rewrite <- !bpow_add. unfold s. replace (e1 - e2 - e' + e2 + e')%Z with e1 by lia.
      reflexivity. }
    rewrite Es.
    setoid_replace (inject_Z (Zpos m1) * (bpow s * bpow e2 * bpow e')
                    / (inject_Z (Zpos m2) * bpow e2) / bpow e')
      with (inject_Z (Zpos m1) * bpow s / inject_Z (Zpos m2)) by (field; lra).
    rewrite Em. field. lra.
  - destruct (Z.eq_dec q 0) as [Q0|QN].
    + right. split; [exact Q0|].
      (* the quotient underflows: m1 * 2^s < m2 *)
      subst q. assert (Lt : (Zpos m1 * 2 ^ s < Zpos m2)%Z) by lia.
      destruct (digits2_pos_bounds m1) as [B1 _]. destruct (digits2_pos_bounds m2) as [_ B2].
      fold (Zdigits2 (Zpos m1)) in B1. fold d1 in B1.
      fold (Zdigits2 (Zpos m2)) in B2. fold d2 in B2.
      assert (D1 : (0 < d1)%Z) by (unfold d1; cbn; lia).
      assert (D2 : (0 < d2)%Z) by (unfold d2; cbn; lia).
      assert (Hd : (d1 - 1 + s < d2)%Z).
      { apply (Z.pow_lt_mono_r_iff 2); [lia|lia|].
        rewrite Z.pow_add_r by lia. nia. }
      assert (He : (d1 + e1 - (d2 + e2) <= e')%Z) by (unfold s in Hd; lia).
      assert (Hf : (e' <= fexp prec emax (d1 + e1 - (d2 + e2)))%Z) by (unfold e'; lia).
      rewrite fexp_eq in Hf. lia.
    + left. split; [lia|].
      assert (Q1 : (1 <= q)%Z) by lia.
      destruct (digits2_pos_bounds m1) as [B1 _]. destruct (digits2_pos_bounds m2) as [_ B2].
      fold (Zdigits2 (Zpos m1)) in B1. fold d1 in B1.
      fold (Zdigits2 (Zpos m2)) in B2. fold d2 in B2.
      assert (D1 : (0 < d1)%Z) by (unfold d1; cbn; lia).
      assert (D2 : (0 < d2)%Z) by (unfold d2; cbn; lia).
      pose proof (Zdigits2_pos q ltac:(lia)) as Dq.
      destruct (Zdigits2_bounds q ltac:(lia)) as [_ Uq].
      assert (Hd : (d1 + s - d2 <= Zdigits2 q)%Z).
      { destruct (Z_le_gt_dec (d1 + s - d2) (Zdigits2 q)) as [C|C]; [exact C|exfalso].
        (* q < 2^digits q <= 2^(d1+s-d2-1), so m' < m2 * (q+1) <= 2^d2 * 2^(d1+s-d2-1) *)
        assert (A1 : (2 ^ Zdigits2 q <= 2 ^ (d1 + s - d2 - 1))%Z)
          by (apply Z.pow_le_mono_r; lia).
        assert (A2 : (2 ^ (d1 - 1 + s) = 2 ^ d2 * 2 ^ (d1 + s - d2 - 1))%Z).
        { rewrite <- Z.pow_add_r by lia. f_equal. lia. }
        assert (A3 : (2 ^ (d1 - 1 + s) = 2 ^ (d1 - 1) * 2 ^ s)%Z)
          by (apply Z.pow_add_r; lia).
        assert (A4 : (0 < 2 ^ (d1 + s - d2 - 1))%Z) by (apply Z.pow_pos_nonneg; lia).
        assert (A5 : (m' < Zpos m2 * (q + 1))%Z) by lia.
        assert (A6 : (Zpos m2 * (q + 1) <= 2 ^ d2 * 2 ^ (d1 + s - d2 - 1))%Z) by nia.
        assert (A7 : (2 ^ (d1 - 1) * 2 ^ s <= m')%Z) by (rewrite Hm'; nia).
        lia. }
      apply Z.le_trans with (fexp prec emax (d1 + e1 - (d2 + e2))).
      * unfold e'. lia.
      * apply fexp_mono. unfold s in Hd. lia.
Qed.

(** *** Non-negative doubles and their rounded results *)

Lemma rounded_nonneg (v : Q) (z : spec_float) :
  rounded v z -> nonneg z /\ valid_binary z = true /\ 0 <= v.
Proof.
  intros [[E [s Hz]]|(r & Hr & Hres & Hval)].
  - subst z. repeat split. lra.
  - destruct (rounds_pos v r Hr) as [Pv _].
    split; [|split; [exact Hval|lra]].
    destruct z as [s|s| |s m e]; cbn [round_result nonneg] in *;
      try exact I; try contradiction; destruct Hres as [-> _]; exact I.
Qed.

Lemma finite_value_lt_emax (m : positive) (e : Z) :
  bounded prec emax m e = true -> inject_Z (Zpos m) * bpow e < bpow emax.
Proof.
  intro B. destruct (canonical_digits m e B) as (D & _ & _).
  unfold bounded in B. apply andb_true_iff in B. destruct B as [_ B].
  apply Z.leb_le in B. change (emax - prec)%Z with 971%Z in B.
  destruct (digits2_pos_bounds m) as [_ U].
  assert (U' : (Zpos m < 2 ^ 53)%Z).
  { assert (2 ^ Zpos (digits2_pos m) <= 2 ^ 53)%Z by (apply Z.pow_le_mono_r; lia). lia. }
  rewrite Zlt_Qlt in U'. rewrite <- bpow_inject in U' by lia.
  pose proof (bpow_pos e) as Pe.
  apply Qlt_le_trans with (bpow 53 * bpow e).
  - apply Qmult_lt_compat_r; assumption.
  - rewrite <- bpow_add. apply bpow_le. change emax with 1024%Z. lia.
Qed.

Lemma rounds_fixed (m : positive) (e : Z) :
  bounded prec emax m e = true ->
  rounds (inject_Z (Zpos m) * bpow e) (inject_Z (Zpos m) * bpow e).
Proof.
  intro B. pose proof (bpow_pos e) as Pe.
  assert (C : fexp prec emax (Zpos (digits2_pos m) + e) = e).
  { unfold bounded, canonical_mantissa in B. apply andb_true_iff in B.
    destruct B as [C _]. apply Z.eqb_eq in C. exact C. }
  destruct (digits2_pos_bounds m) as [L U].
  assert (U' : (Zpos m + 1 <= 2 ^ Zpos (digits2_pos m))%Z) by lia.
  rewrite Zle_Qle in L, U'. rewrite inject_Z_plus in U'. change (inject_Z 1) with 1 in U'.
  rewrite <- !bpow_inject in L, U' by lia.
  exists (Zpos (digits2_pos m) + e)%Z. split; [|split; [|split]].
  - apply Qmult_lt_0_compat; [reflexivity|exact Pe].
  - rewrite bpow_add. apply Qmult_lt_compat_r; [exact Pe|lra].
  - left. replace (Zpos (digits2_pos m) + e - 1)%Z with (Zpos (digits2_pos m) - 1 + e)%Z by lia.
    rewrite bpow_add. apply Qmult_le_compat_r; [exact L|lra].
  - rewrite C.
    rewrite (round_half_even_comp (inject_Z (Zpos m) * bpow e / bpow e) (inject_Z (Zpos m))).
    + rewrite round_half_even_Z. reflexivity.
    + field. lra.
Qed.

Lemma rounded_fixed (x : spec_float) :
  valid_binary x = true -> nonneg_finite x -> rounded (SFvalue x) x.
Proof.
  intros V N. destruct x as [s|s| |[|] m e]; cbn [nonneg_finite] in N; try contradiction.
  - left. split; [reflexivity|]. exists s. reflexivity.
  - right. cbn [SFvalue cond_Zopp]. cbn [valid_binary] in V.
    exists (inject_Z (Zpos m) * bpow e). split; [apply rounds_fixed, V|].
    split; [|exact V]. cbn [round_result]. split; reflexivity.
Qed.

(** The order of doubles on non-negative ones, by cases. *)
Lemma SFleb_zero_l (s : bool) (z : spec_float) : nonneg z -> SFleb (S754_zero s) z = true.
Proof.
  destruct z as [s'|[|]| |[|] m e]; cbn [nonneg]; try contradiction; reflexivity.
Qed.

Lemma SFleb_inf_r (z : spec_float) : nonneg z -> SFleb z (S754_infinity false) = true.
Proof.
  destruct z as [s'|[|]| |[|] m e]; cbn [nonneg]; try contradiction; reflexivity.
Qed.

Lemma rounded_le (v v' : Q) (z z' : spec_float) :
  rounded v z -> rounded v' z' -> v <= v' -> SFleb z z' = true.
Proof.
  intros Hz Hz' L.
  destruct (rounded_nonneg v' z' Hz') as (N' & V' & P').
  destruct Hz as [[E [s ->]]|(r & Hr & Hres & Hval)].
  - apply SFleb_zero_l, N'.
  - destruct (rounds_pos v r Hr) as [Pv Pr].
    destruct Hz' as [[E' _]|(r' & Hr' & Hres' & Hval')]; [lra|].
    pose proof (rounds_mono v r v' r' Hr Hr' L) as Lr.
    destruct z as [s|s| |s m e]; cbn [round_result] in Hres; try contradiction;
      destruct Hres as [-> Er].
    + apply SFleb_zero_l, N'.
    + pose proof (bpow_pos emax) as Pmax.
      destruct z' as [s'|s'| |s' m' e']; cbn [round_result] in Hres'; try contradiction;
        destruct Hres' as [-> Er'].
      * lra.
      * reflexivity.
      * cbn [valid_binary] in Hval'. pose proof (finite_value_lt_emax m' e' Hval'). lra.
    + destruct z' as [s'|s'| |s' m' e']; cbn [round_result] in Hres'; try contradiction;
        destruct Hres' as [-> Er'].
      * pose proof (bpow_pos e). assert (0 < inject_Z (Zpos m)) by reflexivity. nra.
      * reflexivity.
      * apply SFleb_value; try assumption; try exact I.
        cbn [SFvalue cond_Zopp]. lra.
Qed.

(** *** The arithmetic of non-negative finite doubles *)

Lemma Zdigits2_mul (a b : positive) :
  (Zpos (digits2_pos a) + Zpos (digits2_pos b) - 1 <= Zpos (digits2_pos (a * b)))%Z.
Proof.
  destruct (digits2_pos_bounds a) as [La _]. destruct (digits2_pos_bounds b) as [Lb _].
  destruct (digits2_pos_bounds (a * b)) as [_ U].
  set (da := Zpos (digits2_pos a)) in *. set (db := Zpos (digits2_pos b)) in *.
  set (dp := Zpos (digits2_pos (a * b))) in *.
  destruct (Z_le_gt_dec (da + db - 1) dp) as [C|C]; [exact C|exfalso].
  assert (A1 : (2 ^ dp <= 2 ^ (da - 1 + (db - 1)))%Z) by (apply Z.pow_le_mono_r; lia).
  rewrite Z.pow_add_r in A1 by lia.
  rewrite Pos2Z.inj_mul in U.
  assert (0 < 2 ^ (da - 1))%Z by (apply Z.pow_pos_nonneg; lia).
  assert (0 < 2 ^ (db - 1))%Z by (apply Z.pow_pos_nonneg; lia).
  nia.
Qed.

Lemma SF64mul_rounded (x y : spec_float) :
  valid_binary x = true -> valid_binary y = true ->
  nonneg_finite x -> nonneg_finite y ->
  rounded (SFvalue x * SFvalue y) (SF64mul x y).
Proof.
  intros Vx Vy Nx Ny.
  destruct x as [sx|sx| |[|] mx ex]; cbn [nonneg_finite] in Nx; try contradiction;
  destruct y as [sy|sy| |[|] my ey]; cbn [nonneg_finite] in Ny; try contradiction;
    cbn [SF64mul SFmul SFvalue cond_Zopp xorb].
  - left. split; [ring|eexists; reflexivity].
  - left. split; [ring|eexists; reflexivity].
  - left. split; [ring|eexists; reflexivity].
  - right. cbn [valid_binary] in Vx, Vy.
    pose proof (bpow_pos ex) as Px. pose proof (bpow_pos ey) as Py.
    assert (Ix : 0 < inject_Z (Zpos mx)) by reflexivity.
    assert (Iy : 0 < inject_Z (Zpos my)) by reflexivity.
    apply binary_round_aux_spec.
    + apply Qmult_lt_0_compat; apply Qmult_lt_0_compat; assumption.
    + split; cbn [shr_record_of_loc shr_m shr_r shr_s]; [lia|].
      rewrite Pos2Z.inj_mul, inject_Z_mult, bpow_add. field. lra.
    + left. split; [lia|].
      destruct (canonical_digits mx ex Vx) as (Dx & Ex & Nx').
      destruct (canonical_digits my ey Vy) as (Dy & Ey & Ny').
      pose proof (Zdigits2_mul mx my) as Dm.
      cbn [Zdigits2]. rewrite fexp_eq.
      assert (0 < Zpos (digits2_pos mx))%Z by lia.
      assert (0 < Zpos (digits2_pos my))%Z by lia.
      destruct (Z_le_gt_dec ex (-1074)) as [Sx|Sx];
        destruct (Z_le_gt_dec ey (-1074)) as [Sy|Sy];
        try specialize (Nx' ltac:(lia)); try specialize (Ny' ltac:(lia)); lia.
Qed.

Lemma SF64div_rounded (x : spec_float) (my : positive) (ey : Z) :
  nonneg_finite x ->
  rounded (SFvalue x / (inject_Z (Zpos my) * bpow ey))
          (SF64div x (S754_finite false my ey)).
Proof.
  intro Nx.
  destruct x as [sx|sx| |[|] mx ex]; cbn [nonneg_finite] in Nx; try contradiction;
    cbn [SF64div SFdiv SFvalue cond_Zopp xorb].
  - left. split; [|eexists; reflexivity].
    unfold Qdiv. ring.
  - right.
    pose proof (SFdiv_core_spec mx my ex ey) as S. cbv zeta in S.
    destruct (SFdiv_core_binary prec emax (Zpos mx) ex (Zpos my) ey) as [[q e'] l].
    destruct S as (Pv & Hloc & Hpre).
    apply binary_round_aux_spec; assumption.
Qed.

(** *** Addition *)

Lemma shl_align_spec (mx : positive) (ex ex' : Z) :
  snd (shl_align mx ex ex') = Z.min ex ex'
  /\ Zpos (fst (shl_align mx ex ex')) = (Zpos mx * 2 ^ (ex - Z.min ex ex'))%Z.
Proof.
  unfold shl_align.
  destruct (ex' - ex)%Z as [|p|p] eqn:D; cbn [fst snd].
  - rewrite Z.min_l by lia. rewrite Z.sub_diag. split; [reflexivity|lia].
  - rewrite Z.min_l by lia. rewrite Z.sub_diag. split; [reflexivity|lia].
  - rewrite Z.min_r by lia. split; [reflexivity|].
    replace (ex - ex')%Z with (Zpos p) by lia.
    change (Pos.iter xO mx p) with (shift_pos p mx).
    rewrite shift_pos_correct. change (Z.pow_pos 2 p) with (2 ^ Zpos p)%Z. ring.
Qed.

Lemma Zdigits2_shift (m : positive) (k : Z) :
  (0 <= k)%Z -> Zdigits2 (Zpos m * 2 ^ k) = (Zpos (digits2_pos m) + k)%Z.
Proof.
  intro Hk. destruct (digits2_pos_bounds m) as [L U].
  assert (P : (0 < 2 ^ k)%Z) by (apply Z.pow_pos_nonneg; lia).
  apply Zdigits2_unique; [|lia].
  replace (Zpos (digits2_pos m) + k - 1)%Z with (Zpos (digits2_pos m) - 1 + k)%Z by lia.
  rewrite !Z.pow_add_r by lia. nia.
Qed.

(** [binary_round] of an exact positive integer mantissa, with either sign. *)
Lemma binary_round_spec (sx : bool) (m : positive) (e : Z) :
  exists r, rounds (inject_Z (Zpos m) * bpow e) r
            /\ round_valid sx r (binary_round prec emax sx m e).
Proof.
  unfold binary_round.
  destruct (shl_align_spec m e (fexp prec emax (Zpos (digits2_pos m) + e))) as [Se Sm].
  destruct (shl_align m e (fexp prec emax (Zpos (digits2_pos m) + e))) as [mz ez].
  cbn [fst snd] in Se, Sm.
  set (E := fexp prec emax (Zpos (digits2_pos m) + e)) in *.
  pose proof (bpow_pos e) as Pe. pose proof (bpow_pos ez) as Pz.
  assert (V : inject_Z (Zpos m) * bpow e == inject_Z (Zpos mz) * bpow ez).
  { rewrite Sm, inject_Z_mult. rewrite <- bpow_inject by lia.
    rewrite <- Qmult_assoc, <- bpow_add. replace (e - Z.min e E + ez)%Z with e by lia.
    reflexivity. }
  apply binary_round_aux_spec.
  - apply Qmult_lt_0_compat; [reflexivity|exact Pe].
  - split; cbn [shr_record_of_loc shr_m shr_r shr_s]; [lia|].
    rewrite V. field. lra.
  - left. split; [lia|].
    rewrite Sm. rewrite Zdigits2_shift by lia.
    replace (Zpos (digits2_pos m) + (e - Z.min e E) + ez)%Z
      with (Zpos (digits2_pos m) + e)%Z by lia.
    fold E. lia.
Qed.

Lemma SF64add_rounded (x y : spec_float) :
  valid_binary x = true -> valid_binary y = true ->
  nonneg_finite x -> nonneg_finite y ->
  rounded (SFvalue x + SFvalue y) (SF64add x y).
Proof.
  intros Vx Vy Nx Ny.
  destruct x as [sx|sx| |[|] mx ex]; cbn [nonneg_finite] in Nx; try contradiction;
  destruct y as [sy|sy| |[|] my ey]; cbn [nonneg_finite] in Ny; try contradiction;
    cbn [SF64add SFadd SFvalue cond_Zopp].
  - left. split; [ring|]. destruct sx, sy; eexists; reflexivity.
  - eapply (rounded_fixed (S754_finite false my ey)) in Vy; [|exact I].
    cbn [SFvalue cond_Zopp] in Vy.
    destruct Vy as [[E X]|(r & Hr & Hv)].
    + left. split; [rewrite E; ring|exact X].
    + right. exists r. split; [|exact Hv]. eapply rounds_comp; [|exact Hr]. ring.
  - eapply (rounded_fixed (S754_finite false mx ex)) in Vx; [|exact I].
    cbn [SFvalue cond_Zopp] in Vx.
    destruct Vx as [[E X]|(r & Hr & Hv)].
    + left. split; [rewrite E; ring|exact X].
    + right. exists r. split; [|exact Hv]. eapply rounds_comp; [|exact Hr]. ring.
  - right.
    destruct (shl_align_spec mx ex (Z.min ex ey)) as [_ Sx].
    destruct (shl_align_spec my ey (Z.min ex ey)) as [_ Sy].
    set (ez := Z.min ex ey) in *.
    set (ax := fst (shl_align mx ex ez)) in *.
    set (ay := fst (shl_align my ey ez)) in *.
    change (Z.pos ax + Z.pos ay)%Z with (Z.pos (ax + ay)).
    cbn [binary_normalize].
    destruct (binary_round_spec false (ax + ay) ez) as (r & Hr & Hv).
    exists r. split; [|exact Hv].
    eapply rounds_comp; [|exact Hr].
    rewrite Pos2Z.inj_add, inject_Z_plus, Sx, Sy, !inject_Z_mult.
    replace (Z.min ex ez) with ez by (unfold ez; lia).
    replace (Z.min ey ez) with ez by (unfold ez; lia).
    rewrite <- !bpow_inject by (unfold ez; lia).
    rewrite Qmult_plus_distr_l, <- !Qmult_assoc, <- !bpow_add.
    replace (ex - ez + ez)%Z with ex by lia. replace (ey - ez + ez)%Z with ey by lia.
    reflexivity.
Qed.

(** *** The order of non-negative doubles, through a rank in [Q] *)

Lemma nonneg_cases (x : spec_float) :
  nonneg x -> nonneg_finite x \/ x = S754_infinity false.
Proof.
  destruct x as [s|[|]| |[|] m e]; cbn; intro H; try contradiction; auto.
Qed.

Lemma nonneg_finite_nonneg (x : spec_float) : nonneg_finite x -> nonneg x.
Proof.
  destruct x as [s|[|]| |[|] m e]; cbn; intro H; try contradiction; exact I.
Qed.

Lemma rank_finite (x : spec_float) : nonneg_finite x -> rank x = SFvalue x.
Proof.
  destruct x as [s|[|]| |[|] m e]; cbn; intro H; try contradiction; reflexivity.
Qed.

Lemma rank_finite_lt (x : spec_float) :
  valid_binary x = true -> nonneg_finite x -> 0 <= rank x /\ rank x < bpow emax.
Proof.
  intros V N. pose proof (bpow_pos emax) as P.
  destruct x as [s|[|]| |[|] m e]; cbn [nonneg_finite] in N; try contradiction;
    cbn [rank SFvalue cond_Zopp].
  - lra.
  - cbn [valid_binary] in V. pose proof (finite_value_lt_emax m e V).
    pose proof (bpow_pos e). assert (0 < inject_Z (Zpos m)) by reflexivity.
    split; [nra|lra].
Qed.

Lemma SFleb_rank (x y : spec_float) :
  valid_binary x = true -> valid_binary y = true -> nonneg x -> nonneg y ->
  (SFleb x y = true <-> rank x <= rank y).
Proof.
  intros Vx Vy Nx Ny.
  destruct (nonneg_cases x Nx) as [Fx| ->]; destruct (nonneg_cases y Ny) as [Fy| ->].
  - rewrite (rank_finite x Fx), (rank_finite y Fy).
    apply SFleb_value; assumption.
  - destruct (rank_finite_lt x Vx Fx) as [_ L]. cbn [rank].
    split; intro; [lra|apply SFleb_inf_r, Nx].
  - destruct (rank_finite_lt y Vy Fy) as [_ L]. cbn [rank].
    split; intro H; [|lra].
    destruct y as [s|[|]| |[|] m e]; cbn [nonneg_finite] in Fy; try contradiction;
      discriminate H.
  - cbn [rank]. split; intro; [lra|reflexivity].
Qed.

Lemma SFltb_rank (x y : spec_float) :
  valid_binary x = true -> valid_binary y = true -> nonneg x -> nonneg y ->
  (SFltb x y = true <-> rank x < rank y).
Proof.
  intros Vx Vy Nx Ny.
  destruct (nonneg_cases x Nx) as [Fx| ->]; destruct (nonneg_cases y Ny) as [Fy| ->].
  - rewrite (rank_finite x Fx), (rank_finite y Fy).
    apply SFltb_value; assumption.
  - destruct (rank_finite_lt x Vx Fx) as [_ L]. cbn [rank].
    split; intro; [lra|].
    destruct x as [s|[|]| |[|] m e]; cbn [nonneg_finite] in Fx; try contradiction;
      reflexivity.
  - destruct (rank_finite_lt y Vy Fy) as [_ L]. cbn [rank].
    split; intro H; [|lra].
    destruct y as [s|[|]| |[|] m e]; cbn [nonneg_finite] in Fy; try contradiction;
      discriminate H.
  - cbn [rank]. split; intro H; [discriminate H|lra].
Qed.

(** What lies above a non-negative double is non-negative. *)
Lemma nonneg_upward (x y : spec_float) :
  nonneg x -> SFleb x y = true -> nonneg y.
Proof.
  destruct x as [s|[|]| |[|] m e]; cbn [nonneg]; intro Nx; try contradiction;
    destruct y as [s'|[|]| |[|] m' e']; cbn; intro H; try exact I; discriminate H.
Qed.

Lemma finite_downward (x y : spec_float) :
  valid_binary x = true -> valid_binary y = true ->
  nonneg x -> nonneg_finite y -> SFleb x y = true -> nonneg_finite x.
Proof.
  intros Vx Vy Nx Fy H.
  destruct (nonneg_cases x Nx) as [Fx| ->]; [exact Fx|].
  destruct y as [s|[|]| |[|] m e]; cbn [nonneg_finite] in Fy; try contradiction;
    discriminate H.
Qed.

(** *** Monotone operations on non-negative doubles *)

Lemma fle_leb (x y : PrimFloat.float) : fle x y <-> PrimFloat.leb x y = true.
Proof. unfold fle. rewrite leb_spec. reflexivity. Qed.

Lemma fnonneg_leb (x : PrimFloat.float) :
  fnonneg x <-> PrimFloat.leb PrimFloat.zero x = true.
Proof.
  unfold fnonneg. rewrite leb_spec.
  change (Prim2SF PrimFloat.zero) with (S754_zero false).
  destruct (Prim2SF x) as [s|[|]| |[|] m e]; cbn; split; intro H;
    try exact I; try reflexivity; try contradiction; discriminate H.
Qed.

Lemma ffinite_fnonneg (x : PrimFloat.float) : ffinite x -> fnonneg x.
Proof. apply nonneg_finite_nonneg. Qed.

Lemma fpositive_ffinite (x : PrimFloat.float) : fpositive x -> ffinite x.
Proof. intros (m & e & E). unfold ffinite. rewrite E. exact I. Qed.

Lemma fle_nonneg (x y : PrimFloat.float) : fnonneg x -> fle x y -> fnonneg y.
Proof. apply nonneg_upward. Qed.

Lemma fle_finite (x y : PrimFloat.float) :
  fnonneg x -> fle x y -> ffinite y -> ffinite x.
Proof.
  intros Nx L Fy. eapply finite_downward; eauto using Prim2SF_valid.
Qed.

Lemma fle_value (x y : PrimFloat.float) :
  ffinite x -> ffinite y ->
  (fle x y <-> SFvalue (Prim2SF x) <= SFvalue (Prim2SF y)).
Proof.
  intros Fx Fy. apply SFleb_value; auto using Prim2SF_valid.
Qed.

Lemma fle_refl (x : PrimFloat.float) : fnonneg x -> fle x x.
Proof.
  intro N. unfold fle. apply SFleb_rank; auto using Prim2SF_valid. apply Qle_refl.
Qed.

Lemma fle_trans (x y z : PrimFloat.float) :
  fnonneg x -> fle x y -> fle y z -> fle x z.
Proof.
  intros Nx L1 L2.
  pose proof (fle_nonneg x y Nx L1) as Ny. pose proof (fle_nonneg y z Ny L2) as Nz.
  unfold fle in *.
  rewrite SFleb_rank in * by auto using Prim2SF_valid. lra.
Qed.

Lemma fdiv_mono (x x' c : PrimFloat.float) :
  fpositive c -> fnonneg x -> fle x x' ->
  fnonneg (PrimFloat.div x c) /\ fle (PrimFloat.div x c) (PrimFloat.div x' c).
Proof.
  intros (mc & ec & Ec) Nx L.
  pose proof (fle_nonneg x x' Nx L) as Nx'.
  unfold fnonneg, fle in *. rewrite !div_spec, Ec.
  assert (Pc : 0 < inject_Z (Zpos mc) * bpow ec).
  { apply Qmult_lt_0_compat; [reflexivity|apply bpow_pos]. }
  assert (Nq : nonneg (SF64div (Prim2SF x) (S754_finite false mc ec))).
  { destruct (nonneg_cases _ Nx) as [F|E].
    - apply (rounded_nonneg _ _ (SF64div_rounded _ mc ec F)).
    - rewrite E. exact I. }
  split; [exact Nq|].
  destruct (nonneg_cases _ Nx') as [F'|E'].
  - assert (F : nonneg_finite (Prim2SF x)).
    { eapply finite_downward; eauto using Prim2SF_valid. }
    eapply rounded_le; [apply SF64div_rounded, F|apply SF64div_rounded, F'|].
    apply Qmult_le_compat_r.
    + apply SFleb_value; auto using Prim2SF_valid.
    + apply Qlt_le_weak, Qinv_lt_0_compat, Pc.
  - rewrite E'. apply SFleb_inf_r, Nq.
Qed.

Lemma fmul_mono (x x' c : PrimFloat.float) :
  ffinite c -> ffinite x' -> fnonneg x -> fle x x' ->
  fnonneg (PrimFloat.mul x c) /\ fle (PrimFloat.mul x c) (PrimFloat.mul x' c).
Proof.
  intros Fc F' Nx L.
  pose proof (fle_finite x x' Nx L F') as F.
  unfold fnonneg, fle, ffinite in *. rewrite !mul_spec.
  pose proof (SF64mul_rounded _ _ (Prim2SF_valid x) (Prim2SF_valid c) F Fc) as R.
  pose proof (SF64mul_rounded _ _ (Prim2SF_valid x') (Prim2SF_valid c) F' Fc) as R'.
  split; [apply (rounded_nonneg _ _ R)|].
  eapply rounded_le; [exact R|exact R'|].
  apply Qmult_le_compat_r.
  - apply SFleb_value; auto using Prim2SF_valid.
  - apply SFvalue_nonneg, Fc.
Qed.

Lemma fadd_mono (a a' b b' : PrimFloat.float) :
  ffinite a' -> ffinite b' -> fnonneg a -> fnonneg b -> fle a a' -> fle b b' ->
  fnonneg (PrimFloat.add a b) /\ fle (PrimFloat.add a b) (PrimFloat.add a' b').
Proof.
  intros Fa' Fb' Na Nb La Lb.
  pose proof (fle_finite a a' Na La Fa') as Fa.
  pose proof (fle_finite b b' Nb Lb Fb') as Fb.
  unfold fnonneg, fle, ffinite in *. rewrite !add_spec.
  pose proof (SF64add_rounded _ _ (Prim2SF_valid a) (Prim2SF_valid b) Fa Fb) as R.
  pose proof (SF64add_rounded _ _ (Prim2SF_valid a') (Prim2SF_valid b') Fa' Fb') as R'.
  split; [apply (rounded_nonneg _ _ R)|].
  eapply rounded_le; [exact R|exact R'|].
  assert (SFvalue (Prim2SF a) <= SFvalue (Prim2SF a'))
    by (apply SFleb_value; auto using Prim2SF_valid).
  assert (SFvalue (Prim2SF b) <= SFvalue (Prim2SF b'))
    by (apply SFleb_value; auto using Prim2SF_valid).
  lra.
Qed.

Lemma fpy_min_mono (q q' o : PrimFloat.float) :
  ffinite o -> fnonneg q -> fle q q' ->
  fnonneg (py_min q o) /\ fle (py_min q o) (py_min q' o) /\ fle (py_min q' o) o.
Proof.
  intros Fo Nq L.
  pose proof (fle_nonneg q q' Nq L) as Nq'.
  pose proof (ffinite_fnonneg o Fo) as No.
  unfold py_min. cbn [ltb Num_float]. rewrite !ltb_spec.
  unfold fnonneg, fle in *.
  pose proof (Prim2SF_valid q) as Vq. pose proof (Prim2SF_valid q') as Vq'.
  pose proof (Prim2SF_valid o) as Vo.
  pose proof (SFltb_rank _ _ Vo Vq No Nq) as T.
  pose proof (SFltb_rank _ _ Vo Vq' No Nq') as T'.
  pose proof (proj1 (SFleb_rank _ _ Vq Vq' Nq Nq') L) as Lr.
  destruct (SFltb (Prim2SF o) (Prim2SF q)) eqn:B;
    destruct (SFltb (Prim2SF o) (Prim2SF q')) eqn:B'.
  - repeat split; [exact No| |]; apply SFleb_rank; auto; lra.
  - exfalso. assert (rank (Prim2SF o) < rank (Prim2SF q)) by (apply T; reflexivity).
    assert (~ rank (Prim2SF o) < rank (Prim2SF q')).
    { intro C. apply T' in C. discriminate C. }
    lra.
  - assert (~ rank (Prim2SF o) < rank (Prim2SF q)).
    { intro C. apply T in C. discriminate C. }
    repeat split; [exact Nq| |]; apply SFleb_rank; auto; lra.
  - assert (~ rank (Prim2SF o) < rank (Prim2SF q')).
    { intro C. apply T' in C. discriminate C. }
    repeat split; [exact Nq|exact L|]. apply SFleb_rank; auto; lra.
Qed.

(** *** Reading a decimal, and [round] *)

Lemma is_finite_ffinite (x : PrimFloat.float) :
  ffinite x -> PrimFloat.is_finite x = true.
Proof.
  unfold ffinite, PrimFloat.is_finite, PrimFloat.is_nan, PrimFloat.is_infinity.
  rewrite !eqb_spec, abs_spec.
  change (Prim2SF PrimFloat.infinity) with (S754_infinity false).
  destruct (Prim2SF x) as [s|[|]| |[|] m e]; cbn [nonneg_finite]; intro H;
    try contradiction; try reflexivity.
  unfold SFeqb. cbn [SFabs SFcompare].
  rewrite Z.compare_refl, Pos.compare_cont_refl. reflexivity.
Qed.

Lemma F2Q_value (x : PrimFloat.float) : F2Q x == SFvalue (Prim2SF x).
Proof.
  unfold F2Q. destruct (Prim2SF x) as [s|s| |s m e]; cbn [SFvalue]; try reflexivity.
  destruct e as [|k|k].
  - rewrite Z.pow_0_r, Z.mul_1_r, bpow_0. ring.
  - rewrite inject_Z_mult. rewrite <- bpow_inject by lia. reflexivity.
  - rewrite Qmake_Qdiv. rewrite Pos2Z.inj_pow.
    change (Z.neg k) with (- Z.pos k)%Z. unfold bpow. rewrite Qpower_opp.
    fold (bpow (Z.pos k)). rewrite bpow_inject by lia. reflexivity.
Qed.

Lemma copysign0_zero (x : PrimFloat.float) :
  exists s, Prim2SF (copysign0 x) = S754_zero s.
Proof.
  unfold copysign0. destruct (PrimFloat.get_sign x); eexists; reflexivity.
Qed.

Lemma nearest_rounded (p d : positive) :
  rounded (inject_Z (Zpos p) / inject_Z (Zpos d)) (Prim2SF (nearest (Zpos p) d)).
Proof.
  unfold nearest.
  pose proof (SFdiv_core_spec p d 0 0) as S. cbv zeta in S.
  destruct (SFdiv_core_binary prec emax (Zpos p) 0 (Zpos d) 0) as [[q e] l].
  destruct S as (Pv & Hloc & Hpre).
  destruct (binary_round_aux_spec false q e l _ Pv Hloc Hpre) as (r & Hr & Hres & Hval).
  rewrite (Prim2SF_SF2Prim _ Hval).
  right. exists r. split; [|split; assumption].
  eapply rounds_comp; [|exact Hr]. rewrite bpow_0. field. discriminate.
Qed.

(** [round(x, 2)] of a non-negative finite double is the double nearest to
    the two-decimal number nearest to [x]. *)
Lemma float_round_rounded (x : PrimFloat.float) :
  ffinite x ->
  rounded (inject_Z (round_half_even (SFvalue (Prim2SF x) * 100)) / 100)
          (Prim2SF (float_round x 2)).
Proof.
  intro F. unfold float_round. rewrite (is_finite_ffinite x F).
  cbn [negb]. change (323 <? 2)%nat with false. cbv iota.
  change (10 ^ Z.of_nat 2)%Z with 100%Z. change (inject_Z 100) with 100.
  rewrite (round_half_even_comp (F2Q x * 100) (SFvalue (Prim2SF x) * 100))
    by (rewrite F2Q_value; reflexivity).
  assert (P : (0 <= round_half_even (SFvalue (Prim2SF x) * 100))%Z).
  { apply round_half_even_nonneg. pose proof (SFvalue_nonneg _ F). lra. }
  destruct (round_half_even (SFvalue (Prim2SF x) * 100)) as [|p|p]; [| |lia].
  - left. split; [reflexivity|apply copysign0_zero].
  - change (Z.to_pos 100) with 100%positive. apply nearest_rounded.
Qed.

Lemma float_round_mono (x x' : PrimFloat.float) :
  ffinite x' -> fnonneg x -> fle x x' ->
  fnonneg (float_round x 2) /\ fle (float_round x 2) (float_round x' 2).
Proof.
  intros F' Nx L.
  pose proof (fle_finite x x' Nx L F') as F.
  pose proof (float_round_rounded x F) as R.
  pose proof (float_round_rounded x' F') as R'.
  split; [apply (rounded_nonneg _ _ R)|].
  eapply rounded_le; [exact R|exact R'|].
  apply Qmult_le_compat_r; [|discriminate].
  rewrite <- Zle_Qle. apply round_half_even_mono.
  apply Qmult_le_compat_r; [|discriminate].
  apply fle_value; assumption.
Qed.

(** *** Subtraction *)

Lemma rounded_comp (v v' : Q) (z : spec_float) :
  v == v' -> rounded v z -> rounded v' z.
Proof.
  intros E [[E0 X]|(r & Hr & Hv)].
  - left. split; [rewrite <- E; exact E0|exact X].
  - right. exists r. split; [eapply rounds_comp; eassumption|exact Hv].
Qed.

Lemma rounded_zero (v : Q) (z : spec_float) :
  v == 0 -> rounded v z -> exists s, z = S754_zero s.
Proof.
  intros E [[_ X]|(r & Hr & _)]; [exact X|].
  destruct (rounds_pos v r Hr) as [P _]. lra.
Qed.

(** The two operands of an addition or a subtraction on their common
    exponent. *)
Lemma aligned_value (m : positive) (e ez : Z) :
  (ez <= e)%Z ->
  inject_Z (Zpos (fst (shl_align m e ez))) * bpow ez == inject_Z (Zpos m) * bpow e.
Proof.
  intro L. destruct (shl_align_spec m e ez) as [_ S]. rewrite S.
  rewrite Z.min_r by lia. rewrite inject_Z_mult, <- bpow_inject by lia.
  rewrite <- Qmult_assoc, <- bpow_add. replace (e - ez + ez)%Z with e by lia.
  reflexivity.
Qed.

(** [x - y] for [0 <= y <= x]: the rounded difference. *)
Lemma SF64sub_rounded (x y : spec_float) :
  valid_binary x = true -> valid_binary y = true ->
  nonneg_finite x -> nonneg_finite y -> SFvalue y <= SFvalue x ->
  rounded (SFvalue x - SFvalue y) (SF64sub x y).
Proof.
  intros Vx Vy Nx Ny L.
  destruct x as [sx|sx| |[|] mx ex]; cbn [nonneg_finite] in Nx; try contradiction;
  destruct y as [sy|sy| |[|] my ey]; cbn [nonneg_finite] in Ny; try contradiction;
    cbn [SF64sub SFsub SFvalue cond_Zopp] in *.
  - left. split; [ring|]. destruct sx, sy; eexists; reflexivity.
  - exfalso. pose proof (bpow_pos ey). assert (0 < inject_Z (Zpos my)) by reflexivity. nra.
  - eapply rounded_comp; [|apply (rounded_fixed (S754_finite false mx ex) Vx I)].
    cbn [SFvalue cond_Zopp]. ring.
  - pose proof (aligned_value mx ex (Z.min ex ey) ltac:(lia)) as Ax.
    pose proof (aligned_value my ey (Z.min ex ey) ltac:(lia)) as Ay.
    set (ez := Z.min ex ey) in *.
    set (ax := fst (shl_align mx ex ez)) in *.
    set (ay := fst (shl_align my ey ez)) in *.
    pose proof (bpow_pos ez) as Pz.
    assert (D : inject_Z (Zpos ax - Zpos ay) * bpow ez
                == inject_Z (Zpos mx) * bpow ex - inject_Z (Zpos my) * bpow ey).
    { rewrite <- Ax, <- Ay. unfold Z.sub. rewrite inject_Z_plus, inject_Z_opp. ring. }
    destruct (Zpos ax - Zpos ay)%Z as [|p|p] eqn:Ed; cbn [binary_normalize].
    + left. split; [|eexists; reflexivity]. rewrite <- D. ring.
    + right. destruct (binary_round_spec false p ez) as (r & Hr & Hv).
      exists r. split; [|exact Hv]. eapply rounds_comp; [exact D|exact Hr].
    + exfalso. assert (inject_Z (Z.neg p) < 0) by reflexivity. nra.
Qed.

(** [x - y] for non-negative operands is never [nan]: it is non-negative or
    below zero. *)
Lemma SF64sub_sign (x y : spec_float) :
  nonneg_finite x -> nonneg y ->
  nonneg (SF64sub x y) \/ SFltb (SF64sub x y) (S754_zero false) = true.
Proof.
  intros Nx Ny.
  destruct x as [sx|sx| |[|] mx ex]; cbn [nonneg_finite] in Nx; try contradiction;
  destruct y as [sy|[|]| |[|] my ey]; cbn [nonneg] in Ny; try contradiction;
    cbn [SF64sub SFsub cond_Zopp negb].
  - left. destruct sx, sy; exact I.
  - right. reflexivity.
  - right. reflexivity.
  - left. exact I.
  - right. reflexivity.
  - set (ez := Z.min ex ey).
    destruct (Zpos (fst (shl_align mx ex ez)) - Zpos (fst (shl_align my ey ez)))%Z
      as [|p|p]; cbn [binary_normalize].
    + left. exact I.
    + left. destruct (binary_round_spec false p ez) as (r & Hr & Hv).
      apply (rounded_nonneg (inject_Z (Zpos p) * bpow ez)). right. exists r. split; assumption.
    + destruct (binary_round_spec true p ez) as (r & Hr & Hres & Hval).
      destruct (binary_round prec emax true p ez) as [s|s| |s m e];
        cbn [round_result] in Hres; try contradiction; destruct Hres as [-> _].
      * left. exact I.
      * right. reflexivity.
      * right. reflexivity.
Qed.

End Rounding.

(** ** Doubles: tests, constants and floor division *)

Section Doubles.
Import SpecFloat FloatOps FloatAxioms.
Local Open Scope Q_scope.

(** *** Doubles: signs, tests and subtraction *)

Lemma fsub_le (x y : PrimFloat.float) :
  ffinite x -> fnonneg y -> fle y x ->
  fnonneg (PrimFloat.sub x y) /\ fle (PrimFloat.sub x y) x.
Proof.
  intros Fx Ny L.
  pose proof (fle_finite y x Ny L Fx) as Fy.
  pose proof (proj1 (fle_value y x Fy Fx) L) as Lv.
  pose proof (SFvalue_nonneg _ Fy) as Py.
  unfold fnonneg, fle, ffinite in *. rewrite sub_spec.
  pose proof (SF64sub_rounded _ _ (Prim2SF_valid x) (Prim2SF_valid y) Fx Fy Lv) as R.
  split; [apply (rounded_nonneg _ _ R)|].
  eapply rounded_le; [exact R|apply rounded_fixed; auto using Prim2SF_valid|]. lra.
Qed.

Lemma fsub_sign (x y : PrimFloat.float) :
  ffinite x -> fnonneg y ->
  fnonneg (PrimFloat.sub x y) \/ PrimFloat.ltb (PrimFloat.sub x y) PrimFloat.zero = true.
Proof.
  intros Fx Ny. unfold fnonneg. rewrite ltb_spec, sub_spec.
  apply SF64sub_sign; assumption.
Qed.

Lemma fsub_same_value (x y : PrimFloat.float) :
  ffinite x -> ffinite y -> SFvalue (Prim2SF x) == SFvalue (Prim2SF y) ->
  exists s, Prim2SF (PrimFloat.sub x y) = S754_zero s.
Proof.
  intros Fx Fy E. rewrite sub_spec.
  apply (rounded_zero (SFvalue (Prim2SF x) - SFvalue (Prim2SF y))); [lra|].
  apply SF64sub_rounded; auto using Prim2SF_valid. lra.
Qed.

Lemma fadd_nonneg (a b : PrimFloat.float) :
  fnonneg a -> fnonneg b -> fnonneg (PrimFloat.add a b).
Proof.
  intros Na Nb. unfold fnonneg in *. rewrite add_spec.
  destruct (nonneg_cases _ Na) as [Fa|Ea]; destruct (nonneg_cases _ Nb) as [Fb|Eb].
  - apply (rounded_nonneg _ _
             (SF64add_rounded _ _ (Prim2SF_valid a) (Prim2SF_valid b) Fa Fb)).
  - rewrite Eb. destruct (Prim2SF a) as [s|[|]| |[|] m e]; cbn in Fa |- *;
      try contradiction; exact I.
  - rewrite Ea. destruct (Prim2SF b) as [s|[|]| |[|] m e]; cbn in Fb |- *;
      try contradiction; exact I.
  - rewrite Ea, Eb. exact I.
Qed.

(** A product of finite non-negative doubles is non-negative, and at most
    the first factor when the second is at most 1. *)
Lemma fmul_nonneg (x c : PrimFloat.float) :
  ffinite x -> ffinite c -> fnonneg (PrimFloat.mul x c).
Proof.
  intros Fx Fc.
  apply (fmul_mono x x c Fc Fx (ffinite_fnonneg x Fx) (fle_refl x (ffinite_fnonneg x Fx))).
Qed.

Lemma fmul_le (x c : PrimFloat.float) :
  ffinite x -> ffinite c -> SFvalue (Prim2SF c) <= 1 -> fle (PrimFloat.mul x c) x.
Proof.
  intros Fx Fc L1. unfold fle, ffinite in *. rewrite mul_spec.
  pose proof (SFvalue_nonneg _ Fx) as Px. pose proof (SFvalue_nonneg _ Fc) as Pc.
  eapply rounded_le;
    [apply SF64mul_rounded; auto using Prim2SF_valid
    |apply rounded_fixed; auto using Prim2SF_valid|]. nra.
Qed.

Lemma ffinite_tests (x : PrimFloat.float) :
  ffinite x -> PrimFloat.is_nan x = false /\ PrimFloat.is_infinity x = false.
Proof.
  intro F. pose proof (is_finite_ffinite x F) as H.
  unfold PrimFloat.is_finite in H. apply negb_true_iff, orb_false_iff in H. exact H.
Qed.

Lemma is_zero_spec (x : PrimFloat.float) :
  PrimFloat.is_zero x = true <-> exists s, Prim2SF x = S754_zero s.
Proof.
  unfold PrimFloat.is_zero. rewrite eqb_spec.
  change (Prim2SF PrimFloat.zero) with (S754_zero false).
  destruct (Prim2SF x) as [s|[|]| |[|] m e]; cbn; split; intro H;
    try reflexivity; try discriminate H; try (exists s; reflexivity);
    destruct H as [s' H']; discriminate H'.
Qed.

Lemma fzero_fnonneg (x : PrimFloat.float) (s : bool) :
  Prim2SF x = S754_zero s -> ffinite x.
Proof. intro E. unfold ffinite. rewrite E. exact I. Qed.

Lemma copysign0_ffinite (x : PrimFloat.float) : ffinite (copysign0 x).
Proof. destruct (copysign0_zero x) as [s E]. exact (fzero_fnonneg _ s E). Qed.

Lemma fnonneg_ltb_zero (x : PrimFloat.float) :
  fnonneg x -> PrimFloat.ltb x PrimFloat.zero = false.
Proof.
  unfold fnonneg. rewrite ltb_spec.
  change (Prim2SF PrimFloat.zero) with (S754_zero false).
  destruct (Prim2SF x) as [s|[|]| |[|] m e]; cbn; intro H;
    try contradiction; reflexivity.
Qed.

Lemma fzero_le (z x : PrimFloat.float) (s : bool) :
  Prim2SF z = S754_zero s -> fnonneg x -> fle z x.
Proof. intros E N. unfold fle. rewrite E. apply SFleb_zero_l, N. Qed.

(** Finite and non-negative, by the tests of the machine. *)
Lemma finite64_ffinite (x : PrimFloat.float) :
  finite64 x <-> ffinite x.
Proof.
  unfold finite64, nonneg64, ffinite. rewrite leb_spec, ltb_spec.
  change (Prim2SF PrimFloat.zero) with (S754_zero false).
  change (Prim2SF PrimFloat.infinity) with (S754_infinity false).
  destruct (Prim2SF x) as [s|[|]| |[|] m e]; cbn; split; intro H;
    try exact I; try contradiction; try (split; reflexivity);
    destruct H as [H1 H2]; discriminate.
Qed.

Lemma nonneg64_fnonneg (x : PrimFloat.float) : nonneg64 x <-> fnonneg x.
Proof. unfold nonneg64. symmetry. apply fnonneg_leb. Qed.

(** [clip(lower=0)] of a difference of non-negative doubles. *)
Lemma fclip_lower_nonneg (z : PrimFloat.float) :
  fnonneg z \/ PrimFloat.ltb z PrimFloat.zero = true ->
  fnonneg (clip_lower (lit 0) z).
Proof.
  intro H. unfold clip_lower. cbn [ltb Num_float].
  change (lit 0) with PrimFloat.zero.
  destruct (PrimFloat.ltb z PrimFloat.zero) eqn:B.
  - exact I.
  - destruct H as [N|C]; [exact N|discriminate C].
Qed.

Lemma fclip_upper_nonneg (u x : PrimFloat.float) :
  fnonneg u -> fnonneg x -> fnonneg (clip_upper u x).
Proof.
  intros Nu Nx. unfold clip_upper. destruct (u <? x)%num; assumption.
Qed.

(** *** Constants of the source *)

Lemma lit30_positive : fpositive (lit 30).
Proof. closed_float. Qed.

Lemma lit50_positive : fpositive (lit 50).
Proof. closed_float. Qed.

Lemma lit10_positive : fpositive (lit 10).
Proof. closed_float. Qed.

Lemma lit100_positive : fpositive (lit 100).
Proof. closed_float. Qed.

Lemma half_positive : fpositive (Q2F 0.5).
Proof. closed_float. Qed.

Lemma one_finite : ffinite PrimFloat.one.
Proof. closed_float. Qed.

Lemma lit1_one : lit 1 = PrimFloat.one.
Proof. closed_float. Qed.

Lemma lit0_zero : lit 0 = PrimFloat.zero.
Proof. closed_float. Qed.

Lemma lit99_finite : ffinite (lit 99).
Proof. closed_float. Qed.

Lemma lit1000_finite : ffinite (lit 1000).
Proof. closed_float. Qed.

Lemma lit99_value : SFvalue (Prim2SF (lit 99)) == 99.
Proof. closed_float. Qed.

Lemma lit100_value : SFvalue (Prim2SF (lit 100)) == 100.
Proof. closed_float. Qed.

Lemma one_value : SFvalue (Prim2SF PrimFloat.one) == 1.
Proof. closed_float. Qed.

Lemma div_1000_10 : PrimFloat.div (lit 1000) (lit 10) = lit 100.
Proof. closed_float. Qed.

Lemma div_100_100 : PrimFloat.div (lit 100) (lit 100) = PrimFloat.one.
Proof. closed_float. Qed.

Lemma add_99_1 : PrimFloat.add (lit 99) PrimFloat.one = lit 100.
Proof. closed_float. Qed.

Lemma lit0005_finite : ffinite (lit 0.005) /\ SFvalue (Prim2SF (lit 0.005)) <= 1.
Proof. split; [closed_float|vm_compute; discriminate]. Qed.

Lemma lit0003_finite : ffinite (lit 0.003) /\ SFvalue (Prim2SF (lit 0.003)) <= 1.
Proof. split; [closed_float|vm_compute; discriminate]. Qed.

(** *** Floor division by a positive double *)

Lemma fpositive_tests (c : PrimFloat.float) :
  fpositive c ->
  PrimFloat.is_zero c = false /\ PrimFloat.is_nan c = false
  /\ PrimFloat.is_infinity c = false /\ PrimFloat.ltb c PrimFloat.zero = false
  /\ 0 < SFvalue (Prim2SF c).
Proof.
  intro P. destruct (ffinite_tests c (fpositive_ffinite c P)) as [Hn Hi].
  destruct P as (m & e & E).
  split; [|split; [exact Hn|split; [exact Hi|split]]].
  - unfold PrimFloat.is_zero. rewrite eqb_spec, E. reflexivity.
  - rewrite ltb_spec, E. reflexivity.
  - rewrite E. cbn [SFvalue cond_Zopp].
    apply Qmult_lt_0_compat; [reflexivity|apply bpow_pos].
Qed.

(** The truncated quotient of two non-negative rationals is the floor of
    their quotient. *)
Lemma Qquot_floor (qx qy : Q) :
  0 <= qx -> 0 < qy ->
  let t := Z.quot (Qnum qx * Zpos (Qden qy)) (Zpos (Qden qx) * Qnum qy) in
  0 <= inject_Z t /\ inject_Z t * qy <= qx.
Proof.
  destruct qx as [a b], qy as [c d]. intros Ha Hc t.
  unfold Qle, Qlt in *. cbn [Qnum Qden] in *.
  rewrite !Z.mul_1_r, !Z.mul_0_l in *.
  assert (Hn : (0 <= a * Zpos d)%Z) by nia.
  assert (Hd : (0 < Zpos b * c)%Z) by nia.
  assert (Et : t = (a * Zpos d / (Zpos b * c))%Z)
    by (apply Z.quot_div_nonneg; assumption).
  pose proof (Z.div_pos _ _ Hn Hd) as Pt.
  pose proof (Z.mul_div_le (a * Zpos d) (Zpos b * c) Hd) as Lt.
  rewrite <- Et in Pt, Lt.
  split; [cbn; lia|].
  cbn [inject_Z Qmult Qnum Qden]. rewrite Pos2Z.inj_mul. nia.
Qed.

(** C's [fmod] of a non-negative double by a positive one returns a
    non-negative double that is at most the dividend. *)
Lemma fmod_rounded (v c : PrimFloat.float) :
  ffinite v -> fpositive c ->
  exists r, 0 <= r /\ r <= SFvalue (Prim2SF v) /\ rounded r (Prim2SF (fmod v c)).
Proof.
  intros Fv Pc.
  destruct (ffinite_tests v Fv) as [Hn Hi].
  destruct (fpositive_tests c Pc) as (Cz & Cn & Ci & _ & Cv).
  pose proof (SFvalue_nonneg _ Fv) as Pv.
  unfold fmod. rewrite Hn, Hi, Cz, Cn, Ci. cbn [orb].
  pose proof (F2Q_value v) as Ev. pose proof (F2Q_value c) as Ec.
  set (qx := F2Q v) in *. set (qy := F2Q c) in *.
  destruct (Qquot_floor qx qy ltac:(lra) ltac:(lra)) as [Pt Lt].
  set (t := Z.quot (Qnum qx * Zpos (Qden qy)) (Zpos (Qden qx) * Qnum qy)) in *.
  pose proof (Qred_correct (qx - inject_Z t * qy)) as Er.
  set (r := Qred (qx - inject_Z t * qy)) in *.
  exists r. split; [lra|]. split; [nra|].
  destruct r as [n d]. cbn [Qnum Qden]. destruct n as [|p|p].
  - left. split; [reflexivity|apply copysign0_zero].
  - unfold Q2F. cbn [Qnum Qden].
    eapply rounded_comp; [|apply nearest_rounded]. rewrite (Qmake_Qdiv (Zpos p) d). reflexivity.
  - exfalso. assert (Zneg p # d < 0) by reflexivity. lra.
Qed.

Lemma fmod_le (v c : PrimFloat.float) :
  ffinite v -> fpositive c -> fnonneg (fmod v c) /\ fle (fmod v c) v.
Proof.
  intros Fv Pc. destruct (fmod_rounded v c Fv Pc) as (r & P & L & R).
  split; [apply (rounded_nonneg _ _ R)|].
  eapply rounded_le; [exact R|apply rounded_fixed; auto using Prim2SF_valid|exact L].
Qed.

(** C's [floor] on a finite non-negative double. *)
Lemma floor_rounded (x : PrimFloat.float) :
  ffinite x ->
  rounded (inject_Z (Qfloor (SFvalue (Prim2SF x)))) (Prim2SF (floor x)).
Proof.
  intro F. unfold floor. rewrite (is_finite_ffinite x F). cbn [andb].
  pose proof (SFvalue_nonneg _ F) as Pv.
  destruct (PrimFloat.is_zero x) eqn:Z; cbn [negb].
  - apply is_zero_spec in Z. destruct Z as [s E]. rewrite E. cbn [SFvalue].
    left. split; [reflexivity|]. exists s. reflexivity.
  - rewrite (Qfloor_comp _ _ (F2Q_value x)).
    assert (Pz : (0 <= Qfloor (SFvalue (Prim2SF x)))%Z).
    { change 0%Z with (Qfloor 0). apply Qfloor_resp_le, Pv. }
    destruct (Qfloor (SFvalue (Prim2SF x))) as [|p|p]; [| |lia].
    + left. split; [reflexivity|apply copysign0_zero].
    + eapply rounded_comp; [|apply nearest_rounded].
      change (inject_Z 1) with 1. field.
Qed.

Lemma floor_le (x : PrimFloat.float) :
  ffinite x -> ffinite (floor x) /\ fle (floor x) x.
Proof.
  intro F. pose proof (floor_rounded x F) as R.
  assert (L : fle (floor x) x).
  { eapply rounded_le; [exact R|apply rounded_fixed; auto using Prim2SF_valid|].
    apply Qfloor_le. }
  split; [|exact L].
  eapply fle_finite; [apply (rounded_nonneg _ _ R)|exact L|exact F].
Qed.

Lemma floor_nonneg (x : PrimFloat.float) : fnonneg x -> fnonneg (floor x).
Proof.
  intro N. destruct (nonneg_cases _ N) as [F|E].
  - apply ffinite_fnonneg, floor_le, F.
  - change (S754_infinity false) with (Prim2SF PrimFloat.infinity) in E.
    apply Prim2SF_inj in E. subst x. exact I.
Qed.

(** CPython's floor division of a finite non-negative double [v] by a
    positive double [c]: with [d = (v - fmod(v, c)) / c], the result is a
    zero, or [floor(d)], or [floor(d) + 1] when [d - floor(d) > 0.5]. *)
Lemma floor_div_cases (v c : PrimFloat.float) :
  ffinite v -> fpositive c ->
  exists d,
    fnonneg d /\ fle d (PrimFloat.div v c)
    /\ ((exists s, Prim2SF (float_floor_div v c) = S754_zero s)
        \/ float_floor_div v c = floor d
        \/ (float_floor_div v c = PrimFloat.add (floor d) PrimFloat.one
            /\ PrimFloat.ltb (Q2F 0.5) (PrimFloat.sub d (floor d)) = true)).
Proof.
  intros Fv Pc.
  destruct (fpositive_tests c Pc) as (Cz & _ & _ & Cl & _).
  destruct (fmod_le v c Fv Pc) as [Nm Lm].
  unfold float_floor_div. rewrite Cz. cbv zeta.
  set (m := fmod v c) in *.
  destruct (fsub_le v m Fv Nm Lm) as [Ns Ls].
  destruct (fdiv_mono (PrimFloat.sub v m) v c Pc Ns Ls) as [Nd Ld].
  set (d := PrimFloat.div (PrimFloat.sub v m) c) in *.
  rewrite Cl, (fnonneg_ltb_zero m Nm). cbn [Bool.eqb].
  assert (E : (if PrimFloat.is_zero m then d else d) = d)
    by (destruct (PrimFloat.is_zero m); reflexivity).
  rewrite E.
  exists d. split; [exact Nd|]. split; [exact Ld|].
  destruct (PrimFloat.is_zero d).
  - left. apply copysign0_zero.
  - right. destruct (PrimFloat.ltb (Q2F 0.5) (PrimFloat.sub d (floor d))).
    + right. split; reflexivity.
    + left. reflexivity.
Qed.

Lemma floor_div_nonneg (v c : PrimFloat.float) :
  ffinite v -> fpositive c -> fnonneg (float_floor_div v c).
Proof.
  intros Fv Pc.
  destruct (floor_div_cases v c Fv Pc) as (d & Nd & _ & [[s E]|[E|[E _]]]).
  - apply ffinite_fnonneg. exact (fzero_fnonneg _ s E).
  - rewrite E. apply floor_nonneg, Nd.
  - rewrite E. apply fadd_nonneg; [apply floor_nonneg, Nd|].
    apply ffinite_fnonneg, one_finite.
Qed.

(** Up to an investment of 1000 the floor division by 10 gives at most 100. *)
Lemma floor_div_10_le (v : PrimFloat.float) :
  ffinite v -> fle v (lit 1000) -> fle (float_floor_div v (lit 10)) (lit 100).
Proof.
  intros Fv Lv.
  pose proof (fpositive_ffinite _ lit100_positive) as F100.
  pose proof (ffinite_fnonneg _ F100) as N100.
  destruct (floor_div_cases v (lit 10) Fv lit10_positive)
    as (d & Nd & Ld & [[s E]|[E|[E Hhalf]]]).
  - exact (fzero_le _ _ s E N100).
  - assert (Ld' : fle d (lit 100)).
    { eapply fle_trans; [exact Nd|exact Ld|]. rewrite <- div_1000_10.
      apply (fdiv_mono v (lit 1000) (lit 10) lit10_positive (ffinite_fnonneg v Fv) Lv). }
    pose proof (fle_finite d _ Nd Ld' F100) as Fd.
    destruct (floor_le d Fd) as [Ff Lf].
    rewrite E. eapply fle_trans; [apply ffinite_fnonneg, Ff|exact Lf|exact Ld'].
  - assert (Ld' : fle d (lit 100)).
    { eapply fle_trans; [exact Nd|exact Ld|]. rewrite <- div_1000_10.
      apply (fdiv_mono v (lit 1000) (lit 10) lit10_positive (ffinite_fnonneg v Fv) Lv). }
    pose proof (fle_finite d _ Nd Ld' F100) as Fd.
    destruct (floor_le d Fd) as [Ff Lf].
    pose proof (floor_rounded d Fd) as R.
    pose proof (proj1 (fle_value d (lit 100) Fd F100) Ld') as Vd.
    rewrite lit100_value in Vd.
    pose proof (Qfloor_le (SFvalue (Prim2SF d))) as Hfl.
    set (z := Qfloor (SFvalue (Prim2SF d))) in *.
    rewrite E.
    destruct (Z_le_gt_dec z 99) as [Hz|Hz].
    + assert (L99 : fle (floor d) (lit 99)).
      { eapply rounded_le;
          [exact R|apply rounded_fixed; [apply Prim2SF_valid|exact lit99_finite]|].
        rewrite lit99_value. change 99 with (inject_Z 99). rewrite <- Zle_Qle. exact Hz. }
      rewrite <- add_99_1.
      apply (fadd_mono (floor d) (lit 99) PrimFloat.one PrimFloat.one
               lit99_finite one_finite (ffinite_fnonneg _ Ff)
               (ffinite_fnonneg _ one_finite) L99
               (fle_refl _ (ffinite_fnonneg _ one_finite))).
    + exfalso.
      assert (Hz' : inject_Z 100 <= inject_Z z) by (rewrite <- Zle_Qle; lia).
      change (inject_Z 100) with 100 in Hz'.
      assert (Ez : z = 100%Z).
      { assert (inject_Z z <= inject_Z 100) by (change (inject_Z 100) with 100; lra).
        rewrite <- Zle_Qle in *. lia. }
      assert (Ed : SFvalue (Prim2SF d) == 100) by lra.
      assert (Ef : SFvalue (Prim2SF (floor d)) == 100).
      { pose proof (rounded_comp _ 100 _ lit100_value
                      (rounded_fixed _ (Prim2SF_valid (lit 100)) F100)) as R100.
        rewrite Ez in R.
        change (inject_Z 100) with 100 in R.
        assert (L1 : fle (floor d) (lit 100))
          by (eapply rounded_le; [exact R|exact R100|apply Qle_refl]).
        assert (L2 : fle (lit 100) (floor d))
          by (eapply rounded_le; [exact R100|exact R|apply Qle_refl]).
        apply (fle_value _ _ Ff F100) in L1. apply (fle_value _ _ F100 Ff) in L2.
        rewrite lit100_value in L1, L2. lra. }
      destruct (fsub_same_value d (floor d) Fd Ff ltac:(lra)) as [s Es].
      rewrite ltb_spec, Es in Hhalf.
      destruct half_positive as (mh & eh & Eh). rewrite Eh in Hhalf.
      discriminate Hhalf.
Qed.

(** On whole numbers up to 1000 (the sliders of the application return whole
    numbers up to 100) the floor division of doubles agrees with the floor
    division of integers: the table is computed. *)
Lemma floor_div_whole_table :
  forallb (fun k : nat =>
             PrimFloat.Leibniz.eqb
               (float_floor_div (lit (inject_Z (Z.of_nat k))) (lit 10))
               (lit (inject_Z (Z.of_nat k / 10))))
          (seq 0 1001) = true.
Proof. vm_compute. reflexivity. Qed.

Lemma floor_div_whole (n : Z) :
  (0 <= n <= 1000)%Z ->
  float_floor_div (lit (inject_Z n)) (lit 10) = lit (inject_Z (n / 10)).
Proof.
  intro Hn. pose proof floor_div_whole_table as T.
  rewrite forallb_forall in T. specialize (T (Z.to_nat n)).
  rewrite Z2Nat.id in T by lia.
  apply Leibniz.eqb_spec, T, in_seq. lia.
Qed.

End Doubles.

(** ** The engine on doubles *)

Section EngineBinary64.
Import SpecFloat FloatOps FloatAxioms.
Local Open Scope Q_scope.

(** *** The composite score on doubles *)

Lemma fle_refl_finite (x : PrimFloat.float) : ffinite x -> fle x x.
Proof.
  intro F. apply fle_value; [exact F|exact F|apply Qle_refl].
Qed.

(** One dimension of the score: [min(value / cap, 1) * 25]. *)
Lemma share_float_mono (cap v v' : PrimFloat.float) :
  fpositive cap -> fnonneg v -> fle v v' ->
  let share x := PrimFloat.mul (py_min (PrimFloat.div x cap) (lit 1)) (lit 25) in
  fnonneg (share v) /\ fle (share v) (share v') /\ fle (share v') (lit 25).
Proof.
  intros Pc Nv L share. unfold share.
  pose proof (fle_nonneg v v' Nv L) as Nv'.
  assert (F1 : ffinite (lit 1)) by closed_float.
  assert (F25 : ffinite (lit 25)) by closed_float.
  destruct (fdiv_mono v v' cap Pc Nv L) as [Nq Lq].
  pose proof (fle_nonneg _ _ Nq Lq) as Nq'.
  destruct (fpy_min_mono _ _ (lit 1) F1 Nq Lq) as (Nm & Lm & Lm1).
  pose proof (fle_nonneg _ _ Nm Lm) as Nm'.
  pose proof (fle_finite _ _ Nm' Lm1 F1) as Fm'.
  destruct (fmul_mono _ _ (lit 25) F25 Fm' Nm Lm) as [Ns Ls].
  split; [exact Ns|]. split; [exact Ls|].
  destruct (fmul_mono _ _ (lit 25) F25 F1 Nm' Lm1) as [_ Lt].
  assert (X : PrimFloat.mul (lit 1) (lit 25) = lit 25) by (vm_compute; reflexivity).
  rewrite X in Lt. exact Lt.
Qed.

Lemma score_float_mono (g g' w w' s s' t t' : PrimFloat.float) :
  fnonneg g -> fnonneg w -> fnonneg s -> fnonneg t ->
  fle g g' -> fle w w' -> fle s s' -> fle t t' ->
  fnonneg (combined_esg_scenario g w s t)
  /\ fle (combined_esg_scenario g w s t) (combined_esg_scenario g' w' s' t')
  /\ fle (combined_esg_scenario g' w' s' t') (lit 100).
Proof.
  intros Ng Nw Ns Nt Lg Lw Ls Lt.
  unfold combined_esg_scenario. cbn [add mul div round Num_float].
  destruct (share_float_mono (lit 30) g g' lit30_positive Ng Lg) as (Na & La & Ba).
  destruct (share_float_mono (lit 50) w w' lit50_positive Nw Lw) as (Nb & Lb & Bb).
  destruct (share_float_mono (lit 50) s s' lit50_positive Ns Ls) as (Nc & Lc & Bc).
  destruct (share_float_mono (lit 10) t t' lit10_positive Nt Lt) as (Nd & Ld & Bd).
  cbv zeta in *.
  set (a := PrimFloat.mul (py_min (PrimFloat.div g (lit 30)) (lit 1)) (lit 25)) in *.
  set (a' := PrimFloat.mul (py_min (PrimFloat.div g' (lit 30)) (lit 1)) (lit 25)) in *.
  set (b := PrimFloat.mul (py_min (PrimFloat.div w (lit 50)) (lit 1)) (lit 25)) in *.
  set (b' := PrimFloat.mul (py_min (PrimFloat.div w' (lit 50)) (lit 1)) (lit 25)) in *.
  set (c := PrimFloat.mul (py_min (PrimFloat.div s (lit 50)) (lit 1)) (lit 25)) in *.
  set (c' := PrimFloat.mul (py_min (PrimFloat.div s' (lit 50)) (lit 1)) (lit 25)) in *.
  set (d := PrimFloat.mul (py_min (PrimFloat.div t (lit 10)) (lit 1)) (lit 25)) in *.
  set (d' := PrimFloat.mul (py_min (PrimFloat.div t' (lit 10)) (lit 1)) (lit 25)) in *.
  pose proof (fle_nonneg _ _ Na La) as Na'. pose proof (fle_nonneg _ _ Nb Lb) as Nb'.
  pose proof (fle_nonneg _ _ Nc Lc) as Nc'. pose proof (fle_nonneg _ _ Nd Ld) as Nd'.
  assert (F25 : ffinite (lit 25)) by closed_float.
  pose proof (fle_finite _ _ Na' Ba F25) as Fa'. pose proof (fle_finite _ _ Nb' Bb F25) as Fb'.
  pose proof (fle_finite _ _ Nc' Bc F25) as Fc'. pose proof (fle_finite _ _ Nd' Bd F25) as Fd'.
  (* a + b *)
  destruct (fadd_mono a a' b b' Fa' Fb' Na Nb La Lb) as [N1 L1].
  destruct (fadd_mono a' (lit 25) b' (lit 25) F25 F25 Na' Nb' Ba Bb) as [N1' B1].
  assert (F50 : ffinite (PrimFloat.add (lit 25) (lit 25))) by closed_float.
  pose proof (fle_finite _ _ N1' B1 F50) as F1'.
  (* (a + b) + c *)
  destruct (fadd_mono _ _ c c' F1' Fc' N1 Nc L1 Lc) as [N2 L2].
  destruct (fadd_mono _ _ c' (lit 25) F50 F25 N1' Nc' B1 Bc) as [N2' B2].
  assert (F75 : ffinite (PrimFloat.add (PrimFloat.add (lit 25) (lit 25)) (lit 25)))
    by closed_float.
  pose proof (fle_finite _ _ N2' B2 F75) as F2'.
  (* ((a + b) + c) + d *)
  destruct (fadd_mono _ _ d d' F2' Fd' N2 Nd L2 Ld) as [N3 L3].
  destruct (fadd_mono _ _ d' (lit 25) F75 F25 N2' Nd' B2 Bd) as [N3' B3].
  assert (F100 : ffinite (PrimFloat.add (PrimFloat.add (PrimFloat.add (lit 25) (lit 25))
                                                        (lit 25)) (lit 25)))
    by closed_float.
  pose proof (fle_finite _ _ N3' B3 F100) as F3'.
  (* round(total, 2) *)
  destruct (float_round_mono _ _ F3' N3 L3) as [Nr Lr].
  destruct (float_round_mono _ _ F100 N3' B3) as [_ Br].
  split; [exact Nr|]. split; [exact Lr|].
  assert (X : float_round (PrimFloat.add (PrimFloat.add (PrimFloat.add (lit 25) (lit 25))
                                                        (lit 25)) (lit 25)) 2
              = lit 100) by (vm_compute; reflexivity).
  rewrite X in Br. exact Br.
Qed.

(** *** The transforms on doubles keep non-negative fields non-negative *)

Lemma finite64_nonneg64 (x : PrimFloat.float) : finite64 x -> nonneg64 x.
Proof. intros [N _]. exact N. Qed.

(** [x * (1 - q / 100)] for a finite [x >= 0] and [0 <= q <= 100]. *)
Lemma scaled64_nonneg (x q : PrimFloat.float) :
  finite64 x -> fnonneg q -> fle q (lit 100) ->
  nonneg64 (x * (lit 1 - q / lit 100))%num.
Proof.
  intros Fx Nq Lq. apply finite64_ffinite in Fx. apply nonneg64_fnonneg.
  cbn [sub mul div Num_float]. rewrite lit1_one.
  destruct (fdiv_mono q (lit 100) (lit 100) lit100_positive Nq Lq) as [Nd Ld].
  rewrite div_100_100 in Ld.
  destruct (fsub_le PrimFloat.one _ one_finite Nd Ld) as [Ns Ls].
  apply fmul_nonneg; [exact Fx|].
  exact (fle_finite _ _ Ns Ls one_finite).
Qed.

Lemma ghg_scenario_nonneg64 (D : list (ghg_row PrimFloat.float)) (p : PrimFloat.float) :
  finite64 p -> PrimFloat.leb p (lit 100) = true ->
  Forall (ghg_fields64 finite64) D ->
  Forall (ghg_fields64 nonneg64) (apply_ghg_scenario D p).
Proof.
  intros Fp Lp HD. unfold apply_ghg_scenario. apply Forall_map.
  eapply Forall_impl; [|exact HD]. intros r [Hy Hx]. split; [exact Hy|].
  cbn [set_Scope12_GHG Scope12_GHG].
  apply scaled64_nonneg; [exact Hx| |apply fle_leb, Lp].
  apply ffinite_fnonneg, finite64_ffinite, Fp.
Qed.

Lemma water_scenario_nonneg64 (D : list (water_row PrimFloat.float)) (p : PrimFloat.float) :
  finite64 p -> PrimFloat.leb p (lit 1000) = true ->
  Forall (water_fields64 finite64) D ->
  Forall (water_fields64 nonneg64) (fst (apply_water_scenario D p)).
Proof.
  intros Fp Lp HD. apply finite64_ffinite in Fp. apply fle_leb in Lp.
  unfold apply_water_scenario. cbn [fst]. apply Forall_map.
  eapply Forall_impl; [|exact HD]. intros r (Hy & Hf & Hn).
  split; [exact Hy|]. split; [|apply finite64_nonneg64, Hn].
  cbn [set_Freshwater_m3 Freshwater_m3].
  assert (E : (p // lit 10 * lit 1)%num = float_floor_div p (lit 10)).
  { cbn [mul floordiv Num_float]. rewrite lit1_one. apply float_mul_one_r. }
  rewrite E.
  apply scaled64_nonneg; [exact Hf| |].
  - apply floor_div_nonneg; [exact Fp|exact lit10_positive].
  - apply floor_div_10_le; assumption.
Qed.

Lemma energy_scenario_nonneg64 (D : list (energy_row PrimFloat.float)) (p : PrimFloat.float) :
  finite64 p ->
  Forall (energy_fields64 finite64) D ->
  Forall (energy_fields64 nonneg64) (apply_energy_scenario D p).
Proof.
  intros Fp HD. apply finite64_ffinite in Fp.
  unfold apply_energy_scenario. rewrite map_map. apply Forall_map.
  eapply Forall_impl; [|exact HD]. intros r (Hy & Ht & Hr).
  split; [exact Hy|]. split; [apply finite64_nonneg64, Ht|].
  cbn [set_Renewables_pct Renewables_pct]. apply nonneg64_fnonneg.
  apply fclip_upper_nonneg.
  - apply ffinite_fnonneg, fpositive_ffinite, lit100_positive.
  - cbn [add floordiv Num_float]. apply fadd_nonneg.
    + apply ffinite_fnonneg, finite64_ffinite, Hr.
    + apply floor_div_nonneg; [exact Fp|exact lit10_positive].
Qed.

(** [max(0, x - x * c * k)] for finite [x >= 0], [k >= 0] and a share
    [c <= 1]. *)
Lemma reduced64_nonneg (x c k : PrimFloat.float) :
  finite64 x -> ffinite c /\ SFvalue (Prim2SF c) <= 1 -> ffinite k ->
  nonneg64 (clip_lower (lit 0) (x - x * c * k)%num).
Proof.
  intros Fx [Fc Lc] Fk. apply finite64_ffinite in Fx. apply nonneg64_fnonneg.
  cbn [sub mul Num_float].
  apply fclip_lower_nonneg, fsub_sign; [exact Fx|].
  apply fmul_nonneg; [|exact Fk].
  eapply fle_finite; [apply fmul_nonneg; assumption|apply fmul_le; assumption|exact Fx].
Qed.

Lemma waste_scenario_nonneg64 (D : list (waste_row PrimFloat.float)) (p : PrimFloat.float) :
  finite64 p ->
  Forall (waste_fields64 finite64) D ->
  Forall (waste_fields64 nonneg64) (apply_waste_scenario D p).
Proof.
  intros Fp HD. apply finite64_ffinite in Fp.
  unfold apply_waste_scenario. apply Forall_map.
  eapply Forall_impl; [|exact HD]. intros r (Hy & Hh & Hn).
  split; [exact Hy|]. cbn [Hazardous_t NonHazardous_t]. split.
  - apply reduced64_nonneg; [exact Hh|exact lit0005_finite|exact Fp].
  - apply reduced64_nonneg; [exact Hn|exact lit0003_finite|exact Fp].
Qed.

End EngineBinary64.

(** ** Structure of the transformed frames *)

Section Structural.
Context {A : Type} {N : Num A}.

Lemma ghg_of_year_map (f : A -> A) (y : Z) (df : list (ghg_row A)) :
  ghg_of_year y (map (set_Scope12_GHG f) df) = option_map f (ghg_of_year y df).
Proof.
  unfold ghg_of_year.
  induction df as [|r df IH]; cbn [map find option_map]; [reflexivity|].
  cbn [set_Scope12_GHG ghg_Year].
  destruct (Z.eqb (ghg_Year r) y); [reflexivity | exact IH].
Qed.

End Structural.

(** C2.  For every GHG frame [D] and every percentage [p] (so in particular
    for [p] in [[0,100]]), [apply_ghg_scenario D p] holds, for every year
    [y], the emissions of [D] at [y] multiplied by [1 - p/100]; the rows come
    in the same order, with the same years, and there are as many of them.
    The statement holds in every arithmetic, exact or binary64. *)
Theorem ghg_scenario_scales_every_year :
  forall (A : Type) (N : Num A) (D : list (ghg_row A)) (p : A),
    (forall y : Z,
        ghg_of_year y (apply_ghg_scenario D p)
        = option_map (fun x => (x * (lit 1 - p / lit 100))%num) (ghg_of_year y D))
    /\ Forall2 (fun r r' =>
                  ghg_Year r' = ghg_Year r /\
                  Scope12_GHG r' = (Scope12_GHG r * (lit 1 - p / lit 100))%num)
               D (apply_ghg_scenario D p)
    /\ map ghg_Year (apply_ghg_scenario D p) = map ghg_Year D
    /\ length (apply_ghg_scenario D p) = length D.
Proof.
  intros A N D p. unfold apply_ghg_scenario. repeat split.
  - intro y. apply ghg_of_year_map.
  - apply Forall2_map_r. intro r. split; reflexivity.
  - rewrite map_map. reflexivity.
  - apply length_map.
Qed.

(** C7.  [apply_water_scenario] leaves the non-freshwater volume and the year
    of every row as they were, and [apply_energy_scenario] leaves the total
    energy and the year of every row as they were, whatever the investment
    or the added capacity. *)
Theorem water_energy_frame :
  forall (A : Type) (N : Num A),
    (forall (D : list (water_row A)) (investment_m : A),
        Forall2 (fun r r' =>
                   NonFreshwater_m3 r' = NonFreshwater_m3 r /\
                   water_Year r' = water_Year r)
                D (fst (apply_water_scenario D investment_m)))
    /\ (forall (D : list (energy_row A)) (solar_mw_add : A),
        Forall2 (fun r r' =>
                   Total_Energy_GJ r' = Total_Energy_GJ r /\
                   energy_Year r' = energy_Year r)
                D (apply_energy_scenario D solar_mw_add)).
Proof.
  intros A N. split.
  - intros D investment_m. unfold apply_water_scenario. cbn [fst].
    apply Forall2_map_r. intro r. split; reflexivity.
  - intros D solar_mw_add. unfold apply_energy_scenario.
    rewrite map_map. apply Forall2_map_r. intro r. split; reflexivity.
Qed.

(** C9.  On the frame without rows each of the four transforms returns the
    frame without rows, for every value of its parameter; the transforms are
    total functions, and in general they return as many rows as they get. *)
Theorem empty_frame_stays_empty :
  forall (A : Type) (N : Num A) (p : A),
    (apply_ghg_scenario [] p = []
     /\ fst (apply_water_scenario [] p) = []
     /\ apply_energy_scenario [] p = []
     /\ apply_waste_scenario [] p = [])
    /\ (forall D, length (apply_ghg_scenario D p) = length D)
    /\ (forall D, length (fst (apply_water_scenario D p)) = length D)
    /\ (forall D, length (apply_energy_scenario D p) = length D)
    /\ (forall D, length (apply_waste_scenario D p) = length D).
Proof.
  intros A N p. repeat split; try reflexivity; intro D.
  - unfold apply_ghg_scenario. apply length_map.
  - unfold apply_water_scenario. cbn [fst]. apply length_map.
  - unfold apply_energy_scenario. rewrite !length_map. reflexivity.
  - unfold apply_waste_scenario. apply length_map.
Qed.

(** C8.  A reduction of zero percent returns the GHG frame it was given:
    every row keeps its year and its emissions.  In exact arithmetic the
    emissions are the same number; in binary64 the frame is the same bit for
    bit, because [1 - 0/100.0] is [1.0] and [x * 1.0] is [x]. *)
Theorem ghg_scenario_zero_is_identity :
  (forall D : list (ghg_row Q), Forall2 ghg_row_eq D (apply_ghg_scenario D 0))
  /\ (forall D : list (ghg_row PrimFloat.float), apply_ghg_scenario D (lit 0) = D).
Proof.
  split; intro D; unfold apply_ghg_scenario.
  - apply Forall2_map_r. intro r. split; [reflexivity|].
    cbn [set_Scope12_GHG Scope12_GHG lit sub mul div Num_Q]. field.
  - apply map_id_ext. intros [y x]. unfold set_Scope12_GHG.
    cbn [ghg_Year Scope12_GHG]. f_equal.
    change ((lit 1 - lit 0 / lit 100)%num) with PrimFloat.one.
    apply float_mul_one_r.
Qed.

(** ** The step functions of water and energy, and the waste shares *)

Section StepFacts.
Local Open Scope Q_scope.

Lemma Qfloordiv_floor (x y : Q) : (x // y)%num = inject_Z (Qfloor (x / y)).
Proof. reflexivity. Qed.

Lemma water_reduction_pct (D : list (water_row Q)) (investment_m : Q) :
  snd (apply_water_scenario D investment_m) == inject_Z (Qfloor (investment_m / 10)).
Proof.
  unfold apply_water_scenario. cbn [snd lit mul floordiv Num_Q].
  unfold Qfloordiv. ring.
Qed.

End StepFacts.

(** C4.  [apply_water_scenario D investment] returns a frame and a
    percentage.  The percentage is the floor of [investment / 10]; every row
    holds the baseline freshwater multiplied by [1 - percentage/100].  An
    investment of 25 gives 2 percent; an investment of 0 gives 0 percent and
    leaves the freshwater as it was.  The two values are recomputed in
    binary64, where the frame at investment 0 is the baseline bit for bit,
    and where the percentage is the floor of [investment / 10] for every
    whole investment up to 1000.  In every arithmetic, exact or binary64,
    the percentage is [investment // 10 * 1], every row holds the baseline
    freshwater multiplied by [1 - percentage/100], and nothing else changes;
    in binary64 the percentage is CPython's floor division of the investment
    by [10.0], for every double. *)
Theorem water_scenario_step_function :
  (forall (D : list (water_row Q)) (investment_m : Q),
      snd (apply_water_scenario D investment_m)
      == inject_Z (Qfloor (investment_m / 10))
      /\ Forall2 (water_spec (inject_Z (Qfloor (investment_m / 10))))
                 D (fst (apply_water_scenario D investment_m)))
  /\ (forall D : list (water_row Q),
         snd (apply_water_scenario D 25) == 2
         /\ snd (apply_water_scenario D 0) == 0
         /\ Forall2 (fun r r' => Freshwater_m3 r' == Freshwater_m3 r)
                    D (fst (apply_water_scenario D 0)))
  /\ (forall D : list (water_row PrimFloat.float),
         snd (apply_water_scenario D (lit 25)) = lit 2
         /\ apply_water_scenario D (lit 0) = (D, lit 0))
  /\ (forall (D : list (water_row PrimFloat.float)) (n : Z),
         (0 <= n <= 1000)%Z ->
         snd (apply_water_scenario D (lit (inject_Z n))) = lit (inject_Z (n / 10)))
  /\ (forall (A : Type) (N : Num A) (D : list (water_row A)) (investment_m : A),
         snd (apply_water_scenario D investment_m) = (investment_m // lit 10 * lit 1)%num
         /\ Forall2 (fun r r' =>
                       Freshwater_m3 r'
                       = (Freshwater_m3 r
                          * (lit 1 - snd (apply_water_scenario D investment_m) / lit 100))%num
                       /\ NonFreshwater_m3 r' = NonFreshwater_m3 r
                       /\ water_Year r' = water_Year r)
                    D (fst (apply_water_scenario D investment_m)))
  /\ (forall (D : list (water_row PrimFloat.float)) (investment_m : PrimFloat.float),
         snd (apply_water_scenario D investment_m)
         = float_floor_div investment_m (lit 10)).
Proof.
  split; [|split; [|split; [|split; [|split]]]].
  - intros D investment_m. split; [apply water_reduction_pct|].
    unfold apply_water_scenario. cbn [fst].
    apply Forall2_map_r. intro r. unfold water_spec.
    cbn [set_Freshwater_m3 Freshwater_m3 lit sub mul div floordiv Num_Q].
    unfold Qfloordiv. field.
  - intro D. split; [|split].
    + rewrite water_reduction_pct. reflexivity.
    + rewrite water_reduction_pct. reflexivity.
    + unfold apply_water_scenario. cbn [fst].
      apply Forall2_map_r. intro r.
      cbn [set_Freshwater_m3 Freshwater_m3 lit sub mul div floordiv Num_Q].
      unfold Qfloordiv.
      change (Qfloor (0 / 10)) with 0%Z. field.
  - intro D. split.
    + unfold apply_water_scenario. cbn [snd]. vm_compute. reflexivity.
    + unfold apply_water_scenario.
      change ((lit 0 // lit 10 * lit 1)%num) with PrimFloat.zero.
      change ((lit 1 - PrimFloat.zero / lit 100)%num) with PrimFloat.one.
      change (lit 0) with PrimFloat.zero.
      f_equal. apply map_id_ext. intros [y f n]. unfold set_Freshwater_m3.
      cbn [water_Year Freshwater_m3 NonFreshwater_m3]. f_equal.
      apply float_mul_one_r.
  - intros D n Hn. unfold apply_water_scenario. cbn [snd mul floordiv Num_float].
    rewrite lit1_one, float_mul_one_r. apply floor_div_whole, Hn.
  - intros A N D investment_m. unfold apply_water_scenario. cbn [fst snd].
    split; [reflexivity|].
    apply Forall2_map_r. intro r. repeat split.
  - intros D investment_m. unfold apply_water_scenario.
    cbn [snd mul floordiv Num_float]. rewrite lit1_one. apply float_mul_one_r.
Qed.

(** Witness of C4: an investment of 25, a whole number below 1000. *)
Lemma water_scenario_step_witness :
  (0 <= 25 <= 1000)%Z
  /\ snd (apply_water_scenario (A := PrimFloat.float) df_water (lit (inject_Z 25)))
     = lit (inject_Z (25 / 10)).
Proof.
  split; [lia|].
  apply (proj1 (proj2 (proj2 (proj2 water_scenario_step_function))) df_water 25%Z). lia.
Defined.

(** C5.  [apply_energy_scenario D solar] sets the renewables share of every
    row to the baseline share plus the floor of [solar / 10], and to 100 when
    that sum is above 100.  With [solar = 95] a share of 9 becomes 18, in
    exact arithmetic and in binary64; in binary64 the step is the floor of
    [solar / 10] for every whole [solar] up to 1000.  In every arithmetic,
    exact or binary64, every row holds [clip(share + solar // 10, upper=100)]
    and nothing else changes. *)
Theorem energy_scenario_adds_capped_step :
  (forall (D : list (energy_row Q)) (solar_mw_add : Q),
      Forall2 (energy_spec (inject_Z (Qfloor (solar_mw_add / 10))))
              D (apply_energy_scenario D solar_mw_add)
      /\ Forall2 (fun r r' =>
                    100 < Renewables_pct r + inject_Z (Qfloor (solar_mw_add / 10)) ->
                    Renewables_pct r' == 100)
                 D (apply_energy_scenario D solar_mw_add))
  /\ (forall D : list (energy_row Q),
         Forall2 (fun r r' => Renewables_pct r == 9 -> Renewables_pct r' == 18)
                 D (apply_energy_scenario D 95))
  /\ (map Renewables_pct (apply_energy_scenario (A := PrimFloat.float) df_energy (lit 95))
      = map lit [12; 13; 14; 15; 17; 18]
      /\ forall D : list (energy_row PrimFloat.float),
           Forall2 (fun r r' => Renewables_pct r = lit 9 -> Renewables_pct r' = lit 18)
                   D (apply_energy_scenario D (lit 95)))
  /\ (forall (D : list (energy_row PrimFloat.float)) (n : Z),
         (0 <= n <= 1000)%Z ->
         Forall2 (fun r r' =>
                    Renewables_pct r'
                    = clip_upper (lit 100)
                        (PrimFloat.add (Renewables_pct r) (lit (inject_Z (n / 10)))))
                 D (apply_energy_scenario D (lit (inject_Z n))))
  /\ (forall (A : Type) (N : Num A) (D : list (energy_row A)) (solar_mw_add : A),
         Forall2 (fun r r' =>
                    Renewables_pct r'
                    = clip_upper (lit 100) (Renewables_pct r + solar_mw_add // lit 10)%num
                    /\ Total_Energy_GJ r' = Total_Energy_GJ r
                    /\ energy_Year r' = energy_Year r)
                 D (apply_energy_scenario D solar_mw_add)).
Proof.
  assert (Hspec : forall (D : list (energy_row Q)) (solar_mw_add : Q),
             Forall2 (energy_spec (inject_Z (Qfloor (solar_mw_add / 10))))
                     D (apply_energy_scenario D solar_mw_add)).
  { intros D solar_mw_add. unfold apply_energy_scenario. rewrite map_map.
    apply Forall2_map_r. intro r. unfold energy_spec.
    cbn [set_Renewables_pct Renewables_pct lit]. rewrite clip_upper_Qmin.
    reflexivity. }
  split; [|split; [|split; [|split]]].
  - intros D solar_mw_add. split; [apply Hspec|].
    eapply Forall2_impl; [|apply Hspec]. cbv beta. unfold energy_spec.
    intros r r' E L. rewrite E. apply Q.min_r. apply Qlt_le_weak, L.
  - intro D. eapply Forall2_impl; [|apply (Hspec D 95)]. cbv beta.
    unfold energy_spec. intros r r' E E9. rewrite E, E9.
    change (Qfloor (95 / 10)) with 9%Z. reflexivity.
  - split; [vm_compute; reflexivity|].
    intro D. unfold apply_energy_scenario. rewrite map_map.
    apply Forall2_map_r. intros r E9.
    cbn [set_Renewables_pct Renewables_pct]. rewrite E9. vm_compute. reflexivity.
  - intros D n Hn. unfold apply_energy_scenario. rewrite map_map.
    apply Forall2_map_r. intro r.
    cbn [set_Renewables_pct Renewables_pct add floordiv Num_float].
    rewrite (floor_div_whole n Hn). reflexivity.
  - intros A N D solar_mw_add. unfold apply_energy_scenario. rewrite map_map.
    apply Forall2_map_r. intro r. repeat split.
Qed.

(** A double that is at least [0.0] is not below it. *)
Lemma clamp64_keeps (x : PrimFloat.float) :
  PrimFloat.leb (lit 0) x = true -> PrimFloat.ltb x (lit 0) = false.
Proof.
  change (lit 0) with PrimFloat.zero.
  rewrite FloatAxioms.leb_spec, FloatAxioms.ltb_spec.
  change (FloatOps.Prim2SF PrimFloat.zero) with (SpecFloat.S754_zero false).
  destruct (FloatOps.Prim2SF x) as [s|[|]| |[|] m e]; cbn; intro H;
    try reflexivity; discriminate H.
Qed.

(** C6.  [apply_waste_scenario D reuse_k] sets, in every row,
    [hazardous' = max(0, hazardous - hazardous * 0.005 * reuse_k)] and
    [non_hazardous' = max(0, non_hazardous - non_hazardous * 0.003 * reuse_k)],
    each field and each row on its own.  A hazardous value of 23.9 with
    [reuse_k = 5] becomes 23.3025, in exact arithmetic and in binary64
    (there, the double nearest to 23.3025).  In every arithmetic, exact or
    binary64, both fields of every row are the clipped differences and the
    year is kept; in binary64 the clip returns [0.0] for a difference below
    zero and the difference itself when it is at least zero. *)
Theorem waste_scenario_reduces_and_floors :
  (forall (D : list (waste_row Q)) (new_reuse_k : Q),
      Forall2 (waste_spec new_reuse_k) D (apply_waste_scenario D new_reuse_k))
  /\ (forall D : list (waste_row Q),
         Forall2 (fun r r' => Hazardous_t r == 23.9 -> Hazardous_t r' == 23.3025)
                 D (apply_waste_scenario D 5))
  /\ (forall D : list (waste_row PrimFloat.float),
         Forall2 (fun r r' => Hazardous_t r = lit 23.9 -> Hazardous_t r' = lit 23.3025)
                 D (apply_waste_scenario D (lit 5)))
  /\ (forall (A : Type) (N : Num A) (D : list (waste_row A)) (new_reuse_k : A),
         Forall2 (fun r r' =>
                    Hazardous_t r'
                    = clip_lower (lit 0)
                        (Hazardous_t r - Hazardous_t r * lit 0.005 * new_reuse_k)%num
                    /\ NonHazardous_t r'
                       = clip_lower (lit 0)
                           (NonHazardous_t r
                            - NonHazardous_t r * lit 0.003 * new_reuse_k)%num
                    /\ waste_Year r' = waste_Year r)
                 D (apply_waste_scenario D new_reuse_k))
  /\ (forall x : PrimFloat.float,
         (PrimFloat.ltb x (lit 0) = true -> clip_lower (lit 0) x = lit 0)
         /\ (PrimFloat.leb (lit 0) x = true -> clip_lower (lit 0) x = x)).
Proof.
  assert (Hspec : forall (D : list (waste_row Q)) (new_reuse_k : Q),
             Forall2 (waste_spec new_reuse_k) D (apply_waste_scenario D new_reuse_k)).
  { intros D k. unfold apply_waste_scenario.
    apply Forall2_map_r. intro r. unfold waste_spec.
    cbn [Hazardous_t NonHazardous_t lit]. rewrite !clip_lower_Qmax.
    split; reflexivity. }
  split; [exact Hspec|split; [|split; [|split]]].
  - intro D. eapply Forall2_impl; [|apply (Hspec D 5)]. cbv beta.
    unfold waste_spec. intros r r' [E _] E9. rewrite E, E9.
    transitivity (23.9 - 23.9 * 0.005 * 5)%Q.
    + apply Q.max_r. vm_compute. discriminate.
    + vm_compute. reflexivity.
  - intro D. unfold apply_waste_scenario. apply Forall2_map_r. intros r E9.
    cbn [Hazardous_t]. rewrite E9. vm_compute. reflexivity.
  - intros A N D k. unfold apply_waste_scenario.
    apply Forall2_map_r. intro r. repeat split.
  - intro x. unfold clip_lower. cbn [ltb Num_float]. split.
    + intro B. rewrite B. reflexivity.
    + intro L. rewrite (clamp64_keeps x L). reflexivity.
Qed.

(** Closed facts about concrete frames are decided by evaluation. *)
Ltac by_eval := vm_compute; repeat split; try reflexivity; try discriminate.
Ltac Forall_by_eval := repeat (apply Forall_cons; [by_eval|]); apply Forall_nil.
Ltac Forall2_by_eval := repeat (apply Forall2_cons; [by_eval|]); apply Forall2_nil.

(** Witness of C5: on the sample frame, 1000 MW push every share above 100;
    the frame has a row with a share of 9; and 95 is a whole number below
    1000. *)
Lemma energy_scenario_cap_witness :
  (Forall (fun r => 100 < Renewables_pct r + inject_Z (Qfloor (1000 / 10)))
          (df_energy (A := Q))
   /\ Forall2 (fun r r' =>
                 100 < Renewables_pct r + inject_Z (Qfloor (1000 / 10)) ->
                 Renewables_pct r' == 100)
              df_energy (apply_energy_scenario df_energy 1000))
  /\ (Exists (fun r => Renewables_pct r == 9) (df_energy (A := Q))
      /\ Forall2 (fun r r' => Renewables_pct r == 9 -> Renewables_pct r' == 18)
                 df_energy (apply_energy_scenario df_energy 95))
  /\ (Exists (fun r => Renewables_pct r = lit 9) (df_energy (A := PrimFloat.float))
      /\ Forall2 (fun r r' => Renewables_pct r = lit 9 -> Renewables_pct r' = lit 18)
                 df_energy (apply_energy_scenario df_energy (lit 95)))
  /\ ((0 <= 95 <= 1000)%Z
      /\ Forall2 (fun r r' =>
                    Renewables_pct r'
                    = clip_upper (lit 100)
                        (PrimFloat.add (Renewables_pct r) (lit (inject_Z (95 / 10)))))
                 df_energy (apply_energy_scenario df_energy (lit (inject_Z 95)))).
Proof.
  split; [|split; [|split]]; split.
  - Forall_by_eval.
  - exact (proj2 (proj1 energy_scenario_adds_capped_step df_energy 1000)).
  - do 5 apply Exists_cons_tl. apply Exists_cons_hd. reflexivity.
  - exact (proj1 (proj2 energy_scenario_adds_capped_step) df_energy).
  - do 5 apply Exists_cons_tl. apply Exists_cons_hd. reflexivity.
  - exact (proj2 (proj1 (proj2 (proj2 energy_scenario_adds_capped_step))) df_energy).
  - lia.
  - apply (proj1 (proj2 (proj2 (proj2 energy_scenario_adds_capped_step))) df_energy 95%Z).
    lia.
Defined.

(** Witness of C6: the sample frame has a row with 23.9 thousand tonnes, in
    exact arithmetic and in binary64. *)
Lemma waste_scenario_sample_witness :
  (Exists (fun r => Hazardous_t r == 23.9) (df_waste (A := Q))
   /\ Forall2 (fun r r' => Hazardous_t r == 23.9 -> Hazardous_t r' == 23.3025)
              df_waste (apply_waste_scenario df_waste 5))
  /\ (Exists (fun r => Hazardous_t r = lit 23.9) (df_waste (A := PrimFloat.float))
      /\ Forall2 (fun r r' => Hazardous_t r = lit 23.9 -> Hazardous_t r' = lit 23.3025)
                 df_waste (apply_waste_scenario df_waste (lit 5))).
Proof.
  split; split.
  - do 5 apply Exists_cons_tl. apply Exists_cons_hd. reflexivity.
  - exact (proj1 (proj2 waste_scenario_reduces_and_floors) df_waste).
  - do 5 apply Exists_cons_tl. apply Exists_cons_hd. reflexivity.
  - exact (proj1 (proj2 (proj2 waste_scenario_reduces_and_floors)) df_waste).
Defined.

(** ** Non-negative outputs *)

Section Nonnegative.
Local Open Scope Q_scope.

(** Division by a literal is multiplication by its inverse, which [lra]
    handles. *)
Lemma Qdiv_const (x : Q) (n : positive) : x / (Zpos n # 1) == x * (1 # n).
Proof. reflexivity. Qed.

Lemma Qfloor_nonneg (x : Q) : 0 <= x -> 0 <= inject_Z (Qfloor x).
Proof.
  intro Hx. change 0 with (inject_Z 0). rewrite <- Zle_Qle.
  change 0%Z with (Qfloor 0). apply Qfloor_resp_le. exact Hx.
Qed.

Lemma Qfloor_lt_bound (x : Q) (b : Z) : x < inject_Z (b + 1) -> inject_Z (Qfloor x) <= inject_Z b.
Proof.
  intro Hx. rewrite <- Zle_Qle.
  pose proof (Qfloor_le x) as Hf.
  assert (L : inject_Z (Qfloor x) < inject_Z (b + 1)) by lra.
  rewrite <- Zlt_Qlt in L. lia.
Qed.

Lemma scaled_nonneg (x c : Q) : 0 <= x -> c <= 100 -> 0 <= x * (1 - c / 100).
Proof.
  intros Hx Hc. apply Qmult_le_0_compat; [exact Hx|]. rewrite Qdiv_const. lra.
Qed.

End Nonnegative.

(** C1, amended.  A frame whose numeric fields are all non-negative keeps
    them non-negative under [apply_ghg_scenario] for a percentage in
    [[0,100]], under [apply_water_scenario] for an investment in [[0,1010)]
    (a reduction of at most 100 percent), and under [apply_energy_scenario]
    and [apply_waste_scenario] for every non-negative parameter.  This is
    proved in exact arithmetic, and in binary64, where every operation
    rounds, for finite fields and a finite parameter (there the investment is
    taken up to 1000). *)
Theorem transforms_keep_fields_nonnegative :
  (forall p : Q, 0 <= p ->
    (forall D, p <= 100 -> Forall nonneg_ghg D ->
               Forall nonneg_ghg (apply_ghg_scenario D p))
    /\ (forall D, p < 1010 -> Forall nonneg_water D ->
                  Forall nonneg_water (fst (apply_water_scenario D p)))
    /\ (forall D, Forall nonneg_energy D ->
                  Forall nonneg_energy (apply_energy_scenario D p))
    /\ (forall D, Forall nonneg_waste D ->
                  Forall nonneg_waste (apply_waste_scenario D p)))
  /\ (forall p : PrimFloat.float, finite64 p ->
    (forall D, PrimFloat.leb p (lit 100) = true ->
               Forall (ghg_fields64 finite64) D ->
               Forall (ghg_fields64 nonneg64) (apply_ghg_scenario D p))
    /\ (forall D, PrimFloat.leb p (lit 1000) = true ->
                  Forall (water_fields64 finite64) D ->
                  Forall (water_fields64 nonneg64) (fst (apply_water_scenario D p)))
    /\ (forall D, Forall (energy_fields64 finite64) D ->
                  Forall (energy_fields64 nonneg64) (apply_energy_scenario D p))
    /\ (forall D, Forall (waste_fields64 finite64) D ->
                  Forall (waste_fields64 nonneg64) (apply_waste_scenario D p))).
Proof.
  split.
  - intros p Hp. repeat split.
    + intros D Hle HD. unfold apply_ghg_scenario. apply Forall_map.
      eapply Forall_impl; [|exact HD]. intros r [Hy Hx]. split; [exact Hy|].
      cbn [set_Scope12_GHG Scope12_GHG lit sub mul div Num_Q].
      apply scaled_nonneg; assumption.
    + intros D Hlt HD. unfold apply_water_scenario. cbn [fst]. apply Forall_map.
      eapply Forall_impl; [|exact HD]. intros r (Hy & Hf & Hn).
      repeat split; [exact Hy| |exact Hn].
      cbn [set_Freshwater_m3 Freshwater_m3 lit sub mul div floordiv Num_Q].
      apply scaled_nonneg; [exact Hf|]. unfold Qfloordiv.
      assert (B : inject_Z (Qfloor (p / 10)) <= inject_Z 100).
      { apply Qfloor_lt_bound. change (inject_Z (100 + 1)) with 101.
        rewrite Qdiv_const. lra. }
      change (inject_Z 100) with 100 in B. lra.
    + intros D HD. unfold apply_energy_scenario. rewrite map_map. apply Forall_map.
      eapply Forall_impl; [|exact HD]. intros r (Hy & Ht & Hr).
      repeat split; [exact Hy|exact Ht|].
      cbn [set_Renewables_pct Renewables_pct lit add floordiv Num_Q].
      rewrite clip_upper_Qmin. unfold Qfloordiv.
      assert (Hs : 0 <= inject_Z (Qfloor (p / 10))).
      { apply Qfloor_nonneg. rewrite Qdiv_const. lra. }
      apply Q.min_glb; lra.
    + intros D HD. unfold apply_waste_scenario. apply Forall_map.
      eapply Forall_impl; [|exact HD]. intros r (Hy & _ & _).
      repeat split; [exact Hy| |]; cbn [Hazardous_t NonHazardous_t lit];
        rewrite clip_lower_Qmax; apply Q.le_max_l.
  - intros p Fp. split; [|split; [|split]].
    + intros D Lp HD. apply ghg_scenario_nonneg64; assumption.
    + intros D Lp HD. apply water_scenario_nonneg64; assumption.
    + intros D HD. apply energy_scenario_nonneg64; assumption.
    + intros D HD. apply waste_scenario_nonneg64; assumption.
Qed.

(** Witness of C1: the sample frames of [load_data] at the parameter 10, in
    exact arithmetic and in binary64. *)
Lemma transforms_keep_fields_nonnegative_witness :
  (Forall nonneg_ghg (apply_ghg_scenario df_ghg 10)
   /\ Forall nonneg_water (fst (apply_water_scenario df_water 10))
   /\ Forall nonneg_energy (apply_energy_scenario df_energy 10)
   /\ Forall nonneg_waste (apply_waste_scenario df_waste 10))
  /\ (Forall (ghg_fields64 nonneg64) (apply_ghg_scenario df_ghg (lit 10))
      /\ Forall (water_fields64 nonneg64) (fst (apply_water_scenario df_water (lit 10)))
      /\ Forall (energy_fields64 nonneg64) (apply_energy_scenario df_energy (lit 10))
      /\ Forall (waste_fields64 nonneg64) (apply_waste_scenario df_waste (lit 10))).
Proof.
  split.
  - assert (H10 : 0 <= 10) by by_eval.
    destruct (proj1 transforms_keep_fields_nonnegative 10 H10) as (G & W & E & Wa).
    repeat split.
    + apply G; [by_eval|].
      Forall_by_eval.
    + apply W; [by_eval|].
      Forall_by_eval.
    + apply E. Forall_by_eval.
    + apply Wa. Forall_by_eval.
  - assert (F10 : finite64 (lit 10)) by by_eval.
    destruct (proj2 transforms_keep_fields_nonnegative (lit 10) F10) as (G & W & E & Wa).
    split; [|split; [|split]].
    + apply G; [by_eval|].
      Forall_by_eval.
    + apply W; [by_eval|].
      Forall_by_eval.
    + apply E. Forall_by_eval.
    + apply Wa. Forall_by_eval.
Defined.

(** Counterexample to C1 as stated.  The percentage 200 is non-negative and
    the sample GHG frame is non-negative, yet the 2018 emissions become
    [2.94 * (1 - 2) = -2.94], in exact arithmetic and in binary64; an
    investment of 1100 turns the freshwater of 2018 into [20.2 * (1 - 1.1)];
    a frame that is negative to begin with stays negative; and in binary64
    an infinite emission at 100 percent becomes [inf * 0.0], which is [nan]
    and not above zero. *)
Lemma transforms_negative_counterexample :
  (0 <= 200
   /\ Forall nonneg_ghg df_ghg
   /\ Forall2 (fun r r' => Scope12_GHG r' == - Scope12_GHG r)
              df_ghg (apply_ghg_scenario df_ghg 200)
   /\ ~ Forall nonneg_ghg (apply_ghg_scenario df_ghg 200))
  /\ option_map (fun r => PrimFloat.ltb (Scope12_GHG r) PrimFloat.zero)
       (nth_error (apply_ghg_scenario (A := PrimFloat.float) df_ghg (lit 200)) 0)
     = Some true
  /\ (0 <= 1100
      /\ Forall nonneg_water df_water
      /\ ~ Forall nonneg_water (fst (apply_water_scenario df_water 1100)))
  /\ ~ Forall nonneg_energy
         (apply_energy_scenario
            [ {| energy_Year := 2018; Total_Energy_GJ := -1; Renewables_pct := 3 |} ] 0)
  /\ (nonneg64 PrimFloat.infinity
      /\ map (fun r => PrimFloat.leb PrimFloat.zero (Scope12_GHG r))
           (apply_ghg_scenario
              [ {| ghg_Year := 2018; Scope12_GHG := PrimFloat.infinity |} ] (lit 100))
         = [false]).
Proof.
  split; [|split; [|split; [|split]]].
  - split; [by_eval|]. split; [Forall_by_eval|]. split; [Forall2_by_eval|].
    intro HF. inversion HF as [|r l [_ Hneg] _]; subst.
    vm_compute in Hneg. apply Hneg. reflexivity.
  - vm_compute. reflexivity.
  - split; [by_eval|]. split; [Forall_by_eval|].
    intro HF. inversion HF as [|r l (_ & Hneg & _) _]; subst.
    vm_compute in Hneg. apply Hneg. reflexivity.
  - intro HF. inversion HF as [|r l (_ & Hneg & _) _]; subst.
    vm_compute in Hneg. apply Hneg. reflexivity.
  - split; vm_compute; reflexivity.
Qed.

(** ** The composite score *)

Section Score.
Local Open Scope Q_scope.

(** One dimension of the score: the share of the cap, at most 1, times 25. *)
Lemma share_bounds (v : Q) (cap : positive) :
  0 <= v -> 0 <= Qmin (v / (Zpos cap # 1)) 1 * 25 <= 25.
Proof.
  intro Hv. rewrite Qdiv_const.
  assert (Hc : 0 <= v * (1 # cap)).
  { apply Qmult_le_0_compat; [exact Hv|]. unfold Qle; simpl; lia. }
  destruct (Q.min_spec (v * (1 # cap)) 1) as [[L E]|[L E]]; rewrite E; lra.
Qed.

Lemma share_mono (v v' : Q) (cap : positive) :
  v <= v' -> Qmin (v / (Zpos cap # 1)) 1 * 25 <= Qmin (v' / (Zpos cap # 1)) 1 * 25.
Proof.
  intro Hv. rewrite !Qdiv_const.
  assert (Hc : v * (1 # cap) <= v' * (1 # cap)).
  { apply Qmult_le_compat_r; [exact Hv|]. unfold Qle; simpl; lia. }
  pose proof (Q.min_le_compat_r _ _ 1 Hc) as Hm. lra.
Qed.

Lemma score_refines_spec (g w s t : Q) :
  combined_esg_scenario g w s t == esg_score_spec g w s t.
Proof.
  unfold combined_esg_scenario, esg_score_spec.
  cbn [lit add mul div round Num_Q].
  apply Qround_comp. rewrite !py_min_Qmin. reflexivity.
Qed.

Lemma score_spec_mono (g g' w w' s s' t t' : Q) :
  g <= g' -> w <= w' -> s <= s' -> t <= t' ->
  esg_score_spec g w s t <= esg_score_spec g' w' s' t'.
Proof.
  intros Hg Hw Hs Ht. unfold esg_score_spec. apply Qround_mono.
  pose proof (share_mono g g' 30 Hg).
  pose proof (share_mono w w' 50 Hw).
  pose proof (share_mono s s' 50 Hs).
  pose proof (share_mono t t' 10 Ht).
  lra.
Qed.

End Score.

(** ** Doubles of either sign: rounding, order and the score

    The rounding of a negative real mirrors that of its opposite, so the
    operations of the score are monotone on all doubles, minus and plus
    infinity included, and nan goes through each of them. *)

Section SignedDoubles.
Import SpecFloat FloatOps FloatAxioms.
Local Open Scope Q_scope.

(** *** Doubles of either sign: the opposite *)

Lemma SFopp_involutive (x : spec_float) : SFopp (SFopp x) = x.
Proof. destruct x as [s|s| |s m e]; cbn; rewrite ?negb_involutive; reflexivity. Qed.

Lemma SFopp_valid (x : spec_float) : valid_binary (SFopp x) = valid_binary x.
Proof. destruct x as [s|s| |s m e]; reflexivity. Qed.

Lemma SFopp_value (x : spec_float) : SFvalue (SFopp x) == - SFvalue x.
Proof.
  destruct x as [s|s| |[|] m e]; cbn [SFopp SFvalue negb cond_Zopp]; try reflexivity.
  - change (Z.neg m) with (- Z.pos m)%Z. rewrite inject_Z_opp. ring.
  - change (Z.neg m) with (- Z.pos m)%Z. rewrite inject_Z_opp. ring.
Qed.

Lemma SFopp_srank (x : spec_float) : srank (SFopp x) == - srank x.
Proof.
  destruct x as [s|[|]| |s m e]; cbn [SFopp srank negb];
    try apply (SFopp_value (S754_finite s m e)); cbn [SFvalue]; ring.
Qed.

Lemma SFopp_notnan (x : spec_float) : notnan (SFopp x) <-> notnan x.
Proof. destruct x; cbn; tauto. Qed.

Lemma SFopp_sfinite (x : spec_float) : sfinite (SFopp x) <-> sfinite x.
Proof. destruct x; cbn; tauto. Qed.

Lemma notnan_cases (x : spec_float) : notnan x -> nonneg x \/ nonneg (SFopp x).
Proof. destruct x as [s|[|]| |[|] m e]; cbn; tauto. Qed.

Lemma sfinite_cases (x : spec_float) :
  sfinite x -> nonneg_finite x \/ nonneg_finite (SFopp x).
Proof. destruct x as [s|[|]| |[|] m e]; cbn; tauto. Qed.

Lemma notnan_sfinite (x : spec_float) :
  notnan x -> x = S754_infinity true \/ sfinite x \/ x = S754_infinity false.
Proof. destruct x as [s|[|]| |[|] m e]; cbn; tauto. Qed.

Lemma sfinite_notnan (x : spec_float) : sfinite x -> notnan x.
Proof. destruct x; cbn; tauto. Qed.

Lemma nonneg_notnan (x : spec_float) : nonneg x -> notnan x.
Proof. destruct x as [s|[|]| |[|] m e]; cbn; tauto. Qed.

Lemma SFcompare_opp (x y : spec_float) :
  SFcompare (SFopp x) (SFopp y) = SFcompare y x.
Proof.
  destruct x as [sx|[|]| |[|] mx ex], y as [sy|[|]| |[|] my ey];
    cbn [SFopp SFcompare negb]; try reflexivity.
  - rewrite (Z.compare_antisym ex ey).
    destruct (ex ?= ey)%Z; cbn [CompOpp]; try reflexivity.
    rewrite Pos.compare_cont_antisym. reflexivity.
  - rewrite (Z.compare_antisym ex ey).
    destruct (ex ?= ey)%Z; cbn [CompOpp]; try reflexivity.
    rewrite Pos.compare_cont_antisym. reflexivity.
Qed.

Lemma SFleb_opp (x y : spec_float) : SFleb (SFopp x) (SFopp y) = SFleb y x.
Proof. unfold SFleb. rewrite SFcompare_opp. reflexivity. Qed.

Lemma SFltb_opp (x y : spec_float) : SFltb (SFopp x) (SFopp y) = SFltb y x.
Proof. unfold SFltb. rewrite SFcompare_opp. reflexivity. Qed.

(** *** The order of all doubles but nan, through the rank *)

Lemma srank_nonneg (x : spec_float) : nonneg x -> srank x = rank x.
Proof. destruct x as [s|[|]| |[|] m e]; cbn; intro H; try contradiction; reflexivity. Qed.

Lemma rank_nonneg_le (x : spec_float) :
  valid_binary x = true -> nonneg x -> 0 <= rank x.
Proof.
  intros V N. destruct (nonneg_cases x N) as [F| ->].
  - apply (rank_finite_lt x V F).
  - cbn. pose proof (bpow_pos emax). lra.
Qed.

Lemma srank_negative (x : spec_float) :
  nonneg (SFopp x) -> ~ nonneg x -> srank x < 0.
Proof.
  destruct x as [s|[|]| |[|] m e]; cbn [SFopp nonneg negb srank SFvalue cond_Zopp];
    intros H K; try contradiction; try (exfalso; apply K; exact I).
  - pose proof (bpow_pos emax). lra.
  - pose proof (bpow_pos e).
    change (Z.neg m) with (- Z.pos m)%Z. rewrite inject_Z_opp.
    assert (0 < inject_Z (Z.pos m)) by reflexivity. nra.
Qed.

Lemma SFcompare_negative_l (x y : spec_float) :
  nonneg (SFopp x) -> ~ nonneg x -> nonneg y -> SFcompare x y = Some Lt.
Proof.
  destruct x as [s|[|]| |[|] m e]; cbn [SFopp nonneg negb];
    intros H K N; try contradiction; try (exfalso; apply K; exact I);
    destruct y as [sy|[|]| |[|] my ey]; cbn [nonneg] in N; try contradiction; reflexivity.
Qed.

Lemma SFcompare_negative_r (x y : spec_float) :
  nonneg x -> nonneg (SFopp y) -> ~ nonneg y -> SFcompare x y = Some Gt.
Proof.
  destruct y as [s|[|]| |[|] m e]; cbn [SFopp nonneg negb];
    intros N H K; try contradiction; try (exfalso; apply K; exact I);
    destruct x as [sy|[|]| |[|] my ey]; cbn [nonneg] in N; try contradiction; reflexivity.
Qed.

Lemma nonneg_dec (x : spec_float) : nonneg x \/ ~ nonneg x.
Proof. destruct x as [s|[|]| |[|] m e]; cbn; tauto. Qed.

Lemma SFleb_srank (x y : spec_float) :
  valid_binary x = true -> valid_binary y = true -> notnan x -> notnan y ->
  (SFleb x y = true <-> srank x <= srank y).
Proof.
  intros Vx Vy Nx Ny.
  destruct (nonneg_dec x) as [Px|Px]; destruct (nonneg_dec y) as [Py|Py].
  - rewrite (srank_nonneg x Px), (srank_nonneg y Py). apply SFleb_rank; assumption.
  - destruct (notnan_cases y Ny) as [Q|Q]; [contradiction|].
    pose proof (srank_negative y Q Py) as Ly.
    pose proof (rank_nonneg_le x Vx Px) as Lx. rewrite <- (srank_nonneg x Px) in Lx.
    unfold SFleb. rewrite (SFcompare_negative_r x y Px Q Py).
    split; [discriminate|intro; lra].
  - destruct (notnan_cases x Nx) as [Q|Q]; [contradiction|].
    pose proof (srank_negative x Q Px) as Lx.
    pose proof (rank_nonneg_le y Vy Py) as Ly. rewrite <- (srank_nonneg y Py) in Ly.
    unfold SFleb. rewrite (SFcompare_negative_l x y Q Px Py).
    split; [intro; lra|reflexivity].
  - destruct (notnan_cases x Nx) as [Qx|Qx]; [contradiction|].
    destruct (notnan_cases y Ny) as [Qy|Qy]; [contradiction|].
    rewrite <- (SFopp_involutive x) at 1. rewrite <- (SFopp_involutive y) at 1.
    rewrite SFleb_opp.
    rewrite (SFleb_rank (SFopp y) (SFopp x)); try assumption;
      try (rewrite SFopp_valid; assumption).
    rewrite <- (srank_nonneg _ Qx), <- (srank_nonneg _ Qy), !SFopp_srank.
    split; intro; lra.
Qed.

Lemma SFltb_srank (x y : spec_float) :
  valid_binary x = true -> valid_binary y = true -> notnan x -> notnan y ->
  (SFltb x y = true <-> srank x < srank y).
Proof.
  intros Vx Vy Nx Ny.
  destruct (nonneg_dec x) as [Px|Px]; destruct (nonneg_dec y) as [Py|Py].
  - rewrite (srank_nonneg x Px), (srank_nonneg y Py). apply SFltb_rank; assumption.
  - destruct (notnan_cases y Ny) as [Q|Q]; [contradiction|].
    pose proof (srank_negative y Q Py) as Ly.
    pose proof (rank_nonneg_le x Vx Px) as Lx. rewrite <- (srank_nonneg x Px) in Lx.
    unfold SFltb. rewrite (SFcompare_negative_r x y Px Q Py).
    split; [discriminate|intro; lra].
  - destruct (notnan_cases x Nx) as [Q|Q]; [contradiction|].
    pose proof (srank_negative x Q Px) as Lx.
    pose proof (rank_nonneg_le y Vy Py) as Ly. rewrite <- (srank_nonneg y Py) in Ly.
    unfold SFltb. rewrite (SFcompare_negative_l x y Q Px Py).
    split; [intro; lra|reflexivity].
  - destruct (notnan_cases x Nx) as [Qx|Qx]; [contradiction|].
    destruct (notnan_cases y Ny) as [Qy|Qy]; [contradiction|].
    rewrite <- (SFopp_involutive x) at 1. rewrite <- (SFopp_involutive y) at 1.
    rewrite SFltb_opp.
    rewrite (SFltb_rank (SFopp y) (SFopp x)); try assumption;
      try (rewrite SFopp_valid; assumption).
    rewrite <- (srank_nonneg _ Qx), <- (srank_nonneg _ Qy), !SFopp_srank.
    split; intro; lra.
Qed.

Lemma SFleb_notnan (x y : spec_float) : SFleb x y = true -> notnan x /\ notnan y.
Proof.
  destruct x as [sx|[|]| |[|] mx ex], y as [sy|[|]| |[|] my ey];
    cbn [SFleb SFcompare notnan]; intro H; try discriminate; split; exact I.
Qed.

(** The rank of a finite double is its value, strictly inside
    [(- 2^emax, 2^emax)]. *)
Lemma srank_sfinite (x : spec_float) :
  valid_binary x = true -> sfinite x ->
  srank x = SFvalue x /\ - bpow emax < SFvalue x /\ SFvalue x < bpow emax.
Proof.
  intros V F. split; [destruct x as [s|[|]| |[|] m e]; cbn in F |- *; tauto|].
  destruct (sfinite_cases x F) as [N|N].
  - destruct (rank_finite_lt x V N) as [A B]. rewrite (rank_finite x N) in A, B. lra.
  - rewrite <- SFopp_valid in V.
    destruct (rank_finite_lt _ V N) as [A B]. rewrite (rank_finite _ N) in A, B.
    rewrite SFopp_value in A, B. lra.
Qed.

(** *** Rounding a real of either sign *)

Lemma srounded_le (v v' : Q) (z z' : spec_float) :
  srounded v z -> srounded v' z' -> v <= v' -> SFleb z z' = true.
Proof.
  intros [[P R]|[P R]] [[P' R']|[P' R']] L.
  - exact (rounded_le v v' z z' R R' L).
  - assert (E : v == 0) by lra. assert (E' : - v' == 0) by lra.
    destruct (rounded_zero v z E R) as [s ->].
    destruct (rounded_zero _ _ E' R') as [s' Hs'].
    apply (f_equal SFopp) in Hs'. rewrite SFopp_involutive in Hs'. subst z'.
    destruct s, s'; reflexivity.
  - destruct (rounded_nonneg _ _ R) as (N & V & _).
    destruct (rounded_nonneg _ _ R') as (N' & V' & _).
    rewrite SFopp_valid in V.
    destruct (nonneg_dec z) as [Pz|Pz].
    + apply SFleb_rank; try assumption.
      assert (Z0 : rank z == 0).
      { destruct z as [s|[|]| |[|] m e]; cbn in N, Pz |- *; try contradiction; reflexivity. }
      rewrite Z0. apply rank_nonneg_le; assumption.
    + unfold SFleb. rewrite (SFcompare_negative_l z z' N Pz N'). reflexivity.
  - rewrite <- SFleb_opp. apply (rounded_le (- v') (- v)); [assumption|assumption|lra].
Qed.

Lemma srounded_valid (v : Q) (z : spec_float) :
  srounded v z -> valid_binary z = true /\ notnan z.
Proof.
  intros [[P R]|[P R]]; destruct (rounded_nonneg _ _ R) as (N & V & _).
  - split; [exact V|apply nonneg_notnan; exact N].
  - rewrite SFopp_valid in V. split; [exact V|].
    apply SFopp_notnan, nonneg_notnan. exact N.
Qed.

Lemma srounded_comp (v v' : Q) (z : spec_float) :
  v == v' -> srounded v z -> srounded v' z.
Proof.
  intros E [[P R]|[P R]].
  - left. split; [lra|exact (rounded_comp v v' z E R)].
  - right. split; [lra|]. apply (rounded_comp (- v)); [lra|exact R].
Qed.

Lemma srounded_of_nonneg (v : Q) (z : spec_float) : rounded v z -> srounded v z.
Proof. intro R. left. split; [apply (rounded_nonneg _ _ R)|exact R]. Qed.

Lemma srounded_of_opp (v : Q) (z : spec_float) :
  rounded (- v) (SFopp z) -> srounded v z.
Proof.
  intro R. right. split; [|exact R].
  destruct (rounded_nonneg _ _ R) as (_ & _ & P). lra.
Qed.

Lemma srounded_fixed (x : spec_float) :
  valid_binary x = true -> sfinite x -> srounded (SFvalue x) x.
Proof.
  intros V F. destruct (sfinite_cases x F) as [N|N].
  - apply srounded_of_nonneg. apply rounded_fixed; assumption.
  - apply srounded_of_opp. apply (rounded_comp (SFvalue (SFopp x))).
    + apply SFopp_value.
    + apply rounded_fixed; [rewrite SFopp_valid; exact V|exact N].
Qed.

(** *** The operations on finite doubles of either sign *)

Lemma binary_round_aux_opp (s : bool) (m e : Z) (l : location) :
  binary_round_aux prec emax (negb s) m e l
  = SFopp (binary_round_aux prec emax s m e l).
Proof.
  unfold binary_round_aux.
  destruct (shr_fexp prec emax m e l) as [mrs' e'].
  destruct (shr_fexp prec emax _ e' loc_Exact) as [mrs'' e''].
  destruct (shr_m mrs'') as [|p|p]; try reflexivity.
  destruct (e'' <=? emax - prec)%Z; reflexivity.
Qed.

Lemma binary_round_opp (s : bool) (m : positive) (e : Z) :
  binary_round prec emax (negb s) m e = SFopp (binary_round prec emax s m e).
Proof.
  unfold binary_round.
  destruct (shl_align m e _) as [mz ez]. apply binary_round_aux_opp.
Qed.

Lemma xorb_negb_l (a b : bool) : xorb (negb a) b = negb (xorb a b).
Proof. destruct a, b; reflexivity. Qed.

Lemma SF64mul_opp_l (x y : spec_float) : SF64mul (SFopp x) y = SFopp (SF64mul x y).
Proof.
  destruct x as [sx|sx| |sx mx ex], y as [sy|sy| |sy my ey];
    cbn [SF64mul SFmul SFopp]; rewrite ?xorb_negb_l; try reflexivity.
  apply binary_round_aux_opp.
Qed.

Lemma SF64div_opp_l (x y : spec_float) : SF64div (SFopp x) y = SFopp (SF64div x y).
Proof.
  destruct x as [sx|sx| |sx mx ex], y as [sy|sy| |sy my ey];
    cbn [SF64div SFdiv SFopp]; rewrite ?xorb_negb_l; try reflexivity.
  destruct (SFdiv_core_binary prec emax (Z.pos mx) ex (Z.pos my) ey) as [[q e] l].
  apply binary_round_aux_opp.
Qed.

Lemma SF64mul_srounded (x c : spec_float) :
  valid_binary x = true -> valid_binary c = true ->
  sfinite x -> nonneg_finite c ->
  srounded (SFvalue x * SFvalue c) (SF64mul x c).
Proof.
  intros Vx Vc F Nc. destruct (sfinite_cases x F) as [N|N].
  - apply srounded_of_nonneg. apply SF64mul_rounded; assumption.
  - apply srounded_of_opp. rewrite <- SF64mul_opp_l.
    apply (rounded_comp (SFvalue (SFopp x) * SFvalue c)).
    + rewrite SFopp_value. ring.
    + apply SF64mul_rounded; try assumption. rewrite SFopp_valid. exact Vx.
Qed.

Lemma SF64div_srounded (x : spec_float) (my : positive) (ey : Z) :
  sfinite x ->
  srounded (SFvalue x / (inject_Z (Zpos my) * bpow ey))
           (SF64div x (S754_finite false my ey)).
Proof.
  intro F. destruct (sfinite_cases x F) as [N|N].
  - apply srounded_of_nonneg. apply SF64div_rounded; assumption.
  - apply srounded_of_opp. rewrite <- SF64div_opp_l.
    apply (rounded_comp (SFvalue (SFopp x) / (inject_Z (Zpos my) * bpow ey))).
    + rewrite SFopp_value. field.
      pose proof (bpow_pos ey). assert (0 < inject_Z (Z.pos my)) by reflexivity. nra.
    + apply SF64div_rounded. exact N.
Qed.

Lemma round_valid_opp (r : Q) (z : spec_float) :
  round_valid true r z -> round_valid false r (SFopp z).
Proof.
  intros [R V]. split; [|rewrite SFopp_valid; exact V].
  destruct z as [s|s| |s m e]; cbn [round_result SFopp] in *;
    try contradiction; destruct R as [-> R]; split; try reflexivity; exact R.
Qed.

Lemma signed_aligned_value (s : bool) (m : positive) (e ez : Z) :
  (ez <= e)%Z ->
  inject_Z (cond_Zopp s (Zpos (fst (shl_align m e ez)))) * bpow ez
  == inject_Z (cond_Zopp s (Zpos m)) * bpow e.
Proof.
  intro L. pose proof (aligned_value m e ez L) as A.
  destruct s; cbn [cond_Zopp]; [|exact A].
  change (Z.neg (fst (shl_align m e ez))) with (- Z.pos (fst (shl_align m e ez)))%Z.
  change (Z.neg m) with (- Z.pos m)%Z.
  rewrite !inject_Z_opp. lra.
Qed.

Lemma SF64add_srounded (x y : spec_float) :
  valid_binary x = true -> valid_binary y = true ->
  sfinite x -> sfinite y ->
  srounded (SFvalue x + SFvalue y) (SF64add x y).
Proof.
  intros Vx Vy Fx Fy.
  destruct x as [sx|sx| |sx mx ex]; cbn [sfinite] in Fx; try contradiction;
  destruct y as [sy|sy| |sy my ey]; cbn [sfinite] in Fy; try contradiction.
  - apply srounded_of_nonneg. left. split; [cbn [SFvalue]; ring|].
    cbn [SF64add SFadd]. destruct sx, sy; eexists; reflexivity.
  - apply (srounded_comp (SFvalue (S754_finite sy my ey))); [cbn [SFvalue]; ring|].
    apply srounded_fixed; [exact Vy|exact I].
  - apply (srounded_comp (SFvalue (S754_finite sx mx ex))); [cbn [SFvalue]; ring|].
    apply srounded_fixed; [exact Vx|exact I].
  - cbn [SF64add SFadd SFvalue].
    change (IntDef.Z.min ex ey) with (Z.min ex ey).
    set (ez := Z.min ex ey).
    pose proof (signed_aligned_value sx mx ex ez ltac:(unfold ez; lia)) as Ax.
    pose proof (signed_aligned_value sy my ey ez ltac:(unfold ez; lia)) as Ay.
    set (ax := cond_Zopp sx (Z.pos (fst (shl_align mx ex ez)))) in *.
    set (ay := cond_Zopp sy (Z.pos (fst (shl_align my ey ez)))) in *.
    assert (E : inject_Z (ax + ay) * bpow ez
                == inject_Z (cond_Zopp sx (Z.pos mx)) * bpow ex
                   + inject_Z (cond_Zopp sy (Z.pos my)) * bpow ey).
    { rewrite inject_Z_plus, Qmult_plus_distr_l, Ax, Ay. reflexivity. }
    cbv zeta.
    destruct (ax + ay)%Z as [|p|p]; cbn [binary_normalize].
    + apply srounded_of_nonneg. left. split; [|eexists; reflexivity].
      rewrite <- E. ring.
    + apply srounded_of_nonneg. right.
      destruct (binary_round_spec false p ez) as (r & Hr & Hv).
      exists r. split; [|exact Hv]. eapply rounds_comp; [|exact Hr]. exact E.
    + apply srounded_of_opp. right.
      destruct (binary_round_spec true p ez) as (r & Hr & Hv).
      exists r. split; [|apply round_valid_opp; exact Hv].
      eapply rounds_comp; [|exact Hr]. rewrite <- E.
      change (Z.neg p) with (- Z.pos p)%Z. rewrite inject_Z_opp. ring.
Qed.

(** *** Reading a decimal of either sign, and [round] *)

Lemma nearest_srounded (n : Z) (d : positive) :
  srounded (inject_Z n / inject_Z (Zpos d)) (Prim2SF (nearest n d)).
Proof.
  destruct n as [|p|p].
  - apply srounded_of_nonneg. left. split; [|exists false; reflexivity].
    unfold Qdiv. ring.
  - apply srounded_of_nonneg. apply nearest_rounded.
  - apply srounded_of_opp. unfold nearest.
    pose proof (SFdiv_core_spec p d 0 0) as S. cbv zeta in S.
    destruct (SFdiv_core_binary prec emax (Zpos p) 0 (Zpos d) 0) as [[q e] l].
    destruct S as (Pv & Hloc & Hpre).
    destruct (binary_round_aux_spec true q e l _ Pv Hloc Hpre) as (r & Hr & Hv).
    rewrite (Prim2SF_SF2Prim _ (proj2 Hv)).
    right. exists r. split; [|apply round_valid_opp; exact Hv].
    eapply rounds_comp; [|exact Hr]. rewrite bpow_0.
    change (Z.neg p) with (- Z.pos p)%Z. rewrite inject_Z_opp. field. discriminate.
Qed.

Lemma is_finite_sfinite (x : PrimFloat.float) :
  PrimFloat.is_finite x = true <-> sfinite (Prim2SF x).
Proof.
  unfold PrimFloat.is_finite, PrimFloat.is_nan, PrimFloat.is_infinity.
  rewrite !eqb_spec, abs_spec.
  change (Prim2SF PrimFloat.infinity) with (S754_infinity false).
  destruct (Prim2SF x) as [s|[|]| |[|] m e]; cbn [sfinite];
    unfold SFeqb; cbn [SFabs SFcompare];
    rewrite ?Z.compare_refl, ?Pos.compare_cont_refl; cbn;
    split; intro H; try exact I; try reflexivity; try discriminate; try contradiction.
Qed.

(** [round(x, 2)] of a finite double of either sign is the double nearest
    to the two-decimal number nearest to [x]. *)
Lemma float_round_srounded (x : PrimFloat.float) :
  sfinite (Prim2SF x) ->
  srounded (inject_Z (round_half_even (SFvalue (Prim2SF x) * 100)) / 100)
           (Prim2SF (float_round x 2)).
Proof.
  intro F. unfold float_round. rewrite (proj2 (is_finite_sfinite x) F).
  cbn [negb]. change (323 <? 2)%nat with false. cbv iota.
  change (10 ^ Z.of_nat 2)%Z with 100%Z. change (inject_Z 100) with 100.
  rewrite (round_half_even_comp (F2Q x * 100) (SFvalue (Prim2SF x) * 100))
    by (rewrite F2Q_value; reflexivity).
  destruct (round_half_even (SFvalue (Prim2SF x) * 100)) as [|p|p] eqn:E.
  - apply srounded_of_nonneg. left. split; [reflexivity|apply copysign0_zero].
  - change (Z.to_pos 100) with 100%positive. apply (nearest_srounded (Z.pos p) 100).
  - change (Z.to_pos 100) with 100%positive. apply (nearest_srounded (Z.neg p) 100).
Qed.

(** *** The order of machine doubles of either sign *)

Lemma fle_fnum (x y : PrimFloat.float) : fle x y -> fnum x /\ fnum y.
Proof. apply SFleb_notnan. Qed.

Lemma fle_srank (x y : PrimFloat.float) :
  fnum x -> fnum y -> (fle x y <-> srank (Prim2SF x) <= srank (Prim2SF y)).
Proof. intros Nx Ny. apply SFleb_srank; try apply Prim2SF_valid; assumption. Qed.

Lemma fltb_srank (x y : PrimFloat.float) :
  fnum x -> fnum y ->
  (PrimFloat.ltb x y = true <-> srank (Prim2SF x) < srank (Prim2SF y)).
Proof.
  intros Nx Ny. rewrite ltb_spec.
  apply SFltb_srank; try apply Prim2SF_valid; assumption.
Qed.

Lemma fle_never_ltb (x y : PrimFloat.float) : fle x y -> PrimFloat.ltb y x = false.
Proof.
  intro L. destruct (fle_fnum x y L) as [Nx Ny].
  apply (fle_srank x y Nx Ny) in L.
  destruct (PrimFloat.ltb y x) eqn:K; [|reflexivity].
  apply (fltb_srank y x Ny Nx) in K. lra.
Qed.

Lemma fle_refl_fnum (x : PrimFloat.float) : fnum x -> fle x x.
Proof. intro N. apply (fle_srank x x N N). apply Qle_refl. Qed.

Lemma fnum_or_fnan (x : PrimFloat.float) : fnum x \/ fnan x.
Proof.
  unfold fnum, fnan. destruct (Prim2SF x); cbn; auto.
Qed.

Lemma SFleb_bottom (y : spec_float) : notnan y -> SFleb (S754_infinity true) y = true.
Proof. destruct y as [s|[|]| |[|] m e]; cbn; intro H; try contradiction; reflexivity. Qed.

Lemma SFleb_top (x : spec_float) : notnan x -> SFleb x (S754_infinity false) = true.
Proof. destruct x as [s|[|]| |[|] m e]; cbn; intro H; try contradiction; reflexivity. Qed.

(** Two ordered doubles: the smaller is minus infinity, the larger is plus
    infinity, or both are finite with ordered values. *)
Lemma sle_cases (x y : spec_float) :
  valid_binary x = true -> valid_binary y = true -> SFleb x y = true ->
  x = S754_infinity true \/ y = S754_infinity false
  \/ (sfinite x /\ sfinite y /\ SFvalue x <= SFvalue y).
Proof.
  intros Vx Vy L. destruct (SFleb_notnan x y L) as [Nx Ny].
  apply (SFleb_srank x y Vx Vy Nx Ny) in L.
  pose proof (bpow_pos emax) as B.
  destruct (notnan_sfinite x Nx) as [Ex|[Fx|Ex]]; [left; exact Ex| |];
    (destruct (notnan_sfinite y Ny) as [Ey|[Fy|Ey]]; [| |right; left; exact Ey]).
  - exfalso. destruct (srank_sfinite x Vx Fx) as (E & A & _). rewrite E in L.
    subst y. cbn [srank] in L. lra.
  - right; right. destruct (srank_sfinite x Vx Fx) as (E & _). rewrite E in L.
    destruct (srank_sfinite y Vy Fy) as (E' & _). rewrite E' in L.
    split; [exact Fx|]. split; [exact Fy|exact L].
  - exfalso. subst x y. cbn [srank] in L. lra.
  - exfalso. destruct (srank_sfinite y Vy Fy) as (E & _ & A). rewrite E in L.
    subst x. cbn [srank] in L. lra.
Qed.

Lemma SFleb_not_top (x y : spec_float) :
  valid_binary x = true -> valid_binary y = true ->
  SFleb x y = true -> y <> S754_infinity false -> x <> S754_infinity false.
Proof.
  intros Vx Vy L Ny Ex.
  destruct (sle_cases x y Vx Vy L) as [E|[E|(F & _)]].
  - rewrite Ex in E. discriminate.
  - contradiction.
  - rewrite Ex in F. exact F.
Qed.

(** *** Division and multiplication by a positive constant *)

Lemma SF64div_notnan (x : spec_float) (m : positive) (e : Z) :
  notnan x -> notnan (SF64div x (S754_finite false m e)).
Proof.
  intro N. destruct (notnan_sfinite x N) as [->|[F| ->]]; try exact I.
  apply (srounded_valid _ _ (SF64div_srounded x m e F)).
Qed.

Lemma fdiv_smono (x x' c : PrimFloat.float) :
  fpositive c -> fle x x' -> fle (PrimFloat.div x c) (PrimFloat.div x' c).
Proof.
  intros (m & e & Hc) L. unfold fle in *. rewrite !div_spec, Hc.
  destruct (SFleb_notnan _ _ L) as [Nx Nx'].
  destruct (sle_cases _ _ (Prim2SF_valid x) (Prim2SF_valid x') L) as [E|[E|(F & F' & Lv)]].
  - rewrite E. apply SFleb_bottom. apply SF64div_notnan. exact Nx'.
  - rewrite E. apply SFleb_top. apply SF64div_notnan. exact Nx.
  - eapply srounded_le;
      [apply SF64div_srounded; exact F|apply SF64div_srounded; exact F'|].
    pose proof (bpow_pos e). assert (0 < inject_Z (Z.pos m)) by reflexivity.
    apply Qmult_le_compat_r; [exact Lv|].
    apply Qlt_le_weak, Qinv_lt_0_compat. nra.
Qed.

Lemma SF64mul_notnan (x : spec_float) (m : positive) (e : Z) :
  valid_binary x = true -> valid_binary (S754_finite false m e) = true ->
  notnan x -> notnan (SF64mul x (S754_finite false m e)).
Proof.
  intros Vx Vc N. destruct (notnan_sfinite x N) as [->|[F| ->]]; try exact I.
  apply (srounded_valid _ _ (SF64mul_srounded x _ Vx Vc F I)).
Qed.

Lemma fmul_smono (x x' c : PrimFloat.float) :
  fpositive c -> fle x x' -> fle (PrimFloat.mul x c) (PrimFloat.mul x' c).
Proof.
  intros (m & e & Hc) L. unfold fle in *.
  pose proof (Prim2SF_valid c) as Vc. rewrite !mul_spec, Hc in *.
  destruct (SFleb_notnan _ _ L) as [Nx Nx'].
  pose proof (Prim2SF_valid x) as Vx. pose proof (Prim2SF_valid x') as Vx'.
  destruct (sle_cases _ _ Vx Vx' L) as [E|[E|(F & F' & Lv)]].
  - rewrite E. apply SFleb_bottom. apply SF64mul_notnan; assumption.
  - rewrite E. apply SFleb_top. apply SF64mul_notnan; assumption.
  - eapply srounded_le;
      [apply SF64mul_srounded; try assumption; exact I
      |apply SF64mul_srounded; try assumption; exact I|].
    cbn [SFvalue cond_Zopp].
    pose proof (bpow_pos e). assert (0 < inject_Z (Z.pos m)) by reflexivity.
    apply Qmult_le_compat_r; [exact Lv|]. nra.
Qed.

(** *** The smaller of a double and a constant *)

Lemma fpy_min_smono (q q' o : PrimFloat.float) :
  fnum o -> fle q q' ->
  fle (py_min q o) (py_min q' o) /\ fle (py_min q' o) o.
Proof.
  intros No L. destruct (fle_fnum q q' L) as [Nq Nq'].
  pose proof (proj1 (fle_srank q q' Nq Nq') L) as R.
  unfold py_min. cbn [ltb Num_float].
  pose proof (fltb_srank o q No Nq) as T. pose proof (fltb_srank o q' No Nq') as T'.
  destruct (PrimFloat.ltb o q) eqn:K; destruct (PrimFloat.ltb o q') eqn:K'.
  - split; apply fle_refl_fnum; exact No.
  - exfalso. pose proof (proj1 T eq_refl).
    assert (~ srank (Prim2SF o) < srank (Prim2SF q')) by (intro X; apply T' in X; discriminate).
    lra.
  - assert (~ srank (Prim2SF o) < srank (Prim2SF q)) by (intro X; apply T in X; discriminate).
    split; [apply (fle_srank q o Nq No); lra|apply fle_refl_fnum; exact No].
  - assert (~ srank (Prim2SF o) < srank (Prim2SF q')) by (intro X; apply T' in X; discriminate).
    split; [exact L|apply (fle_srank q' o Nq' No); lra].
Qed.

(** *** Addition *)

Lemma SF64add_bottom_l (y : spec_float) :
  notnan y -> y <> S754_infinity false ->
  SF64add (S754_infinity true) y = S754_infinity true.
Proof.
  destruct y as [s|[|]| |[|] m e]; cbn; intros N K; try contradiction; reflexivity.
Qed.

Lemma SF64add_bottom_r (x : spec_float) :
  notnan x -> x <> S754_infinity false ->
  SF64add x (S754_infinity true) = S754_infinity true.
Proof.
  destruct x as [s|[|]| |[|] m e]; cbn; intros N K; try contradiction; reflexivity.
Qed.

Lemma SF64add_notnan (x y : spec_float) :
  valid_binary x = true -> valid_binary y = true ->
  notnan x -> notnan y -> x <> S754_infinity false -> y <> S754_infinity false ->
  notnan (SF64add x y).
Proof.
  intros Vx Vy Nx Ny Kx Ky.
  destruct (notnan_sfinite x Nx) as [Ex|[Fx|Ex]]; [| |contradiction].
  - subst x. rewrite (SF64add_bottom_l y Ny Ky). exact I.
  - destruct (notnan_sfinite y Ny) as [Ey|[Fy|Ey]]; [| |contradiction].
    + subst y. rewrite (SF64add_bottom_r x Nx Kx). exact I.
    + apply (srounded_valid _ _ (SF64add_srounded x y Vx Vy Fx Fy)).
Qed.

Lemma fadd_smono (a a' b b' : PrimFloat.float) :
  fle a a' -> fle b b' ->
  Prim2SF a' <> S754_infinity false -> Prim2SF b' <> S754_infinity false ->
  fle (PrimFloat.add a b) (PrimFloat.add a' b').
Proof.
  intros La Lb Ka' Kb'. unfold fle in *. rewrite !add_spec.
  pose proof (Prim2SF_valid a) as Va. pose proof (Prim2SF_valid a') as Va'.
  pose proof (Prim2SF_valid b) as Vb. pose proof (Prim2SF_valid b') as Vb'.
  destruct (SFleb_notnan _ _ La) as [Na Na'].
  destruct (SFleb_notnan _ _ Lb) as [Nb Nb'].
  pose proof (SFleb_not_top _ _ Va Va' La Ka') as Ka.
  pose proof (SFleb_not_top _ _ Vb Vb' Lb Kb') as Kb.
  pose proof (SF64add_notnan _ _ Va' Vb' Na' Nb' Ka' Kb') as N'.
  destruct (sle_cases _ _ Va Va' La) as [E|[E|(Fa & Fa' & La0)]]; [|contradiction|].
  - rewrite E in *. rewrite (SF64add_bottom_l _ Nb Kb). apply SFleb_bottom. exact N'.
  - destruct (sle_cases _ _ Vb Vb' Lb) as [E|[E|(Fb & Fb' & Lb0)]]; [|contradiction|].
    + rewrite E in *. rewrite (SF64add_bottom_r _ Na Ka). apply SFleb_bottom. exact N'.
    + eapply srounded_le;
        [apply SF64add_srounded; assumption|apply SF64add_srounded; assumption|].
      lra.
Qed.

(** *** [round] to two decimals *)

Lemma float_round_infinite (x : PrimFloat.float) :
  ~ sfinite (Prim2SF x) -> float_round x 2 = x.
Proof.
  intro K. unfold float_round.
  destruct (PrimFloat.is_finite x) eqn:F; [|reflexivity].
  exfalso. apply K. apply is_finite_sfinite. exact F.
Qed.

Lemma float_round_fnum (x : PrimFloat.float) : fnum x -> fnum (float_round x 2).
Proof.
  intro N. unfold fnum in *.
  destruct (notnan_sfinite _ N) as [E|[F|E]].
  - rewrite float_round_infinite; [exact N|rewrite E; exact (fun H => H)].
  - apply (srounded_valid _ _ (float_round_srounded x F)).
  - rewrite float_round_infinite; [exact N|rewrite E; exact (fun H => H)].
Qed.

Lemma fround_smono (x x' : PrimFloat.float) :
  fle x x' -> fle (float_round x 2) (float_round x' 2).
Proof.
  intro L. destruct (fle_fnum x x' L) as [N N'].
  pose proof (float_round_fnum x N) as R. pose proof (float_round_fnum x' N') as R'.
  unfold fle in *.
  destruct (sle_cases _ _ (Prim2SF_valid x) (Prim2SF_valid x') L) as [E|[E|(F & F' & Lv)]].
  - rewrite (float_round_infinite x) by (rewrite E; exact (fun H => H)).
    rewrite E. apply SFleb_bottom. exact R'.
  - rewrite (float_round_infinite x') by (rewrite E; exact (fun H => H)).
    rewrite E. apply SFleb_top. exact R.
  - eapply srounded_le;
      [apply float_round_srounded; exact F|apply float_round_srounded; exact F'|].
    apply Qmult_le_compat_r; [|discriminate].
    rewrite <- Zle_Qle. apply round_half_even_mono.
    apply Qmult_le_compat_r; [exact Lv|discriminate].
Qed.

(** *** nan goes through every operation of the score *)

Lemma fnan_div (x c : PrimFloat.float) : fnan x -> fnan (PrimFloat.div x c).
Proof. unfold fnan. intro E. rewrite div_spec, E. reflexivity. Qed.

Lemma fnan_mul (x c : PrimFloat.float) : fnan x -> fnan (PrimFloat.mul x c).
Proof. unfold fnan. intro E. rewrite mul_spec, E. reflexivity. Qed.

Lemma fnan_add_l (x y : PrimFloat.float) : fnan x -> fnan (PrimFloat.add x y).
Proof. unfold fnan. intro E. rewrite add_spec, E. reflexivity. Qed.

Lemma fnan_add_r (x y : PrimFloat.float) : fnan y -> fnan (PrimFloat.add x y).
Proof.
  unfold fnan. intro E. rewrite add_spec, E.
  destruct (Prim2SF x) as [s|[|]| |[|] m e]; reflexivity.
Qed.

Lemma fnan_py_min (q o : PrimFloat.float) : fnan q -> fnan (py_min q o).
Proof.
  unfold fnan. intro E. unfold py_min. cbn [ltb Num_float].
  rewrite ltb_spec, E.
  destruct (Prim2SF o) as [s|[|]| |[|] m e]; cbn; exact E.
Qed.

Lemma fnan_round (x : PrimFloat.float) : fnan x -> fnan (float_round x 2).
Proof.
  unfold fnan. intro E.
  rewrite float_round_infinite; [exact E|rewrite E; exact (fun H => H)].
Qed.

Lemma fnan_never_ltb (x y : PrimFloat.float) : fnan x -> PrimFloat.ltb y x = false.
Proof.
  unfold fnan. intro E. rewrite ltb_spec, E.
  destruct (Prim2SF y) as [s|[|]| |[|] m e]; reflexivity.
Qed.

(** *** The composite score on all doubles *)

Lemma lit25_positive : fpositive (lit 25).
Proof. closed_float. Qed.

Lemma lit25_finite : ffinite (lit 25).
Proof. closed_float. Qed.

Lemma lit50_finite : ffinite (PrimFloat.add (lit 25) (lit 25)).
Proof. closed_float. Qed.

Lemma lit75_finite : ffinite (PrimFloat.add (PrimFloat.add (lit 25) (lit 25)) (lit 25)).
Proof. closed_float. Qed.

Lemma mul_1_25 : PrimFloat.mul (lit 1) (lit 25) = lit 25.
Proof. closed_float. Qed.

Lemma ffinite_fnum (x : PrimFloat.float) : ffinite x -> fnum x.
Proof.
  unfold ffinite, fnum. destruct (Prim2SF x) as [s|[|]| |[|] m e]; cbn; tauto.
Qed.

Lemma fle_below_finite (x k : PrimFloat.float) :
  ffinite k -> fle x k -> Prim2SF x <> S754_infinity false.
Proof.
  intros F L.
  apply (SFleb_not_top _ _ (Prim2SF_valid x) (Prim2SF_valid k) L).
  intro E. unfold ffinite in F. rewrite E in F. exact F.
Qed.

(** One dimension of the score, [min(value / cap, 1) * 25], for every
    double: it never decreases, and it stays at or below 25. *)
Lemma share_smono (cap v v' : PrimFloat.float) :
  fpositive cap -> fle v v' ->
  fle (PrimFloat.mul (py_min (PrimFloat.div v cap) (lit 1)) (lit 25))
      (PrimFloat.mul (py_min (PrimFloat.div v' cap) (lit 1)) (lit 25))
  /\ fle (PrimFloat.mul (py_min (PrimFloat.div v' cap) (lit 1)) (lit 25)) (lit 25).
Proof.
  intros Pc L.
  assert (N1 : fnum (lit 1)) by (rewrite lit1_one; apply ffinite_fnum, one_finite).
  pose proof (fdiv_smono v v' cap Pc L) as Lq.
  destruct (fpy_min_smono _ _ (lit 1) N1 Lq) as [Lm Lm1].
  split; [apply fmul_smono; [exact lit25_positive|exact Lm]|].
  pose proof (fmul_smono _ _ (lit 25) lit25_positive Lm1) as B.
  rewrite mul_1_25 in B. exact B.
Qed.

Lemma share_fnan (cap v : PrimFloat.float) :
  fnan v -> fnan (PrimFloat.mul (py_min (PrimFloat.div v cap) (lit 1)) (lit 25)).
Proof. intro N. apply fnan_mul, fnan_py_min, fnan_div. exact N. Qed.

(** The score of larger doubles is at least the score of smaller ones,
    whatever their signs. *)
Lemma score_smono (g g' w w' s s' t t' : PrimFloat.float) :
  fle g g' -> fle w w' -> fle s s' -> fle t t' ->
  fle (combined_esg_scenario g w s t) (combined_esg_scenario g' w' s' t').
Proof.
  intros Lg Lw Ls Lt.
  unfold combined_esg_scenario. cbn [add mul div round Num_float].
  destruct (share_smono (lit 30) g g' lit30_positive Lg) as (La & Ba).
  destruct (share_smono (lit 50) w w' lit50_positive Lw) as (Lb & Bb).
  destruct (share_smono (lit 50) s s' lit50_positive Ls) as (Lc & Bc).
  destruct (share_smono (lit 10) t t' lit10_positive Lt) as (Ld & Bd).
  set (a := PrimFloat.mul (py_min (PrimFloat.div g (lit 30)) (lit 1)) (lit 25)) in *.
  set (a' := PrimFloat.mul (py_min (PrimFloat.div g' (lit 30)) (lit 1)) (lit 25)) in *.
  set (b := PrimFloat.mul (py_min (PrimFloat.div w (lit 50)) (lit 1)) (lit 25)) in *.
  set (b' := PrimFloat.mul (py_min (PrimFloat.div w' (lit 50)) (lit 1)) (lit 25)) in *.
  set (c := PrimFloat.mul (py_min (PrimFloat.div s (lit 50)) (lit 1)) (lit 25)) in *.
  set (c' := PrimFloat.mul (py_min (PrimFloat.div s' (lit 50)) (lit 1)) (lit 25)) in *.
  set (d := PrimFloat.mul (py_min (PrimFloat.div t (lit 10)) (lit 1)) (lit 25)) in *.
  set (d' := PrimFloat.mul (py_min (PrimFloat.div t' (lit 10)) (lit 1)) (lit 25)) in *.
  pose proof (fle_below_finite _ _ lit25_finite Ba) as Ka.
  pose proof (fle_below_finite _ _ lit25_finite Bb) as Kb.
  pose proof (fle_below_finite _ _ lit25_finite Bc) as Kc.
  pose proof (fle_below_finite _ _ lit25_finite Bd) as Kd.
  pose proof (fle_below_finite _ _ lit25_finite (fle_refl_fnum _ (ffinite_fnum _ lit25_finite)))
    as K25.
  (* a + b *)
  pose proof (fadd_smono a a' b b' La Lb Ka Kb) as L1.
  pose proof (fadd_smono a' (lit 25) b' (lit 25) Ba Bb K25 K25) as B1.
  pose proof (fle_below_finite _ _ lit50_finite B1) as K1.
  pose proof (fle_below_finite _ _ lit50_finite
                (fle_refl_fnum _ (ffinite_fnum _ lit50_finite))) as K50.
  (* (a + b) + c *)
  pose proof (fadd_smono _ _ c c' L1 Lc K1 Kc) as L2.
  pose proof (fadd_smono _ _ c' (lit 25) B1 Bc K50 K25) as B2.
  pose proof (fle_below_finite _ _ lit75_finite B2) as K2.
  (* ((a + b) + c) + d, and round(total, 2) *)
  pose proof (fadd_smono _ _ d d' L2 Ld K2 Kd) as L3.
  apply fround_smono. exact L3.
Qed.

(** nan in any argument gives nan. *)
Lemma score_fnan (g w s t : PrimFloat.float) :
  fnan g \/ fnan w \/ fnan s \/ fnan t -> fnan (combined_esg_scenario g w s t).
Proof.
  intro H. unfold combined_esg_scenario. cbn [add mul div round Num_float].
  apply fnan_round.
  destruct H as [H|[H|[H|H]]].
  - do 3 apply fnan_add_l. apply share_fnan. exact H.
  - do 2 apply fnan_add_l. apply fnan_add_r. apply share_fnan. exact H.
  - apply fnan_add_l. apply fnan_add_r. apply share_fnan. exact H.
  - apply fnan_add_r. apply share_fnan. exact H.
Qed.

(** Raising the arguments never lowers the score, also when an argument
    that is held fixed is nan. *)
Lemma score_never_lower (g g' w w' s s' t t' : PrimFloat.float) :
  (fle g g' \/ g = g') -> (fle w w' \/ w = w') ->
  (fle s s' \/ s = s') -> (fle t t' \/ t = t') ->
  PrimFloat.ltb (combined_esg_scenario g' w' s' t') (combined_esg_scenario g w s t)
  = false.
Proof.
  assert (R : forall x x', fle x x' \/ x = x' -> fle x x' \/ fnan x).
  { intros x x' [L|E]; [left; exact L|].
    destruct (fnum_or_fnan x) as [N|N]; [left; rewrite <- E; apply fle_refl_fnum; exact N
                                        |right; exact N]. }
  intros Hg Hw Hs Ht. apply R in Hg, Hw, Hs, Ht.
  destruct Hg as [Lg|Ng]; [|apply fnan_never_ltb, score_fnan; auto].
  destruct Hw as [Lw|Nw]; [|apply fnan_never_ltb, score_fnan; auto].
  destruct Hs as [Ls|Ns]; [|apply fnan_never_ltb, score_fnan; auto].
  destruct Ht as [Lt|Nt]; [|apply fnan_never_ltb, score_fnan; auto].
  apply fle_never_ltb. apply score_smono; assumption.
Qed.

(** *** nan, by the test of the machine *)

Lemma SFcompare_refl (x : spec_float) : notnan x -> SFcompare x x = Some Eq.
Proof.
  destruct x as [s|[|]| |[|] m e]; cbn [notnan SFcompare]; intro N;
    try contradiction; try reflexivity;
    rewrite Z.compare_refl, Pos.compare_cont_refl; reflexivity.
Qed.

Lemma is_nan_fnan (x : PrimFloat.float) : PrimFloat.is_nan x = true <-> fnan x.
Proof.
  unfold PrimFloat.is_nan, fnan. rewrite eqb_spec. unfold SFeqb.
  destruct (Prim2SF x) as [s|s| |s m e] eqn:E;
    try (rewrite SFcompare_refl by exact I; cbn; split; intro K; discriminate K).
  cbn. split; reflexivity.
Qed.

Lemma is_nan_fnum (x : PrimFloat.float) : PrimFloat.is_nan x = false <-> fnum x.
Proof.
  destruct (fnum_or_fnan x) as [N|N].
  - split; [intro; exact N|]. intros _.
    destruct (PrimFloat.is_nan x) eqn:K; [|reflexivity].
    apply is_nan_fnan in K. unfold fnum, fnan in *. rewrite K in N. contradiction.
  - pose proof (proj2 (is_nan_fnan x) N) as K. rewrite K.
    split; [discriminate|]. intro M. unfold fnum, fnan in *. rewrite N in M. contradiction.
Qed.

(** The score of any four numbers is at most 100. *)
Lemma score_at_most_100 (g w s t : PrimFloat.float) :
  fnum g -> fnum w -> fnum s -> fnum t ->
  fle (combined_esg_scenario g w s t) (lit 100).
Proof.
  intros Ng Nw Ns Nt.
  unfold combined_esg_scenario. cbn [add mul div round Num_float].
  destruct (share_smono (lit 30) g g lit30_positive (fle_refl_fnum g Ng)) as (_ & Ba).
  destruct (share_smono (lit 50) w w lit50_positive (fle_refl_fnum w Nw)) as (_ & Bb).
  destruct (share_smono (lit 50) s s lit50_positive (fle_refl_fnum s Ns)) as (_ & Bc).
  destruct (share_smono (lit 10) t t lit10_positive (fle_refl_fnum t Nt)) as (_ & Bd).
  set (a := PrimFloat.mul (py_min (PrimFloat.div g (lit 30)) (lit 1)) (lit 25)) in *.
  set (b := PrimFloat.mul (py_min (PrimFloat.div w (lit 50)) (lit 1)) (lit 25)) in *.
  set (c := PrimFloat.mul (py_min (PrimFloat.div s (lit 50)) (lit 1)) (lit 25)) in *.
  set (d := PrimFloat.mul (py_min (PrimFloat.div t (lit 10)) (lit 1)) (lit 25)) in *.
  pose proof (fle_refl_fnum _ (ffinite_fnum _ lit25_finite)) as R25.
  pose proof (fle_below_finite _ _ lit25_finite R25) as K25.
  pose proof (fle_below_finite _ _ lit50_finite
                (fle_refl_fnum _ (ffinite_fnum _ lit50_finite))) as K50.
  pose proof (fle_below_finite _ _ lit75_finite
                (fle_refl_fnum _ (ffinite_fnum _ lit75_finite))) as K75.
  pose proof (fadd_smono a (lit 25) b (lit 25) Ba Bb K25 K25) as B1.
  pose proof (fadd_smono _ _ c (lit 25) B1 Bc K50 K25) as B2.
  pose proof (fadd_smono _ _ d (lit 25) B2 Bd K75 K25) as B3.
  apply fround_smono in B3.
  assert (X : float_round (PrimFloat.add (PrimFloat.add (PrimFloat.add (lit 25) (lit 25))
                                                        (lit 25)) (lit 25)) 2
              = lit 100) by (vm_compute; reflexivity).
  rewrite X in B3. exact B3.
Qed.

End SignedDoubles.

(** C3, amended.  For every four parameters and in every arithmetic, exact
    or binary64, [combined_esg_scenario] returns the sum over the four
    dimensions of [min(value/cap, 1) * 25], with the caps 30, 50, 50 and 10,
    rounded to two decimals.  The result is at most 100 for every four
    parameters: in exact arithmetic, and in binary64 for all doubles but nan,
    whatever their signs.  When the four parameters are non-negative the
    result lies in [[0,100]]: in exact arithmetic, and in binary64 for every
    four non-negative doubles (plus infinity included).  The scores of
    [(30,50,50,10)], [(0,0,0,0)] and [(60,100,100,100)] are 100, 0 and 100,
    in exact arithmetic and in binary64. *)
Theorem esg_score_formula_and_range :
  (forall (A : Type) (N : Num A) (g w s t : A),
      combined_esg_scenario g w s t
      = round (py_min (g / lit 30) (lit 1) * lit 25
               + py_min (w / lit 50) (lit 1) * lit 25
               + py_min (s / lit 50) (lit 1) * lit 25
               + py_min (t / lit 10) (lit 1) * lit 25)%num 2)
  /\ (forall g w s t : Q,
         combined_esg_scenario g w s t == esg_score_spec g w s t)
  /\ (forall g w s t : Q,
         0 <= g -> 0 <= w -> 0 <= s -> 0 <= t ->
         0 <= combined_esg_scenario g w s t <= 100)
  /\ (combined_esg_scenario 30 50 50 10 == 100
      /\ combined_esg_scenario 0 0 0 0 == 0
      /\ combined_esg_scenario 60 100 100 100 == 100)
  /\ (combined_esg_scenario (A := PrimFloat.float) (lit 30) (lit 50) (lit 50) (lit 10)
      = lit 100
      /\ combined_esg_scenario (A := PrimFloat.float) (lit 0) (lit 0) (lit 0) (lit 0)
         = lit 0
      /\ combined_esg_scenario (A := PrimFloat.float) (lit 60) (lit 100) (lit 100) (lit 100)
         = lit 100)
  /\ (forall g w s t : PrimFloat.float,
        PrimFloat.leb (lit 0) g = true -> PrimFloat.leb (lit 0) w = true ->
        PrimFloat.leb (lit 0) s = true -> PrimFloat.leb (lit 0) t = true ->
        PrimFloat.leb (lit 0) (combined_esg_scenario g w s t) = true
        /\ PrimFloat.leb (combined_esg_scenario g w s t) (lit 100) = true)
  /\ (forall g w s t : Q, combined_esg_scenario g w s t <= 100)
  /\ (forall g w s t : PrimFloat.float,
        PrimFloat.is_nan g = false -> PrimFloat.is_nan w = false ->
        PrimFloat.is_nan s = false -> PrimFloat.is_nan t = false ->
        PrimFloat.leb (combined_esg_scenario g w s t) (lit 100) = true).
Proof.
  split; [|split; [|split; [|split; [|split; [|split; [|split]]]]]].
  - intros A N g w s t. reflexivity.
  - intros g w s t. apply score_refines_spec.
  - intros g w s t Hg Hw Hs Ht.
    rewrite score_refines_spec. unfold esg_score_spec.
    pose proof (share_bounds g 30 Hg) as Bg.
    pose proof (share_bounds w 50 Hw) as Bw.
    pose proof (share_bounds s 50 Hs) as Bs.
    pose proof (share_bounds t 10 Ht) as Bt.
    split.
    + apply Qle_trans with (Qround 0 2); [by_eval|]. apply Qround_mono. lra.
    + apply Qle_trans with (Qround 100 2); [|by_eval]. apply Qround_mono. lra.
  - by_eval.
  - by_eval.
  - intros g w s t Hg Hw Hs Ht.
    change (lit 0) with PrimFloat.zero in *.
    apply fnonneg_leb in Hg, Hw, Hs, Ht.
    destruct (score_float_mono g g w w s s t t Hg Hw Hs Ht
                (fle_refl g Hg) (fle_refl w Hw) (fle_refl s Hs) (fle_refl t Ht))
      as (N & _ & B).
    split; [apply fnonneg_leb, N|apply fle_leb, B].
  - intros g w s t. rewrite score_refines_spec. unfold esg_score_spec.
    apply Qle_trans with (Qround 100 2); [|by_eval]. apply Qround_mono.
    pose proof (Q.le_min_r (g / 30) 1). pose proof (Q.le_min_r (w / 50) 1).
    pose proof (Q.le_min_r (s / 50) 1). pose proof (Q.le_min_r (t / 10) 1).
    lra.
  - intros g w s t Ng Nw Ns Nt. apply is_nan_fnum in Ng, Nw, Ns, Nt.
    apply fle_leb. apply score_at_most_100; assumption.
Qed.

(** Witness of C3: the default positions of the four sliders, in exact
    arithmetic and in binary64; and a negative and an infinite argument in
    binary64. *)
Lemma esg_score_formula_and_range_witness :
  0 <= combined_esg_scenario 10 10 20 5 <= 100
  /\ (PrimFloat.leb (lit 0)
        (combined_esg_scenario (A := PrimFloat.float) (lit 10) (lit 10) (lit 20) (lit 5))
      = true
      /\ PrimFloat.leb
           (combined_esg_scenario (A := PrimFloat.float) (lit 10) (lit 10) (lit 20) (lit 5))
           (lit 100)
         = true)
  /\ PrimFloat.leb
       (combined_esg_scenario (A := PrimFloat.float)
          (lit (-1000)) PrimFloat.infinity (lit 20) (lit 5))
       (lit 100) = true.
Proof.
  assert (Ng : PrimFloat.is_nan (lit (-1000)) = false) by by_eval.
  assert (Nw : PrimFloat.is_nan PrimFloat.infinity = false) by by_eval.
  assert (Ns : PrimFloat.is_nan (lit 20) = false) by by_eval.
  assert (Nt : PrimFloat.is_nan (lit 5) = false) by by_eval.
  split; [|split].
  - apply (proj1 (proj2 (proj2 esg_score_formula_and_range)) 10 10 20 5); by_eval.
  - apply (proj1 (proj2 (proj2 (proj2 (proj2 (proj2 esg_score_formula_and_range)))))
             (lit 10) (lit 10) (lit 20) (lit 5)); by_eval.
  - exact (proj2 (proj2 (proj2 (proj2 (proj2 (proj2 (proj2 esg_score_formula_and_range))))))
             (lit (-1000)) PrimFloat.infinity (lit 20) (lit 5) Ng Nw Ns Nt).
Defined.

(** Counterexample to C3 as stated ("for every four input parameters"): a
    negative parameter gives a negative score, [-25] for [(-30, 0, 0, 0)],
    in exact arithmetic and in binary64. *)
Lemma esg_score_negative_counterexample :
  combined_esg_scenario (-30) 0 0 0 == -25
  /\ ~ (0 <= combined_esg_scenario (-30) 0 0 0 <= 100)
  /\ combined_esg_scenario (A := PrimFloat.float) (lit (-30)) (lit 0) (lit 0) (lit 0)
     = lit (-25).
Proof.
  split; [by_eval|split].
  - intros [H0 _]. vm_compute in H0. apply H0. reflexivity.
  - vm_compute. reflexivity.
Qed.

(** C10.  [combined_esg_scenario] is non-decreasing in each of its four
    arguments: with the other three fixed, a larger argument never gives a
    smaller score.  In exact arithmetic this holds for all rationals.  In
    binary64, where every operation of the score rounds, it holds for all
    doubles, whatever their signs, infinities included: raising arguments
    gives a score that is at least the former one, and when an argument
    held fixed is nan (both scores are nan then) the score is still never
    smaller. *)
Theorem esg_score_monotone :
  (forall g g' w w' s s' t t' : Q,
      g <= g' -> w <= w' -> s <= s' -> t <= t' ->
      combined_esg_scenario g w s t <= combined_esg_scenario g' w s t
      /\ combined_esg_scenario g w s t <= combined_esg_scenario g w' s t
      /\ combined_esg_scenario g w s t <= combined_esg_scenario g w s' t
      /\ combined_esg_scenario g w s t <= combined_esg_scenario g w s t')
  /\ (forall g g' w w' s s' t t' : PrimFloat.float,
        PrimFloat.leb g g' = true -> PrimFloat.leb w w' = true ->
        PrimFloat.leb s s' = true -> PrimFloat.leb t t' = true ->
        PrimFloat.leb (combined_esg_scenario g w s t)
                      (combined_esg_scenario g' w s t) = true
        /\ PrimFloat.leb (combined_esg_scenario g w s t)
                         (combined_esg_scenario g w' s t) = true
        /\ PrimFloat.leb (combined_esg_scenario g w s t)
                         (combined_esg_scenario g w s' t) = true
        /\ PrimFloat.leb (combined_esg_scenario g w s t)
                         (combined_esg_scenario g w s t') = true
        /\ PrimFloat.leb (combined_esg_scenario g w s t)
                         (combined_esg_scenario g' w' s' t') = true)
  /\ (forall g g' w s t : PrimFloat.float,
        PrimFloat.leb g g' = true ->
        PrimFloat.ltb (combined_esg_scenario g' w s t)
                      (combined_esg_scenario g w s t) = false)
  /\ (forall g w w' s t : PrimFloat.float,
        PrimFloat.leb w w' = true ->
        PrimFloat.ltb (combined_esg_scenario g w' s t)
                      (combined_esg_scenario g w s t) = false)
  /\ (forall g w s s' t : PrimFloat.float,
        PrimFloat.leb s s' = true ->
        PrimFloat.ltb (combined_esg_scenario g w s' t)
                      (combined_esg_scenario g w s t) = false)
  /\ (forall g w s t t' : PrimFloat.float,
        PrimFloat.leb t t' = true ->
        PrimFloat.ltb (combined_esg_scenario g w s t')
                      (combined_esg_scenario g w s t) = false).
Proof.
  split; [|split; [|split; [|split; [|split]]]].
  - intros g g' w w' s s' t t' Hg Hw Hs Ht.
    rewrite !score_refines_spec.
    repeat split; apply score_spec_mono; assumption || apply Qle_refl.
  - intros g g' w w' s s' t t' Lg Lw Ls Lt.
    apply fle_leb in Lg, Lw, Ls, Lt.
    pose proof (fle_refl_fnum g (proj1 (fle_fnum _ _ Lg))) as Rg.
    pose proof (fle_refl_fnum w (proj1 (fle_fnum _ _ Lw))) as Rw.
    pose proof (fle_refl_fnum s (proj1 (fle_fnum _ _ Ls))) as Rs.
    pose proof (fle_refl_fnum t (proj1 (fle_fnum _ _ Lt))) as Rt.
    split; [|split; [|split; [|split]]]; apply fle_leb; apply score_smono; assumption.
  - intros g g' w s t L. apply fle_leb in L. apply score_never_lower; auto.
  - intros g w w' s t L. apply fle_leb in L. apply score_never_lower; auto.
  - intros g w s s' t L. apply fle_leb in L. apply score_never_lower; auto.
  - intros g w s t t' L. apply fle_leb in L. apply score_never_lower; auto.
Qed.

(** Witness of C10: each slider moved up from its default position in exact
    arithmetic; in binary64, arguments raised from negative values; and one
    argument raised while another is nan. *)
Lemma esg_score_monotone_witness :
  (combined_esg_scenario 10 10 20 5 <= combined_esg_scenario 20 10 20 5
   /\ combined_esg_scenario 10 10 20 5 <= combined_esg_scenario 10 30 20 5
   /\ combined_esg_scenario 10 10 20 5 <= combined_esg_scenario 10 10 40 5
   /\ combined_esg_scenario 10 10 20 5 <= combined_esg_scenario 10 10 20 7)
  /\ PrimFloat.leb
       (combined_esg_scenario (A := PrimFloat.float)
          (lit (-30)) (lit (-0.03)) (lit 20) (lit 5))
       (combined_esg_scenario (A := PrimFloat.float)
          (lit (-10)) (lit 30) (lit 40) (lit 7))
     = true
  /\ PrimFloat.ltb
       (combined_esg_scenario (A := PrimFloat.float)
          (lit 20) PrimFloat.nan (lit 20) (lit 5))
       (combined_esg_scenario (A := PrimFloat.float)
          (lit (-30)) PrimFloat.nan (lit 20) (lit 5))
     = false.
Proof.
  assert (Hg : PrimFloat.leb (lit (-30)) (lit (-10)) = true) by by_eval.
  assert (Hw : PrimFloat.leb (lit (-0.03)) (lit 30) = true) by by_eval.
  assert (Hs : PrimFloat.leb (lit 20) (lit 40) = true) by by_eval.
  assert (Ht : PrimFloat.leb (lit 5) (lit 7) = true) by by_eval.
  assert (Hn : PrimFloat.leb (lit (-30)) (lit 20) = true) by by_eval.
  split; [|split].
  - apply (proj1 esg_score_monotone 10 20 10 30 20 40 5 7); by_eval.
  - exact (proj2 (proj2 (proj2 (proj2
             (proj1 (proj2 esg_score_monotone)
                (lit (-30)) (lit (-10)) (lit (-0.03)) (lit 30)
                (lit 20) (lit 40) (lit 5) (lit 7) Hg Hw Hs Ht))))).
  - exact (proj1 (proj2 (proj2 esg_score_monotone))
             (lit (-30)) (lit 20) PrimFloat.nan (lit 20) (lit 5) Hn).
Defined.

(** * Further properties of the engine

    The laws above are the ones the specification states.  The sections
    below read further properties off the code: the direction in which each
    transform moves its column, what a parameter below one step does, what
    the score does at and above its caps, and how missing values travel. *)

(** ** Frames mapped twice *)

Lemma Forall2_map_map {X Y : Type} (P : X -> Prop) (R : Y -> Y -> Prop)
      (f g : X -> Y) (l : list X) :
  (forall x, P x -> R (f x) (g x)) -> Forall P l -> Forall2 R (map f l) (map g l).
Proof.
  intros HR HP. induction HP as [|x l Hx Hl IH]; cbn [map]; constructor; auto.
Qed.

Lemma Forall2_map_l_if {X Y : Type} (P : X -> Prop) (R : X -> Y -> Prop)
      (f : X -> Y) (l : list X) :
  (forall x, P x -> R x (f x)) -> Forall P l -> Forall2 R l (map f l).
Proof.
  intros HR HP. induction HP as [|x l Hx Hl IH]; cbn [map]; constructor; auto.
Qed.

(** ** More on the order of doubles *)

Section DoublesOrder.
Import SpecFloat FloatOps FloatAxioms.
Local Open Scope Q_scope.

(** Multiplication is monotone in its second factor. *)
Lemma fmul_mono_r (x c c' : PrimFloat.float) :
  ffinite x -> ffinite c' -> fnonneg c -> fle c c' ->
  fnonneg (PrimFloat.mul x c) /\ fle (PrimFloat.mul x c) (PrimFloat.mul x c').
Proof.
  intros Fx Fc' Nc L.
  pose proof (fle_finite c c' Nc L Fc') as Fc.
  pose proof (proj1 (fle_value c c' Fc Fc') L) as Lv.
  pose proof (SFvalue_nonneg _ Fx) as Px.
  unfold fnonneg, fle, ffinite in *. rewrite !mul_spec.
  pose proof (SF64mul_rounded _ _ (Prim2SF_valid x) (Prim2SF_valid c) Fx Fc) as R.
  pose proof (SF64mul_rounded _ _ (Prim2SF_valid x) (Prim2SF_valid c') Fx Fc') as R'.
  split; [apply (rounded_nonneg _ _ R)|].
  eapply rounded_le; [exact R|exact R'|]. nra.
Qed.

(** Subtraction is antitone in what is subtracted. *)
Lemma fsub_anti (x y y' : PrimFloat.float) :
  ffinite x -> fnonneg y -> fle y y' -> fle y' x ->
  fle (PrimFloat.sub x y') (PrimFloat.sub x y).
Proof.
  intros Fx Ny L L'.
  pose proof (fle_nonneg y y' Ny L) as Ny'.
  pose proof (fle_finite y' x Ny' L' Fx) as Fy'.
  pose proof (fle_finite y y' Ny L Fy') as Fy.
  pose proof (proj1 (fle_value y y' Fy Fy') L) as Lv.
  pose proof (proj1 (fle_value y' x Fy' Fx) L') as Lv'.
  unfold fle, ffinite in *. rewrite !sub_spec.
  eapply rounded_le;
    [apply SF64sub_rounded; auto using Prim2SF_valid
    |apply SF64sub_rounded; auto using Prim2SF_valid; lra|lra].
Qed.

(** Two doubles of which the first is positive, the second is not below
    and not above it: they are the same double. *)
Lemma fle_antisym (a b : PrimFloat.float) :
  fpositive a -> fle a b -> PrimFloat.ltb a b = false -> b = a.
Proof.
  intros (m & e & Ea) L NL. apply Prim2SF_inj.
  unfold fle in L. rewrite ltb_spec in NL. rewrite Ea in *.
  unfold SFleb in L. unfold SFltb in NL.
  destruct (Prim2SF b) as [s|[|]| |[|] m' e']; cbn [SFcompare] in L, NL;
    try discriminate L; try discriminate NL.
  destruct (Z.compare e e') eqn:Ce; try discriminate NL; try discriminate L.
  apply Z.compare_eq in Ce. subst e'.
  destruct (Pos.compare_cont Eq m m') eqn:Cm; try discriminate NL; try discriminate L.
  apply Pos.compare_eq in Cm. subst m'. reflexivity.
Qed.

End DoublesOrder.

(** ** The GHG scenario: a larger reduction never gives larger emissions *)

Section GhgDirection.
Import SpecFloat FloatOps FloatAxioms.
Local Open Scope Q_scope.

Lemma scaled_antitone (x p p' : Q) :
  0 <= x -> p <= p' -> x * (1 - p' / 100) <= x * (1 - p / 100).
Proof. intros Hx Hp. rewrite !Qdiv_const. nra. Qed.

Lemma scaled64_antitone (x q q' : PrimFloat.float) :
  finite64 x -> fnonneg q -> fle q q' -> fle q' (lit 100) ->
  fle (x * (lit 1 - q' / lit 100))%num (x * (lit 1 - q / lit 100))%num.
Proof.
  intros Fx Nq L L'. apply finite64_ffinite in Fx.
  pose proof (fle_nonneg q q' Nq L) as Nq'.
  cbn [sub mul div Num_float]. rewrite lit1_one.
  destruct (fdiv_mono q q' (lit 100) lit100_positive Nq L) as [Nd Ld].
  destruct (fdiv_mono q' (lit 100) (lit 100) lit100_positive Nq' L') as [Nd' Ld'].
  rewrite div_100_100 in Ld'.
  assert (A : fle (PrimFloat.sub PrimFloat.one (PrimFloat.div q' (lit 100)))
                  (PrimFloat.sub PrimFloat.one (PrimFloat.div q (lit 100))))
    by (apply fsub_anti; [exact one_finite|exact Nd|exact Ld|exact Ld']).
  destruct (fsub_le PrimFloat.one _ one_finite Nd' Ld') as [Ns' _].
  destruct (fsub_le PrimFloat.one (PrimFloat.div q (lit 100)) one_finite Nd
              (fle_trans _ _ _ Nd Ld Ld')) as [Ns Ls].
  apply fmul_mono_r; [exact Fx| |exact Ns'|exact A].
  exact (fle_finite _ _ Ns Ls one_finite).
Qed.

Lemma ghg_scenario_zero64 (D : list (ghg_row PrimFloat.float)) :
  apply_ghg_scenario D (lit 0) = D.
Proof.
  unfold apply_ghg_scenario. apply map_id_ext. intros [y x]. unfold set_Scope12_GHG.
  cbn [ghg_Year Scope12_GHG]. f_equal.
  assert (E : (lit 1 - lit 0 / lit 100)%num = PrimFloat.one) by closed_float.
  rewrite E. apply float_mul_one_r.
Qed.

End GhgDirection.

(** X1.  In [apply_ghg_scenario], a larger percentage never gives larger
    emissions: for a frame of non-negative emissions and [p <= p'], every
    year's emissions at [p'] are at most those at [p], and for [0 <= p'] at
    most the baseline's.  In exact arithmetic this holds for all [p <= p']; in
    binary64 for finite emissions and [0 <= p <= p' <= 100]. *)
Theorem ghg_scenario_antitone :
  (forall (D : list (ghg_row Q)) (p p' : Q),
      p <= p' -> Forall nonneg_ghg D ->
      Forall2 (fun r r' => Scope12_GHG r' <= Scope12_GHG r)
              (apply_ghg_scenario D p) (apply_ghg_scenario D p')
      /\ (0 <= p' ->
          Forall2 (fun r r' => Scope12_GHG r' <= Scope12_GHG r)
                  D (apply_ghg_scenario D p')))
  /\ (forall (D : list (ghg_row PrimFloat.float)) (p p' : PrimFloat.float),
        nonneg64 p -> PrimFloat.leb p p' = true -> PrimFloat.leb p' (lit 100) = true ->
        Forall (ghg_fields64 finite64) D ->
        Forall2 (fun r r' => PrimFloat.leb (Scope12_GHG r') (Scope12_GHG r) = true)
                (apply_ghg_scenario D p) (apply_ghg_scenario D p')
        /\ Forall2 (fun r r' => PrimFloat.leb (Scope12_GHG r') (Scope12_GHG r) = true)
                   D (apply_ghg_scenario D p')).
Proof.
  split.
  - intros D p p' Hp HD. split.
    + unfold apply_ghg_scenario. eapply Forall2_map_map; [|exact HD].
      intros r [_ Hx]. cbn [set_Scope12_GHG Scope12_GHG lit sub mul div Num_Q].
      apply scaled_antitone; assumption.
    + intro Hp'. unfold apply_ghg_scenario. eapply Forall2_map_l_if; [|exact HD].
      intros r [_ Hx]. cbn [set_Scope12_GHG Scope12_GHG lit sub mul div Num_Q].
      rewrite Qdiv_const. nra.
  - intros D p p' Np L L' HD.
    apply nonneg64_fnonneg in Np. apply fle_leb in L, L'.
    assert (A : forall q q', fnonneg q -> fle q q' -> fle q' (lit 100) ->
                Forall2 (fun r r' => PrimFloat.leb (Scope12_GHG r') (Scope12_GHG r) = true)
                        (apply_ghg_scenario D q) (apply_ghg_scenario D q')).
    { intros q q' Nq Lq Lq'. unfold apply_ghg_scenario.
      eapply Forall2_map_map; [|exact HD].
      intros r [_ Hx]. cbn [set_Scope12_GHG Scope12_GHG].
      apply fle_leb, scaled64_antitone; assumption. }
    split; [apply A; assumption|].
    rewrite <- (ghg_scenario_zero64 D) at 1. rewrite lit0_zero.
    apply A; [exact I| |exact L'].
    eapply fle_trans; [exact I|apply (fzero_le PrimFloat.zero p false eq_refl Np)|exact L].
Qed.

(** The sample frame of [load_data], from 10 to 20 percent. *)
Lemma ghg_scenario_antitone_witness :
  (Forall2 (fun r r' => Scope12_GHG r' <= Scope12_GHG r)
           (apply_ghg_scenario df_ghg 10) (apply_ghg_scenario df_ghg 20)
   /\ Forall2 (fun r r' => Scope12_GHG r' <= Scope12_GHG r)
              df_ghg (apply_ghg_scenario df_ghg 20))
  /\ (Forall2 (fun r r' => PrimFloat.leb (Scope12_GHG r') (Scope12_GHG r) = true)
              (apply_ghg_scenario df_ghg (lit 10)) (apply_ghg_scenario df_ghg (lit 20))
      /\ Forall2 (fun r r' => PrimFloat.leb (Scope12_GHG r') (Scope12_GHG r) = true)
                 df_ghg (apply_ghg_scenario df_ghg (lit 20))).
Proof.
  split.
  - assert (H : 10 <= 20) by by_eval.
    assert (HD : Forall nonneg_ghg df_ghg) by Forall_by_eval.
    destruct (proj1 ghg_scenario_antitone df_ghg 10 20 H HD) as [A B].
    split; [exact A|apply B; by_eval].
  - apply (proj2 ghg_scenario_antitone df_ghg (lit 10) (lit 20)); try by_eval.
    Forall_by_eval.
Defined.

(** ** Floor division below one step, and on whole numbers *)

Section SmallSteps.
Import SpecFloat FloatOps FloatAxioms.
Local Open Scope Q_scope.

(** Two doubles that are the rounding of the same number have the same
    value. *)
Lemma rounded_same_value (v : Q) (z z' : spec_float) :
  rounded v z -> rounded v z' -> nonneg_finite z' ->
  nonneg_finite z /\ SFvalue z == SFvalue z'.
Proof.
  intros R R' F'.
  destruct (rounded_nonneg _ _ R) as (N & V & _).
  destruct (rounded_nonneg _ _ R') as (N' & V' & _).
  pose proof (rounded_le _ _ _ _ R R' (Qle_refl v)) as L.
  pose proof (rounded_le _ _ _ _ R' R (Qle_refl v)) as L'.
  pose proof (finite_downward _ _ V V' N F' L) as F.
  split; [exact F|].
  apply (SFleb_value _ _ V V' F F') in L. apply (SFleb_value _ _ V' V F' F) in L'. lra.
Qed.

Lemma Qquot_small (qx qy : Q) :
  0 <= qx -> qx < qy ->
  Z.quot (Qnum qx * Zpos (Qden qy)) (Zpos (Qden qx) * Qnum qy) = 0%Z.
Proof.
  destruct qx as [a b], qy as [c d]. unfold Qle, Qlt. cbn [Qnum Qden].
  rewrite Z.mul_1_r, Z.mul_0_l. intros Ha Hc.
  apply Z.quot_small. split; nia.
Qed.

(** Below the divisor, [fmod] returns its dividend. *)
Lemma fmod_small (v c : PrimFloat.float) :
  ffinite v -> fpositive c -> SFvalue (Prim2SF v) < SFvalue (Prim2SF c) ->
  ffinite (fmod v c) /\ SFvalue (Prim2SF (fmod v c)) == SFvalue (Prim2SF v).
Proof.
  intros Fv Pc Lt.
  destruct (ffinite_tests v Fv) as [Hn Hi].
  destruct (fpositive_tests c Pc) as (Cz & Cn & Ci & _ & Cv).
  pose proof (SFvalue_nonneg _ Fv) as Pv.
  apply (rounded_same_value (SFvalue (Prim2SF v)));
    [|apply rounded_fixed; [apply Prim2SF_valid|exact Fv]|exact Fv].
  unfold fmod. rewrite Hn, Hi, Cz, Cn, Ci. cbn [orb].
  pose proof (F2Q_value v) as Ev. pose proof (F2Q_value c) as Ec.
  set (qx := F2Q v) in *. set (qy := F2Q c) in *.
  rewrite (Qquot_small qx qy) by lra.
  pose proof (Qred_correct (qx - inject_Z 0 * qy)) as Er.
  set (r := Qred (qx - inject_Z 0 * qy)) in *.
  assert (Erv : r == SFvalue (Prim2SF v)) by (rewrite Er, Ev; ring).
  destruct r as [n d]. cbn [Qnum Qden]. destruct n as [|p|p].
  - left. split; [rewrite <- Erv; reflexivity|apply copysign0_zero].
  - unfold Q2F. cbn [Qnum Qden].
    eapply rounded_comp; [|apply nearest_rounded].
    rewrite <- Erv. rewrite (Qmake_Qdiv (Zpos p) d). reflexivity.
  - exfalso. assert (Zneg p # d < 0) by reflexivity. lra.
Qed.

(** C's [copysign(0.0, x)] is a zero. *)
Lemma copysign0_is_zero (x : PrimFloat.float) : PrimFloat.is_zero (copysign0 x) = true.
Proof. apply is_zero_spec, copysign0_zero. Qed.

(** What [float_floor_div] computes for a finite non-negative dividend and a
    positive divisor, with the branch on the sign of the remainder resolved. *)
Lemma floor_div_unfold (v c : PrimFloat.float) :
  ffinite v -> fpositive c ->
  float_floor_div v c
  = let d := PrimFloat.div (PrimFloat.sub v (fmod v c)) c in
    if PrimFloat.is_zero d then copysign0 (PrimFloat.div v c)
    else if PrimFloat.ltb (Q2F 0.5) (PrimFloat.sub d (floor d))
         then PrimFloat.add (floor d) PrimFloat.one
         else floor d.
Proof.
  intros Fv Pc.
  destruct (fpositive_tests c Pc) as (Cz & _ & _ & Cl & _).
  destruct (fmod_le v c Fv Pc) as [Nm _].
  unfold float_floor_div. rewrite Cz. cbv zeta.
  rewrite Cl, (fnonneg_ltb_zero _ Nm). cbn [Bool.eqb].
  destruct (PrimFloat.is_zero (fmod v c)); reflexivity.
Qed.

(** Below the divisor the floor division is a zero. *)
Lemma floor_div_small (v c : PrimFloat.float) :
  ffinite v -> fpositive c -> SFvalue (Prim2SF v) < SFvalue (Prim2SF c) ->
  PrimFloat.is_zero (float_floor_div v c) = true.
Proof.
  intros Fv Pc Lt.
  destruct (fmod_small v c Fv Pc Lt) as [Fm Em].
  rewrite (floor_div_unfold v c Fv Pc). cbv zeta.
  destruct (fsub_same_value v (fmod v c) Fv Fm ltac:(lra)) as [s Es].
  assert (Zd : PrimFloat.is_zero (PrimFloat.div (PrimFloat.sub v (fmod v c)) c) = true).
  { apply is_zero_spec. rewrite div_spec, Es.
    destruct Pc as (mc & ec & Ec). rewrite Ec. eexists. reflexivity. }
  rewrite Zd. apply copysign0_is_zero.
Qed.

(** A zero percentage leaves the factor [1 - pct / 100] at [1.0]. *)
Lemma factor_of_zero (z : PrimFloat.float) :
  PrimFloat.is_zero z = true ->
  PrimFloat.sub PrimFloat.one (PrimFloat.div z (lit 100)) = PrimFloat.one.
Proof.
  intro Z. apply is_zero_spec in Z. destruct Z as [s E].
  apply Prim2SF_inj. rewrite sub_spec, div_spec, E.
  destruct lit100_positive as (m & e & E100). rewrite E100.
  destruct s; reflexivity.
Qed.

Lemma mul_one_is_zero (z : PrimFloat.float) :
  PrimFloat.is_zero z = true -> PrimFloat.is_zero (PrimFloat.mul z PrimFloat.one) = true.
Proof. intro Z. rewrite float_mul_one_r. exact Z. Qed.

(** Whole numbers as doubles are ordered as the whole numbers are. *)
Lemma lit_whole_rounded (n : Z) :
  (0 <= n)%Z -> rounded (inject_Z n) (Prim2SF (lit (inject_Z n))).
Proof.
  intro Hn. cbn [lit Num_float]. unfold Q2F. cbn [inject_Z Qnum Qden].
  destruct n as [|p|p]; [| |lia].
  - left. split; [reflexivity|]. exists false. reflexivity.
  - eapply rounded_comp; [|apply nearest_rounded].
    change (inject_Z 1) with 1. field.
Qed.

Lemma lit_whole_mono (a b : Z) :
  (0 <= a <= b)%Z ->
  fnonneg (lit (inject_Z a)) /\ fle (lit (inject_Z a)) (lit (inject_Z b)).
Proof.
  intros [Ha Hb].
  pose proof (lit_whole_rounded a Ha) as Ra.
  pose proof (lit_whole_rounded b ltac:(lia)) as Rb.
  split; [apply (rounded_nonneg _ _ Ra)|].
  eapply rounded_le; [exact Ra|exact Rb|]. rewrite <- Zle_Qle. exact Hb.
Qed.

End SmallSteps.

(** ** Doubles that are numerically equal *)

Section NumericEquality.
Import SpecFloat FloatOps FloatAxioms.
Local Open Scope Q_scope.

Lemma fle_not_ltb (a b : PrimFloat.float) :
  fnonneg a -> fle a b -> PrimFloat.ltb b a = false.
Proof.
  intros Na L. pose proof (fle_nonneg a b Na L) as Nb.
  unfold fle, fnonneg in *. rewrite ltb_spec.
  apply (SFleb_rank _ _ (Prim2SF_valid a) (Prim2SF_valid b) Na Nb) in L.
  destruct (SFltb (Prim2SF b) (Prim2SF a)) eqn:B; [|reflexivity].
  apply (SFltb_rank _ _ (Prim2SF_valid b) (Prim2SF_valid a) Nb Na) in B. lra.
Qed.

Lemma fnot_ltb_le (a b : PrimFloat.float) :
  fnonneg a -> fnonneg b -> PrimFloat.ltb a b = false -> fle b a.
Proof.
  intros Na Nb B. unfold fle, fnonneg in *. rewrite ltb_spec in B.
  apply (SFleb_rank _ _ (Prim2SF_valid b) (Prim2SF_valid a) Nb Na).
  destruct (Qlt_le_dec (rank (Prim2SF a)) (rank (Prim2SF b))) as [C|C]; [|exact C].
  apply (SFltb_rank _ _ (Prim2SF_valid a) (Prim2SF_valid b) Na Nb) in C.
  rewrite C in B. discriminate B.
Qed.

(** [a <= b] and [b <= a] make [a == b] true. *)
Lemma feq_of_le (a b : PrimFloat.float) :
  fnonneg a -> fle a b -> fle b a -> PrimFloat.eqb a b = true.
Proof.
  intros Na L L'. pose proof (fle_nonneg a b Na L) as Nb.
  pose proof (fle_not_ltb b a Nb L') as NL.
  unfold fle in L. rewrite ltb_spec in NL. rewrite eqb_spec.
  unfold SFleb in L. unfold SFltb in NL. unfold SFeqb.
  destruct (SFcompare (Prim2SF a) (Prim2SF b)) as [[| |]|];
    try reflexivity; try discriminate L; discriminate NL.
Qed.

(** The strict test, on a non-negative double and a finite bound. *)
Lemma fltb_finite (x c : PrimFloat.float) :
  fnonneg x -> ffinite c -> PrimFloat.ltb x c = true ->
  ffinite x /\ SFvalue (Prim2SF x) < SFvalue (Prim2SF c).
Proof.
  intros Nx Fc B. rewrite ltb_spec in B.
  pose proof (ffinite_fnonneg c Fc) as Nc. unfold fnonneg, ffinite in *.
  destruct (nonneg_cases _ Nx) as [Fx|Ex].
  - split; [exact Fx|].
    apply (SFltb_value _ _ (Prim2SF_valid x) (Prim2SF_valid c) Fx Fc), B.
  - exfalso. rewrite Ex in B.
    destruct (Prim2SF c) as [s|[|]| |[|] m e]; cbn in Fc, B;
      try contradiction; discriminate B.
Qed.

(** Adding a zero, and subtracting one, returns a double equal to the
    other operand. *)
Lemma fadd_zero_r (x z : PrimFloat.float) :
  ffinite x -> PrimFloat.is_zero z = true ->
  fle (PrimFloat.add x z) x /\ fle x (PrimFloat.add x z).
Proof.
  intros Fx Z. apply is_zero_spec in Z. destruct Z as [s Ez].
  pose proof (fzero_fnonneg z s Ez) as Fz.
  unfold fle, ffinite in *. rewrite add_spec.
  pose proof (SF64add_rounded _ _ (Prim2SF_valid x) (Prim2SF_valid z) Fx Fz) as R.
  pose proof (rounded_fixed _ (Prim2SF_valid x) Fx) as Rx.
  assert (E : SFvalue (Prim2SF x) + SFvalue (Prim2SF z) == SFvalue (Prim2SF x))
    by (rewrite Ez; cbn [SFvalue]; ring).
  split; eapply rounded_le; try exact R; try exact Rx; rewrite E; apply Qle_refl.
Qed.

Lemma fsub_zero_r (x z : PrimFloat.float) :
  ffinite x -> PrimFloat.is_zero z = true ->
  fnonneg (PrimFloat.sub x z)
  /\ fle (PrimFloat.sub x z) x /\ fle x (PrimFloat.sub x z).
Proof.
  intros Fx Z. apply is_zero_spec in Z. destruct Z as [s Ez].
  pose proof (fzero_fnonneg z s Ez) as Fz.
  pose proof (SFvalue_nonneg _ Fx) as Px.
  unfold fle, ffinite, fnonneg in *. rewrite sub_spec.
  assert (E0 : SFvalue (Prim2SF z) == 0) by (rewrite Ez; reflexivity).
  pose proof (SF64sub_rounded _ _ (Prim2SF_valid x) (Prim2SF_valid z) Fx Fz
                ltac:(lra)) as R.
  pose proof (rounded_fixed _ (Prim2SF_valid x) Fx) as Rx.
  split; [apply (rounded_nonneg _ _ R)|].
  split; eapply rounded_le; try exact R; try exact Rx; lra.
Qed.

(** A product with a zero factor is a zero. *)
Lemma fmul_zero_r (x z : PrimFloat.float) :
  ffinite x -> PrimFloat.is_zero z = true ->
  PrimFloat.is_zero (PrimFloat.mul x z) = true.
Proof.
  intros Fx Z. apply is_zero_spec in Z. destruct Z as [s Ez].
  pose proof (fzero_fnonneg z s Ez) as Fz.
  apply is_zero_spec. rewrite mul_spec.
  apply (rounded_zero (SFvalue (Prim2SF x) * SFvalue (Prim2SF z))).
  - rewrite Ez. cbn [SFvalue]. ring.
  - apply SF64mul_rounded; auto using Prim2SF_valid.
Qed.

End NumericEquality.

(** ** Below one step nothing changes *)

Section BelowOneStep.
Import SpecFloat FloatOps FloatAxioms.
Local Open Scope Q_scope.

Lemma Qfloor_small (x : Q) : 0 <= x -> x < 10 -> Qfloor (x / 10) = 0%Z.
Proof.
  intros L U. apply Qfloor_unique; change (inject_Z 0) with 0;
    rewrite Qdiv_const; lra.
Qed.

(** In binary64: a parameter in [[0, 10)] is finite, and its floor division
    by 10 is a zero. *)
Lemma step_of_small (p : PrimFloat.float) :
  nonneg64 p -> PrimFloat.ltb p (lit 10) = true ->
  ffinite p /\ PrimFloat.is_zero (float_floor_div p (lit 10)) = true.
Proof.
  intros Np Lp. apply nonneg64_fnonneg in Np.
  destruct (fltb_finite p (lit 10) Np (fpositive_ffinite _ lit10_positive) Lp) as [Fp Vp].
  split; [exact Fp|]. apply floor_div_small; [exact Fp|exact lit10_positive|exact Vp].
Qed.

Lemma water_small64 (D : list (water_row PrimFloat.float)) (p : PrimFloat.float) :
  nonneg64 p -> PrimFloat.ltb p (lit 10) = true ->
  PrimFloat.is_zero (snd (apply_water_scenario D p)) = true
  /\ fst (apply_water_scenario D p) = D.
Proof.
  intros Np Lp. destruct (step_of_small p Np Lp) as [_ Z].
  unfold apply_water_scenario. cbn [fst snd mul sub div floordiv Num_float].
  rewrite lit1_one, float_mul_one_r. split; [exact Z|].
  rewrite (factor_of_zero _ Z).
  apply map_id_ext. intros [y f n]. unfold set_Freshwater_m3.
  cbn [water_Year Freshwater_m3 NonFreshwater_m3]. f_equal. apply float_mul_one_r.
Qed.

Lemma energy_small64 (D : list (energy_row PrimFloat.float)) (p : PrimFloat.float) :
  nonneg64 p -> PrimFloat.ltb p (lit 10) = true ->
  Forall (fun r => finite64 (Renewables_pct r)
                   /\ PrimFloat.leb (Renewables_pct r) (lit 100) = true) D ->
  Forall2 (fun r r' => PrimFloat.eqb (Renewables_pct r') (Renewables_pct r) = true)
          D (apply_energy_scenario D p).
Proof.
  intros Np Lp HD. destruct (step_of_small p Np Lp) as [_ Z].
  unfold apply_energy_scenario. rewrite map_map.
  eapply Forall2_map_l_if; [|exact HD]. intros r [Fx Lx].
  apply finite64_ffinite in Fx. apply fle_leb in Lx.
  cbn [set_Renewables_pct Renewables_pct add floordiv Num_float].
  destruct (fadd_zero_r (Renewables_pct r) _ Fx Z) as [L1 L2].
  set (y := PrimFloat.add (Renewables_pct r) (float_floor_div p (lit 10))) in *.
  pose proof (fle_nonneg _ _ (ffinite_fnonneg _ Fx) L2) as Ny.
  assert (Ly : fle y (lit 100)) by (eapply fle_trans; eassumption).
  unfold clip_upper. cbn [ltb Num_float]. rewrite (fle_not_ltb y (lit 100) Ny Ly).
  apply feq_of_le; assumption.
Qed.

Lemma unreduced64 (x c : PrimFloat.float) :
  finite64 x -> ffinite c /\ SFvalue (Prim2SF c) <= 1 ->
  PrimFloat.eqb (clip_lower (lit 0) (x - x * c * lit 0)%num) x = true.
Proof.
  intros Fx [Fc Lc]. apply finite64_ffinite in Fx.
  cbn [sub mul Num_float]. rewrite lit0_zero.
  assert (Fa : ffinite (PrimFloat.mul x c)).
  { eapply fle_finite; [apply fmul_nonneg; assumption|apply fmul_le; assumption|exact Fx]. }
  pose proof (fmul_zero_r (PrimFloat.mul x c) PrimFloat.zero Fa eq_refl) as Z.
  destruct (fsub_zero_r x _ Fx Z) as (Ns & L1 & L2).
  unfold clip_lower. cbn [ltb Num_float]. rewrite (fnonneg_ltb_zero _ Ns).
  apply feq_of_le; assumption.
Qed.

End BelowOneStep.

(** X2.  A parameter below one step changes nothing.  An investment in
    [[0, 10)] gives a reduction of zero percent and the freshwater column as
    it was; a capacity in [[0, 10)] leaves every renewables share that is at
    most 100 as it was; a reuse of zero leaves non-negative waste as it was.
    In binary64 the water frame is returned bit for bit, and the energy and
    waste cells are equal as numbers to the baseline's. *)
Theorem below_one_step_nothing_changes :
  (forall p : Q, 0 <= p -> p < 10 ->
      (forall D : list (water_row Q),
          snd (apply_water_scenario D p) == 0
          /\ Forall2 (fun r r' => Freshwater_m3 r' == Freshwater_m3 r)
                     D (fst (apply_water_scenario D p)))
      /\ (forall D : list (energy_row Q),
             Forall (fun r => Renewables_pct r <= 100) D ->
             Forall2 (fun r r' => Renewables_pct r' == Renewables_pct r)
                     D (apply_energy_scenario D p)))
  /\ (forall D : list (waste_row Q),
         Forall nonneg_waste D ->
         Forall2 (fun r r' => Hazardous_t r' == Hazardous_t r
                              /\ NonHazardous_t r' == NonHazardous_t r)
                 D (apply_waste_scenario D 0))
  /\ (forall p : PrimFloat.float,
         nonneg64 p -> PrimFloat.ltb p (lit 10) = true ->
         (forall D : list (water_row PrimFloat.float),
             PrimFloat.is_zero (snd (apply_water_scenario D p)) = true
             /\ fst (apply_water_scenario D p) = D)
         /\ (forall D : list (energy_row PrimFloat.float),
                Forall (fun r => finite64 (Renewables_pct r)
                                 /\ PrimFloat.leb (Renewables_pct r) (lit 100) = true) D ->
                Forall2 (fun r r' =>
                           PrimFloat.eqb (Renewables_pct r') (Renewables_pct r) = true)
                        D (apply_energy_scenario D p)))
  /\ (forall D : list (waste_row PrimFloat.float),
         Forall (waste_fields64 finite64) D ->
         Forall2 (fun r r' =>
                    PrimFloat.eqb (Hazardous_t r') (Hazardous_t r) = true
                    /\ PrimFloat.eqb (NonHazardous_t r') (NonHazardous_t r) = true)
                 D (apply_waste_scenario D (lit 0))).
Proof.
  split; [|split; [|split]].
  - intros p L U. split.
    + intro D. unfold apply_water_scenario.
      cbn [fst snd lit mul sub div floordiv Num_Q]. unfold Qfloordiv.
      rewrite (Qfloor_small p L U). split; [reflexivity|].
      apply Forall2_map_r. intro r. cbn [set_Freshwater_m3 Freshwater_m3]. field.
    + intros D HD. unfold apply_energy_scenario. rewrite map_map.
      eapply Forall2_map_l_if; [|exact HD]. intros r Hr.
      cbn [set_Renewables_pct Renewables_pct lit add floordiv Num_Q].
      rewrite clip_upper_Qmin. unfold Qfloordiv. rewrite (Qfloor_small p L U).
      change (inject_Z 0) with 0. rewrite Qplus_0_r. apply Q.min_l, Hr.
  - intros D HD. unfold apply_waste_scenario.
    eapply Forall2_map_l_if; [|exact HD]. intros r (_ & Hh & Hn).
    cbn [Hazardous_t NonHazardous_t lit sub mul Num_Q]. rewrite !clip_lower_Qmax.
    split.
    + rewrite Q.max_r by lra. ring.
    + rewrite Q.max_r by lra. ring.
  - intros p Np Lp. split.
    + intro D. apply water_small64; assumption.
    + intros D HD. apply energy_small64; assumption.
  - intros D HD. unfold apply_waste_scenario.
    eapply Forall2_map_l_if; [|exact HD]. intros r (_ & Hh & Hn).
    cbn [Hazardous_t NonHazardous_t]. split.
    + apply unreduced64; [exact Hh|exact lit0005_finite].
    + apply unreduced64; [exact Hn|exact lit0003_finite].
Qed.

(** The sample frames of [load_data] at an investment and a capacity of 9. *)
Lemma below_one_step_witness :
  (snd (apply_water_scenario df_water 9) == 0
   /\ Forall2 (fun r r' => Renewables_pct r' == Renewables_pct r)
              df_energy (apply_energy_scenario df_energy 9)
   /\ Forall2 (fun r r' => Hazardous_t r' == Hazardous_t r
                           /\ NonHazardous_t r' == NonHazardous_t r)
              df_waste (apply_waste_scenario df_waste 0))
  /\ (fst (apply_water_scenario (A := PrimFloat.float) df_water (lit 9)) = df_water
      /\ Forall2 (fun r r' => PrimFloat.eqb (Renewables_pct r') (Renewables_pct r) = true)
                 df_energy (apply_energy_scenario (A := PrimFloat.float) df_energy (lit 9))
      /\ Forall2 (fun r r' =>
                    PrimFloat.eqb (Hazardous_t r') (Hazardous_t r) = true
                    /\ PrimFloat.eqb (NonHazardous_t r') (NonHazardous_t r) = true)
                 df_waste (apply_waste_scenario (A := PrimFloat.float) df_waste (lit 0))).
Proof.
  assert (L : 0 <= 9) by by_eval. assert (U : 9 < 10) by by_eval.
  assert (N64 : nonneg64 (lit 9)) by by_eval.
  assert (L64 : PrimFloat.ltb (lit 9) (lit 10) = true) by by_eval.
  destruct below_one_step_nothing_changes as (Q1 & Q2 & F1 & F2).
  split; [split; [|split]|split; [|split]].
  - apply (proj1 (Q1 9 L U) df_water).
  - apply (proj2 (Q1 9 L U) df_energy). Forall_by_eval.
  - apply Q2. Forall_by_eval.
  - apply (proj1 (F1 (lit 9) N64 L64) df_water).
  - apply (proj2 (F1 (lit 9) N64 L64) df_energy). Forall_by_eval.
  - apply F2. Forall_by_eval.
Defined.

(** ** The direction of the water, energy and waste scenarios *)

Section Direction.
Import SpecFloat FloatOps FloatAxioms.
Local Open Scope Q_scope.

(** *** Exact arithmetic *)

Lemma Qfloordiv_mono (p p' : Q) :
  p <= p' -> inject_Z (Qfloor (p / 10)) <= inject_Z (Qfloor (p' / 10)).
Proof.
  intro L. rewrite <- Zle_Qle. apply Qfloor_resp_le. rewrite !Qdiv_const. lra.
Qed.

Lemma reduced_antitone (x c k k' : Q) :
  0 <= x -> 0 <= c -> k <= k' ->
  Qmax 0 (x - x * c * k') <= Qmax 0 (x - x * c * k).
Proof.
  intros Hx Hc L. apply Q.max_le_compat_l.
  assert (0 <= x * c) by (apply Qmult_le_0_compat; assumption).
  nra.
Qed.

Lemma reduced_le (x c k : Q) :
  0 <= x -> 0 <= c -> 0 <= k -> Qmax 0 (x - x * c * k) <= x.
Proof.
  intros Hx Hc Hk. apply Q.max_lub; [exact Hx|].
  assert (0 <= x * c * k) by (repeat apply Qmult_le_0_compat; assumption). lra.
Qed.

(** *** Binary64 *)

Lemma fadd_ge_l (x s : PrimFloat.float) :
  ffinite x -> fnonneg s -> fle x (PrimFloat.add x s).
Proof.
  intros Fx Ns. unfold fle, ffinite, fnonneg in *. rewrite add_spec.
  destruct (nonneg_cases _ Ns) as [Fs|Es].
  - pose proof (SFvalue_nonneg _ Fs).
    eapply rounded_le;
      [apply rounded_fixed; [apply Prim2SF_valid|exact Fx]
      |apply SF64add_rounded; auto using Prim2SF_valid|]. lra.
  - rewrite Es. destruct (Prim2SF x) as [s'|[|]| |[|] m e]; cbn in Fx |- *;
      try contradiction; reflexivity.
Qed.

Lemma fadd_mono_r (x s s' : PrimFloat.float) :
  ffinite x -> fnonneg s -> fle s s' ->
  fnonneg (PrimFloat.add x s) /\ fle (PrimFloat.add x s) (PrimFloat.add x s').
Proof.
  intros Fx Ns L.
  pose proof (ffinite_fnonneg x Fx) as Nx.
  pose proof (fle_nonneg s s' Ns L) as Ns'.
  pose proof (fadd_nonneg x s Nx Ns) as Na. split; [exact Na|].
  destruct (nonneg_cases _ Ns') as [Fs'|Es'].
  - apply (fadd_mono x x s s' Fx Fs' Nx Ns (fle_refl x Nx) L).
  - unfold fle, fnonneg, ffinite in *. rewrite (add_spec x s'), Es'.
    assert (E : SF64add (Prim2SF x) (S754_infinity false) = S754_infinity false).
    { destruct (Prim2SF x) as [s0|[|]| |[|] m e]; cbn in Fx |- *;
        try contradiction; reflexivity. }
    rewrite E. apply SFleb_inf_r, Na.
Qed.

(** [clip(upper=u)] is Python's [min] with the cell first. *)
Lemma clip_upper_py_min {A : Type} `{Num A} (u x : A) : clip_upper u x = py_min x u.
Proof. reflexivity. Qed.

(** The capped sum [min(x + s, 100)] for a share [x <= 100]. *)
Lemma capped64_bounds (x s : PrimFloat.float) :
  finite64 x -> PrimFloat.leb x (lit 100) = true -> fnonneg s ->
  fle x (clip_upper (lit 100) (PrimFloat.add x s))
  /\ fle (clip_upper (lit 100) (PrimFloat.add x s)) (lit 100).
Proof.
  intros Fx Lx Ns. apply finite64_ffinite in Fx. apply fle_leb in Lx.
  pose proof (ffinite_fnonneg x Fx) as Nx.
  pose proof (fpositive_ffinite _ lit100_positive) as F100.
  destruct (fpy_min_mono x (PrimFloat.add x s) (lit 100) F100 Nx (fadd_ge_l x s Fx Ns))
    as (_ & L1 & L2).
  rewrite !clip_upper_py_min. split; [|exact L2].
  assert (E : py_min x (lit 100) = x).
  { unfold py_min. cbn [ltb Num_float]. rewrite (fle_not_ltb x (lit 100) Nx Lx).
    reflexivity. }
  rewrite E in L1. exact L1.
Qed.

Lemma capped64_mono (x s s' : PrimFloat.float) :
  finite64 x -> fnonneg s -> fle s s' ->
  fle (clip_upper (lit 100) (PrimFloat.add x s))
      (clip_upper (lit 100) (PrimFloat.add x s')).
Proof.
  intros Fx Ns L. apply finite64_ffinite in Fx.
  destruct (fadd_mono_r x s s' Fx Ns L) as [Na La].
  rewrite !clip_upper_py_min.
  apply (fpy_min_mono _ _ (lit 100) (fpositive_ffinite _ lit100_positive) Na La).
Qed.

(** When [y] is not at most [x], the difference [x - y] is a zero or
    negative. *)
Lemma SF64sub_nonpos (x y : spec_float) :
  valid_binary x = true -> valid_binary y = true ->
  nonneg_finite x -> nonneg y -> SFleb y x = false ->
  (exists s, SF64sub x y = S754_zero s)
  \/ SFltb (SF64sub x y) (S754_zero false) = true.
Proof.
  intros Vx Vy Nx Ny NL.
  destruct (nonneg_cases y Ny) as [Fy|Ey].
  - assert (Lt : SFvalue x < SFvalue y).
    { destruct (Qlt_le_dec (SFvalue x) (SFvalue y)) as [C|C]; [exact C|].
      apply (SFleb_value y x Vy Vx Fy Nx) in C. rewrite C in NL. discriminate NL. }
    clear NL.
    destruct x as [sx|sx| |[|] mx ex]; cbn [nonneg_finite] in Nx; try contradiction;
    destruct y as [sy|sy| |[|] my ey]; cbn [nonneg_finite] in Fy; try contradiction;
      cbn [SF64sub SFsub SFvalue cond_Zopp negb] in *.
    + exfalso. lra.
    + right. reflexivity.
    + exfalso. pose proof (bpow_pos ex). assert (0 < inject_Z (Zpos mx)) by reflexivity. nra.
    + pose proof (aligned_value mx ex (Z.min ex ey) ltac:(lia)) as Ax.
      pose proof (aligned_value my ey (Z.min ex ey) ltac:(lia)) as Ay.
      set (ez := Z.min ex ey) in *.
      set (ax := fst (shl_align mx ex ez)) in *.
      set (ay := fst (shl_align my ey ez)) in *.
      pose proof (bpow_pos ez) as Pz.
      assert (D : inject_Z (Zpos ax - Zpos ay) * bpow ez
                  == inject_Z (Zpos mx) * bpow ex - inject_Z (Zpos my) * bpow ey).
      { rewrite <- Ax, <- Ay. unfold Z.sub. rewrite inject_Z_plus, inject_Z_opp. ring. }
      destruct (Zpos ax - Zpos ay)%Z as [|p|p] eqn:Ed; cbn [binary_normalize].
      * left. eexists. reflexivity.
      * exfalso. assert (0 < inject_Z (Zpos p)) by reflexivity. nra.
      * destruct (binary_round_spec true p ez) as (r & Hr & Hres & Hval).
        destruct (binary_round prec emax true p ez) as [s|s| |s m e];
          cbn [round_result] in Hres; try contradiction; destruct Hres as [-> _].
        -- left. eexists. reflexivity.
        -- right. reflexivity.
        -- right. reflexivity.
  - subst y. right.
    destruct x as [sx|sx| |[|] mx ex]; cbn [nonneg_finite] in Nx; try contradiction;
      reflexivity.
Qed.

(** [max(0, x - y)] on doubles: never above [x], and antitone in [y]. *)
Lemma fclip_sub_zero (x y : PrimFloat.float) :
  ffinite x -> fnonneg y -> PrimFloat.leb y x = false ->
  PrimFloat.is_zero (clip_lower (lit 0) (PrimFloat.sub x y)) = true.
Proof.
  intros Fx Ny NL. rewrite leb_spec in NL.
  unfold clip_lower. cbn [ltb Num_float]. rewrite lit0_zero.
  destruct (SF64sub_nonpos _ _ (Prim2SF_valid x) (Prim2SF_valid y) Fx Ny NL) as [[s E]|B].
  - assert (Z : PrimFloat.is_zero (PrimFloat.sub x y) = true).
    { apply is_zero_spec. exists s. rewrite sub_spec. exact E. }
    destruct (PrimFloat.ltb (PrimFloat.sub x y) PrimFloat.zero); [reflexivity|exact Z].
  - rewrite <- sub_spec in B.
    change (S754_zero false) with (Prim2SF PrimFloat.zero) in B.
    rewrite <- ltb_spec in B. rewrite B. reflexivity.
Qed.

Lemma is_zero_fle (z x : PrimFloat.float) :
  PrimFloat.is_zero z = true -> fnonneg x -> fle z x.
Proof.
  intros Z N. apply is_zero_spec in Z. destruct Z as [s E]. exact (fzero_le z x s E N).
Qed.

Lemma fclip_sub_le (x y : PrimFloat.float) :
  ffinite x -> fnonneg y ->
  fnonneg (clip_lower (lit 0) (PrimFloat.sub x y))
  /\ fle (clip_lower (lit 0) (PrimFloat.sub x y)) x.
Proof.
  intros Fx Ny.
  pose proof (fclip_lower_nonneg _ (fsub_sign x y Fx Ny)) as Nc. split; [exact Nc|].
  destruct (PrimFloat.leb y x) eqn:B.
  - apply fle_leb in B. destruct (fsub_le x y Fx Ny B) as [Ns Ls].
    unfold clip_lower. cbn [ltb Num_float]. rewrite lit0_zero.
    rewrite (fnonneg_ltb_zero _ Ns). exact Ls.
  - apply is_zero_fle; [apply fclip_sub_zero; assumption|apply ffinite_fnonneg, Fx].
Qed.

Lemma fclip_sub_anti (x y y' : PrimFloat.float) :
  ffinite x -> fnonneg y -> fle y y' ->
  fle (clip_lower (lit 0) (PrimFloat.sub x y'))
      (clip_lower (lit 0) (PrimFloat.sub x y)).
Proof.
  intros Fx Ny L. pose proof (fle_nonneg y y' Ny L) as Ny'.
  destruct (fclip_sub_le x y Fx Ny) as [Nc _].
  destruct (PrimFloat.leb y' x) eqn:B.
  - apply fle_leb in B.
    destruct (fsub_le x y' Fx Ny' B) as [Ns' _].
    destruct (fsub_le x y Fx Ny (fle_trans _ _ _ Ny L B)) as [Ns _].
    unfold clip_lower. cbn [ltb Num_float]. rewrite lit0_zero.
    rewrite (fnonneg_ltb_zero _ Ns), (fnonneg_ltb_zero _ Ns').
    apply fsub_anti; assumption.
  - apply is_zero_fle; [apply fclip_sub_zero; assumption|exact Nc].
Qed.

(** The reduced waste [max(0, x - x * c * k)], in [k]. *)
Lemma reduced64_bounds (x c k k' : PrimFloat.float) :
  finite64 x -> ffinite c /\ SFvalue (Prim2SF c) <= 1 -> fnonneg k -> fle k k' ->
  ffinite k' ->
  fle (clip_lower (lit 0) (x - x * c * k')%num) (clip_lower (lit 0) (x - x * c * k)%num)
  /\ fle (clip_lower (lit 0) (x - x * c * k)%num) x.
Proof.
  intros Fx [Fc Lc] Nk L Fk'. apply finite64_ffinite in Fx.
  cbn [sub mul Num_float].
  assert (Fa : ffinite (PrimFloat.mul x c)).
  { eapply fle_finite; [apply fmul_nonneg; assumption|apply fmul_le; assumption|exact Fx]. }
  destruct (fmul_mono_r (PrimFloat.mul x c) k k' Fa Fk' Nk L) as [Nr Lr].
  split.
  - apply fclip_sub_anti; assumption.
  - apply fclip_sub_le; assumption.
Qed.

End Direction.

Section DirectionOfTransforms.
Import SpecFloat FloatOps FloatAxioms.
Local Open Scope Q_scope.

Lemma scaled64_le (x q : PrimFloat.float) :
  finite64 x -> fnonneg q -> fle q (lit 100) ->
  fle (x * (lit 1 - q / lit 100))%num x.
Proof.
  intros Fx Nq Lq.
  pose proof (scaled64_antitone x PrimFloat.zero q Fx I
                (fzero_le PrimFloat.zero q false eq_refl Nq) Lq) as A.
  assert (E : (lit 1 - PrimFloat.zero / lit 100)%num = PrimFloat.one) by closed_float.
  rewrite E in A. cbn [mul Num_float] in A. rewrite float_mul_one_r in A. exact A.
Qed.

(** The percentage of the water scenario, as a double. *)
Lemma water_pct64 (p : PrimFloat.float) :
  (p // lit 10 * lit 1)%num = float_floor_div p (lit 10).
Proof. cbn [mul floordiv Num_float]. rewrite lit1_one. apply float_mul_one_r. Qed.

Lemma whole_step64 (n n' : Z) :
  (0 <= n <= n')%Z -> (n' <= 1000)%Z ->
  float_floor_div (lit (inject_Z n)) (lit 10) = lit (inject_Z (n / 10))
  /\ float_floor_div (lit (inject_Z n')) (lit 10) = lit (inject_Z (n' / 10))
  /\ fnonneg (lit (inject_Z (n / 10)))
  /\ fle (lit (inject_Z (n / 10))) (lit (inject_Z (n' / 10)))
  /\ fle (lit (inject_Z (n' / 10))) (lit 100).
Proof.
  intros Hn Hn'.
  assert (D1 : (0 <= n / 10 <= n' / 10)%Z).
  { split; [apply Z.div_pos; lia|apply Z.div_le_mono; lia]. }
  assert (D2 : (0 <= n' / 10 <= 100)%Z).
  { split; [apply Z.div_pos; lia|]. apply Z.div_le_upper_bound; lia. }
  split; [apply floor_div_whole; lia|]. split; [apply floor_div_whole; lia|].
  destruct (lit_whole_mono _ _ D1) as [N L]. split; [exact N|]. split; [exact L|].
  change (lit 100) with (lit (inject_Z 100)). apply (lit_whole_mono _ _ D2).
Qed.

End DirectionOfTransforms.

(** X3.  In [apply_water_scenario], a larger investment never gives a
    smaller reduction percentage nor a larger freshwater value, and no
    non-negative investment raises freshwater above the baseline.  In exact
    arithmetic this holds for every frame of non-negative values; in binary64
    for finite values, an investment of at most 1000 (baseline), and whole
    investments up to 1000 (comparison of two investments). *)
Theorem water_scenario_antitone :
  (forall (D : list (water_row Q)) (p p' : Q),
      p <= p' -> Forall nonneg_water D ->
      snd (apply_water_scenario D p) <= snd (apply_water_scenario D p')
      /\ Forall2 (fun r r' => Freshwater_m3 r' <= Freshwater_m3 r)
                 (fst (apply_water_scenario D p)) (fst (apply_water_scenario D p'))
      /\ (0 <= p' ->
          Forall2 (fun r r' => Freshwater_m3 r' <= Freshwater_m3 r)
                  D (fst (apply_water_scenario D p'))))
  /\ (forall (D : list (water_row PrimFloat.float)) (p : PrimFloat.float),
         finite64 p -> PrimFloat.leb p (lit 1000) = true ->
         Forall (water_fields64 finite64) D ->
         Forall2 (fun r r' => PrimFloat.leb (Freshwater_m3 r') (Freshwater_m3 r) = true)
                 D (fst (apply_water_scenario D p)))
  /\ (forall (D : list (water_row PrimFloat.float)) (n n' : Z),
         (0 <= n <= n')%Z -> (n' <= 1000)%Z ->
         Forall (water_fields64 finite64) D ->
         PrimFloat.leb (snd (apply_water_scenario D (lit (inject_Z n))))
                       (snd (apply_water_scenario D (lit (inject_Z n')))) = true
         /\ Forall2 (fun r r' =>
                       PrimFloat.leb (Freshwater_m3 r') (Freshwater_m3 r) = true)
                    (fst (apply_water_scenario D (lit (inject_Z n))))
                    (fst (apply_water_scenario D (lit (inject_Z n'))))).
Proof.
  split; [|split].
  - intros D p p' L HD.
    pose proof (Qfloordiv_mono p p' L) as Lf.
    unfold apply_water_scenario. cbn [fst snd lit mul sub div floordiv Num_Q].
    unfold Qfloordiv. split; [lra|]. split.
    + eapply Forall2_map_map; [|exact HD]. intros r (_ & Hf & _).
      cbn [set_Freshwater_m3 Freshwater_m3]. apply scaled_antitone; [exact Hf|lra].
    + intro Hp'. eapply Forall2_map_l_if; [|exact HD]. intros r (_ & Hf & _).
      cbn [set_Freshwater_m3 Freshwater_m3].
      pose proof (Qfloor_nonneg (p' / 10)) as Hs.
      assert (0 <= inject_Z (Qfloor (p' / 10))) by (apply Hs; rewrite Qdiv_const; lra).
      rewrite Qdiv_const. nra.
  - intros D p Fp Lp HD.
    pose proof Fp as Fp'. apply finite64_ffinite in Fp'. apply fle_leb in Lp.
    unfold apply_water_scenario. cbn [fst]. rewrite water_pct64.
    eapply Forall2_map_l_if; [|exact HD]. intros r (_ & Hf & _).
    cbn [set_Freshwater_m3 Freshwater_m3]. apply fle_leb, scaled64_le; [exact Hf| |].
    + apply floor_div_nonneg; [exact Fp'|exact lit10_positive].
    + apply floor_div_10_le; assumption.
  - intros D n n' Hn Hn' HD.
    destruct (whole_step64 n n' Hn Hn') as (E & E' & N & L & L').
    unfold apply_water_scenario. cbn [fst snd]. rewrite !water_pct64, E, E'.
    split; [apply fle_leb, L|].
    eapply Forall2_map_map; [|exact HD]. intros r (_ & Hf & _).
    cbn [set_Freshwater_m3 Freshwater_m3]. apply fle_leb, scaled64_antitone; assumption.
Qed.

(** The sample frame of [load_data], at investments of 10 and 30. *)
Lemma water_scenario_antitone_witness :
  (snd (apply_water_scenario df_water 10) <= snd (apply_water_scenario df_water 30)
   /\ Forall2 (fun r r' => Freshwater_m3 r' <= Freshwater_m3 r)
              (fst (apply_water_scenario df_water 10))
              (fst (apply_water_scenario df_water 30)))
  /\ Forall2 (fun r r' => PrimFloat.leb (Freshwater_m3 r') (Freshwater_m3 r) = true)
             df_water (fst (apply_water_scenario df_water (lit 30)))
  /\ Forall2 (fun r r' => PrimFloat.leb (Freshwater_m3 r') (Freshwater_m3 r) = true)
             (fst (apply_water_scenario df_water (lit (inject_Z 10))))
             (fst (apply_water_scenario df_water (lit (inject_Z 30)))).
Proof.
  destruct water_scenario_antitone as (Q1 & F1 & F2).
  split; [|split].
  - assert (L : 10 <= 30) by by_eval.
    assert (HD : Forall nonneg_water df_water) by Forall_by_eval.
    destruct (Q1 df_water 10 30 L HD) as (A & B & _). split; assumption.
  - apply F1; try by_eval. Forall_by_eval.
  - apply (F2 df_water 10%Z 30%Z); try lia. Forall_by_eval.
Defined.

(** X4.  [apply_energy_scenario] never lowers a renewables share and never
    returns one above 100: for a share of at most 100 and a non-negative
    capacity, the new share lies between the old one and 100; and a larger
    capacity never gives a smaller share.  In binary64 this holds for finite
    shares and capacities (the comparison of two capacities: whole
    capacities up to 1000). *)
Theorem energy_scenario_direction :
  (forall (D : list (energy_row Q)) (p p' : Q),
      p <= p' ->
      Forall2 (fun r r' => Renewables_pct r <= Renewables_pct r')
              (apply_energy_scenario D p) (apply_energy_scenario D p')
      /\ (0 <= p -> Forall (fun r => Renewables_pct r <= 100) D ->
          Forall2 (fun r r' => Renewables_pct r <= Renewables_pct r'
                               /\ Renewables_pct r' <= 100)
                  D (apply_energy_scenario D p)))
  /\ (forall (D : list (energy_row PrimFloat.float)) (p : PrimFloat.float),
         finite64 p ->
         Forall (fun r => finite64 (Renewables_pct r)
                          /\ PrimFloat.leb (Renewables_pct r) (lit 100) = true) D ->
         Forall2 (fun r r' =>
                    PrimFloat.leb (Renewables_pct r) (Renewables_pct r') = true
                    /\ PrimFloat.leb (Renewables_pct r') (lit 100) = true)
                 D (apply_energy_scenario D p))
  /\ (forall (D : list (energy_row PrimFloat.float)) (n n' : Z),
         (0 <= n <= n')%Z -> (n' <= 1000)%Z ->
         Forall (fun r => finite64 (Renewables_pct r)) D ->
         Forall2 (fun r r' =>
                    PrimFloat.leb (Renewables_pct r) (Renewables_pct r') = true)
                 (apply_energy_scenario D (lit (inject_Z n)))
                 (apply_energy_scenario D (lit (inject_Z n')))).
Proof.
  split; [|split].
  - intros D p p' L. pose proof (Qfloordiv_mono p p' L) as Lf. split.
    + unfold apply_energy_scenario. rewrite !map_map.
      apply (Forall2_map_map (fun _ => True)); [|apply Forall_forall; intros; exact I].
      intros r _. cbn [set_Renewables_pct Renewables_pct lit add floordiv Num_Q].
      rewrite !clip_upper_Qmin. unfold Qfloordiv.
      apply Q.min_le_compat_r. lra.
    + intros Hp HD. unfold apply_energy_scenario. rewrite map_map.
      eapply Forall2_map_l_if; [|exact HD]. intros r Hr. cbv beta in Hr.
      cbn [set_Renewables_pct Renewables_pct lit add floordiv Num_Q].
      rewrite clip_upper_Qmin. unfold Qfloordiv.
      assert (Hs : 0 <= inject_Z (Qfloor (p / 10))).
      { apply Qfloor_nonneg. rewrite Qdiv_const. lra. }
      split; [apply Q.min_glb; lra|apply Q.le_min_r].
  - intros D p Fp HD. apply finite64_ffinite in Fp.
    unfold apply_energy_scenario. rewrite map_map.
    eapply Forall2_map_l_if; [|exact HD]. intros r [Fx Lx].
    cbn [set_Renewables_pct Renewables_pct add floordiv Num_float].
    destruct (capped64_bounds (Renewables_pct r) (float_floor_div p (lit 10)) Fx Lx
                (floor_div_nonneg p (lit 10) Fp lit10_positive)) as [L1 L2].
    split; apply fle_leb; assumption.
  - intros D n n' Hn Hn' HD.
    destruct (whole_step64 n n' Hn Hn') as (E & E' & N & L & _).
    unfold apply_energy_scenario. rewrite !map_map.
    eapply Forall2_map_map; [|exact HD]. intros r Fx.
    cbn [set_Renewables_pct Renewables_pct add floordiv Num_float].
    rewrite E, E'. apply fle_leb, capped64_mono; assumption.
Qed.

(** The sample frame of [load_data], at capacities of 20 and 60. *)
Lemma energy_scenario_direction_witness :
  (Forall2 (fun r r' => Renewables_pct r <= Renewables_pct r')
           (apply_energy_scenario df_energy 20) (apply_energy_scenario df_energy 60)
   /\ Forall2 (fun r r' => Renewables_pct r <= Renewables_pct r'
                           /\ Renewables_pct r' <= 100)
              df_energy (apply_energy_scenario df_energy 20))
  /\ Forall2 (fun r r' =>
                PrimFloat.leb (Renewables_pct r) (Renewables_pct r') = true
                /\ PrimFloat.leb (Renewables_pct r') (lit 100) = true)
             df_energy (apply_energy_scenario df_energy (lit 20))
  /\ Forall2 (fun r r' => PrimFloat.leb (Renewables_pct r) (Renewables_pct r') = true)
             (apply_energy_scenario df_energy (lit (inject_Z 20)))
             (apply_energy_scenario df_energy (lit (inject_Z 60))).
Proof.
  destruct energy_scenario_direction as (Q1 & F1 & F2).
  split; [|split].
  - assert (L : 20 <= 60) by by_eval.
    destruct (Q1 df_energy 20 60 L) as [A B]. split; [exact A|].
    apply B; [by_eval|]. Forall_by_eval.
  - apply F1; [by_eval|]. Forall_by_eval.
  - apply (F2 df_energy 20%Z 60%Z); try lia. Forall_by_eval.
Defined.

(** X5.  [apply_waste_scenario] never raises a waste value: for
    non-negative waste, more reuse never gives more waste, and for a
    non-negative reuse the result is at most the baseline, in both columns.
    In binary64 this holds for finite values and finite reuse. *)
Theorem waste_scenario_antitone :
  (forall (D : list (waste_row Q)) (k k' : Q),
      k <= k' -> Forall nonneg_waste D ->
      Forall2 (fun r r' => Hazardous_t r' <= Hazardous_t r
                           /\ NonHazardous_t r' <= NonHazardous_t r)
              (apply_waste_scenario D k) (apply_waste_scenario D k')
      /\ (0 <= k' ->
          Forall2 (fun r r' => Hazardous_t r' <= Hazardous_t r
                               /\ NonHazardous_t r' <= NonHazardous_t r)
                  D (apply_waste_scenario D k')))
  /\ (forall (D : list (waste_row PrimFloat.float)) (k k' : PrimFloat.float),
         nonneg64 k -> PrimFloat.leb k k' = true -> finite64 k' ->
         Forall (waste_fields64 finite64) D ->
         Forall2 (fun r r' =>
                    PrimFloat.leb (Hazardous_t r') (Hazardous_t r) = true
                    /\ PrimFloat.leb (NonHazardous_t r') (NonHazardous_t r) = true)
                 (apply_waste_scenario D k) (apply_waste_scenario D k')
         /\ Forall2 (fun r r' =>
                       PrimFloat.leb (Hazardous_t r') (Hazardous_t r) = true
                       /\ PrimFloat.leb (NonHazardous_t r') (NonHazardous_t r) = true)
                    D (apply_waste_scenario D k')).
Proof.
  split.
  - intros D k k' L HD. split.
    + unfold apply_waste_scenario. eapply Forall2_map_map; [|exact HD].
      intros r (_ & Hh & Hn). cbn [Hazardous_t NonHazardous_t lit sub mul Num_Q].
      rewrite !clip_lower_Qmax.
      split; apply reduced_antitone; try assumption; by_eval.
    + intro Hk'. unfold apply_waste_scenario. eapply Forall2_map_l_if; [|exact HD].
      intros r (_ & Hh & Hn). cbn [Hazardous_t NonHazardous_t lit sub mul Num_Q].
      rewrite !clip_lower_Qmax.
      split; apply reduced_le; try assumption; by_eval.
  - intros D k k' Nk L Fk' HD.
    apply nonneg64_fnonneg in Nk. apply fle_leb in L. apply finite64_ffinite in Fk'.
    pose proof (fle_nonneg k k' Nk L) as Nk'.
    split.
    + unfold apply_waste_scenario. eapply Forall2_map_map; [|exact HD].
      intros r (_ & Hh & Hn). cbn [Hazardous_t NonHazardous_t].
      split; apply fle_leb.
      * apply (reduced64_bounds _ _ k k' Hh lit0005_finite Nk L Fk').
      * apply (reduced64_bounds _ _ k k' Hn lit0003_finite Nk L Fk').
    + unfold apply_waste_scenario. eapply Forall2_map_l_if; [|exact HD].
      intros r (_ & Hh & Hn). cbn [Hazardous_t NonHazardous_t].
      split; apply fle_leb.
      * apply (reduced64_bounds _ _ k' k' Hh lit0005_finite Nk' (fle_refl k' Nk') Fk').
      * apply (reduced64_bounds _ _ k' k' Hn lit0003_finite Nk' (fle_refl k' Nk') Fk').
Qed.

(** The sample frame of [load_data], at 5 and 15 thousand tonnes of reuse. *)
Lemma waste_scenario_antitone_witness :
  (Forall2 (fun r r' => Hazardous_t r' <= Hazardous_t r
                        /\ NonHazardous_t r' <= NonHazardous_t r)
           (apply_waste_scenario df_waste 5) (apply_waste_scenario df_waste 15)
   /\ Forall2 (fun r r' => Hazardous_t r' <= Hazardous_t r
                           /\ NonHazardous_t r' <= NonHazardous_t r)
              df_waste (apply_waste_scenario df_waste 15))
  /\ (Forall2 (fun r r' =>
                 PrimFloat.leb (Hazardous_t r') (Hazardous_t r) = true
                 /\ PrimFloat.leb (NonHazardous_t r') (NonHazardous_t r) = true)
              (apply_waste_scenario df_waste (lit 5)) (apply_waste_scenario df_waste (lit 15))
      /\ Forall2 (fun r r' =>
                    PrimFloat.leb (Hazardous_t r') (Hazardous_t r) = true
                    /\ PrimFloat.leb (NonHazardous_t r') (NonHazardous_t r) = true)
                 df_waste (apply_waste_scenario df_waste (lit 15))).
Proof.
  destruct waste_scenario_antitone as (Q1 & F1).
  split.
  - assert (L : 5 <= 15) by by_eval.
    assert (HD : Forall nonneg_waste df_waste) by Forall_by_eval.
    destruct (Q1 df_waste 5 15 L HD) as [A B]. split; [exact A|apply B; by_eval].
  - apply (F1 df_waste (lit 5) (lit 15)); try by_eval. Forall_by_eval.
Defined.

(** ** The score at and above its caps *)

Section ScoreCaps.
Import SpecFloat FloatOps FloatAxioms.
Local Open Scope Q_scope.

(** *** Exact arithmetic *)

Lemma share_saturates (v : Q) (cap : positive) :
  Qmin (v / (Zpos cap # 1)) 1 == Qmin (Qmin v (Zpos cap # 1) / (Zpos cap # 1)) 1.
Proof.
  rewrite !Qdiv_const.
  assert (Pc : 0 < (1 # cap)) by reflexivity.
  assert (E : (Zpos cap # 1) * (1 # cap) == 1).
  { unfold Qeq. cbn. rewrite Pos.mul_1_r. lia. }
  destruct (Q.min_spec v (Zpos cap # 1)) as [[L Em]|[L Em]]; rewrite Em; [reflexivity|].
  rewrite E. rewrite Q.min_r; [rewrite Q.min_r; [reflexivity|apply Qle_refl]|].
  rewrite <- E. apply Qmult_le_compat_r; [exact L|apply Qlt_le_weak, Pc].
Qed.

(** *** Binary64 *)

Lemma div_30_30 : PrimFloat.div (lit 30) (lit 30) = PrimFloat.one.
Proof. closed_float. Qed.

Lemma div_50_50 : PrimFloat.div (lit 50) (lit 50) = PrimFloat.one.
Proof. closed_float. Qed.

Lemma div_10_10 : PrimFloat.div (lit 10) (lit 10) = PrimFloat.one.
Proof. closed_float. Qed.

Lemma one_positive : fpositive PrimFloat.one.
Proof. closed_float. Qed.

(** At or above the cap, a share is [min(value / cap, 1) = 1.0] exactly. *)
Lemma share64_saturates (cap g : PrimFloat.float) :
  fpositive cap -> PrimFloat.div cap cap = PrimFloat.one -> fle cap g ->
  py_min (PrimFloat.div g cap) (lit 1) = lit 1.
Proof.
  intros Pc Ec L.
  destruct (fdiv_mono cap g cap Pc (ffinite_fnonneg _ (fpositive_ffinite _ Pc)) L)
    as [_ Ld].
  rewrite Ec in Ld. unfold py_min. cbn [ltb Num_float]. rewrite lit1_one.
  destruct (PrimFloat.ltb PrimFloat.one (PrimFloat.div g cap)) eqn:B; [reflexivity|].
  apply (fle_antisym _ _ one_positive Ld B).
Qed.

End ScoreCaps.

(** X6.  In [combined_esg_scenario], a value above its cap counts as the
    cap: the score of [(g, w, s, t)] is the score of
    [(min g 30, min w 50, min s 50, min t 10)].  In binary64, for every
    double at or above the cap (plus infinity included) and whatever the
    other three arguments are, the score is bit for bit the score at the
    cap. *)
Theorem esg_score_saturates :
  (forall g w s t : Q,
      combined_esg_scenario g w s t
      == combined_esg_scenario (Qmin g 30) (Qmin w 50) (Qmin s 50) (Qmin t 10))
  /\ (forall g w s t : PrimFloat.float,
         (PrimFloat.leb (lit 30) g = true ->
          combined_esg_scenario g w s t = combined_esg_scenario (lit 30) w s t)
         /\ (PrimFloat.leb (lit 50) w = true ->
             combined_esg_scenario g w s t = combined_esg_scenario g (lit 50) s t)
         /\ (PrimFloat.leb (lit 50) s = true ->
             combined_esg_scenario g w s t = combined_esg_scenario g w (lit 50) t)
         /\ (PrimFloat.leb (lit 10) t = true ->
             combined_esg_scenario g w s t = combined_esg_scenario g w s (lit 10))).
Proof.
  split.
  - intros g w s t. rewrite !score_refines_spec. unfold esg_score_spec.
    apply Qround_comp.
    rewrite (share_saturates g 30), (share_saturates w 50),
            (share_saturates s 50), (share_saturates t 10).
    reflexivity.
  - intros g w s t.
    pose proof (fle_refl _ (ffinite_fnonneg _ (fpositive_ffinite _ lit30_positive))) as R30.
    pose proof (fle_refl _ (ffinite_fnonneg _ (fpositive_ffinite _ lit50_positive))) as R50.
    pose proof (fle_refl _ (ffinite_fnonneg _ (fpositive_ffinite _ lit10_positive))) as R10.
    unfold combined_esg_scenario. cbn [add mul div round Num_float].
    repeat split; intro L; apply fle_leb in L.
    + rewrite (share64_saturates (lit 30) g lit30_positive div_30_30 L),
              (share64_saturates (lit 30) (lit 30) lit30_positive div_30_30 R30).
      reflexivity.
    + rewrite (share64_saturates (lit 50) w lit50_positive div_50_50 L),
              (share64_saturates (lit 50) (lit 50) lit50_positive div_50_50 R50).
      reflexivity.
    + rewrite (share64_saturates (lit 50) s lit50_positive div_50_50 L),
              (share64_saturates (lit 50) (lit 50) lit50_positive div_50_50 R50).
      reflexivity.
    + rewrite (share64_saturates (lit 10) t lit10_positive div_10_10 L),
              (share64_saturates (lit 10) (lit 10) lit10_positive div_10_10 R10).
      reflexivity.
Qed.

(** Each argument at twice its cap, the others at the sliders' defaults. *)
Lemma esg_score_saturates_witness :
  combined_esg_scenario (A := PrimFloat.float) (lit 60) (lit 10) (lit 20) (lit 5)
  = combined_esg_scenario (lit 30) (lit 10) (lit 20) (lit 5)
  /\ combined_esg_scenario (A := PrimFloat.float) (lit 10) (lit 100) (lit 20) (lit 5)
     = combined_esg_scenario (lit 10) (lit 50) (lit 20) (lit 5)
  /\ combined_esg_scenario (A := PrimFloat.float) (lit 10) (lit 10) (lit 100) (lit 5)
     = combined_esg_scenario (lit 10) (lit 10) (lit 50) (lit 5)
  /\ combined_esg_scenario (A := PrimFloat.float) (lit 10) (lit 10) (lit 20) (lit 20)
     = combined_esg_scenario (lit 10) (lit 10) (lit 20) (lit 10).
Proof.
  assert (Hg : PrimFloat.leb (lit 30) (lit 60) = true) by by_eval.
  assert (Hw : PrimFloat.leb (lit 50) (lit 100) = true) by by_eval.
  assert (Ht : PrimFloat.leb (lit 10) (lit 20) = true) by by_eval.
  split; [|split; [|split]].
  - exact (proj1 (proj2 esg_score_saturates (lit 60) (lit 10) (lit 20) (lit 5)) Hg).
  - exact (proj1 (proj2 (proj2 esg_score_saturates (lit 10) (lit 100) (lit 20) (lit 5)))
             Hw).
  - exact (proj1 (proj2 (proj2 (proj2 esg_score_saturates
                                   (lit 10) (lit 10) (lit 100) (lit 5)))) Hw).
  - exact (proj2 (proj2 (proj2 (proj2 esg_score_saturates
                                   (lit 10) (lit 10) (lit 20) (lit 20)))) Ht).
Defined.

(** ** Missing values *)

Section MissingValues.
Import SpecFloat FloatOps FloatAxioms.
Local Open Scope Q_scope.

Lemma fnan_sub_l (x y : PrimFloat.float) : fnan x -> fnan (PrimFloat.sub x y).
Proof. unfold fnan. intro E. rewrite sub_spec, E. reflexivity. Qed.

Lemma fnan_ltb_l (x y : PrimFloat.float) : fnan x -> PrimFloat.ltb x y = false.
Proof. unfold fnan. intro E. rewrite ltb_spec, E. reflexivity. Qed.

Lemma fnan_clip_upper (u x : PrimFloat.float) : fnan x -> clip_upper u x = x.
Proof.
  intro N. unfold clip_upper. cbn [ltb Num_float].
  rewrite (fnan_never_ltb x u N). reflexivity.
Qed.

Lemma fnan_clip_lower (l x : PrimFloat.float) : fnan x -> clip_lower l x = x.
Proof.
  intro N. unfold clip_lower. cbn [ltb Num_float].
  rewrite (fnan_ltb_l x l N). reflexivity.
Qed.

End MissingValues.

(** X7.  A missing value stays missing.  A nan cell of the column that a
    transform rewrites is nan in the returned frame (the clips of
    [apply_energy_scenario] and [apply_waste_scenario] do not turn it into
    100 or 0), and a nan argument of [combined_esg_scenario] gives nan. *)
Theorem nan_stays_nan :
  (forall (D : list (ghg_row PrimFloat.float)) (p : PrimFloat.float),
      Forall2 (fun r r' => PrimFloat.is_nan (Scope12_GHG r) = true ->
                           PrimFloat.is_nan (Scope12_GHG r') = true)
              D (apply_ghg_scenario D p))
  /\ (forall (D : list (water_row PrimFloat.float)) (p : PrimFloat.float),
         Forall2 (fun r r' => PrimFloat.is_nan (Freshwater_m3 r) = true ->
                              PrimFloat.is_nan (Freshwater_m3 r') = true)
                 D (fst (apply_water_scenario D p)))
  /\ (forall (D : list (energy_row PrimFloat.float)) (p : PrimFloat.float),
         Forall2 (fun r r' => PrimFloat.is_nan (Renewables_pct r) = true ->
                              PrimFloat.is_nan (Renewables_pct r') = true)
                 D (apply_energy_scenario D p))
  /\ (forall (D : list (waste_row PrimFloat.float)) (k : PrimFloat.float),
         Forall2 (fun r r' =>
                    (PrimFloat.is_nan (Hazardous_t r) = true ->
                     PrimFloat.is_nan (Hazardous_t r') = true)
                    /\ (PrimFloat.is_nan (NonHazardous_t r) = true ->
                        PrimFloat.is_nan (NonHazardous_t r') = true))
                 D (apply_waste_scenario D k))
  /\ (forall g w s t : PrimFloat.float,
         PrimFloat.is_nan g = true \/ PrimFloat.is_nan w = true
         \/ PrimFloat.is_nan s = true \/ PrimFloat.is_nan t = true ->
         PrimFloat.is_nan (combined_esg_scenario g w s t) = true).
Proof.
  split; [|split; [|split; [|split]]].
  - intros D p. unfold apply_ghg_scenario. apply Forall2_map_r. intros r N.
    cbn [set_Scope12_GHG Scope12_GHG mul Num_float].
    apply is_nan_fnan. apply fnan_mul. apply is_nan_fnan. exact N.
  - intros D p. unfold apply_water_scenario. cbn [fst]. apply Forall2_map_r. intros r N.
    cbn [set_Freshwater_m3 Freshwater_m3 mul Num_float].
    apply is_nan_fnan. apply fnan_mul. apply is_nan_fnan. exact N.
  - intros D p. unfold apply_energy_scenario. rewrite map_map.
    apply Forall2_map_r. intros r N.
    cbn [set_Renewables_pct Renewables_pct add Num_float].
    apply is_nan_fnan in N. apply is_nan_fnan.
    rewrite fnan_clip_upper; apply fnan_add_l; exact N.
  - intros D k. unfold apply_waste_scenario. apply Forall2_map_r. intro r.
    cbn [Hazardous_t NonHazardous_t sub mul Num_float].
    split; intro N; apply is_nan_fnan in N; apply is_nan_fnan;
      (rewrite fnan_clip_lower; apply fnan_sub_l; exact N).
  - intros g w s t H. apply is_nan_fnan. apply score_fnan.
    destruct H as [H|[H|[H|H]]]; apply is_nan_fnan in H; auto.
Qed.

(** The sample waste frame with its first hazardous cell missing, reused at
    5 thousand tonnes; and the score with the water investment missing. *)
Lemma nan_stays_nan_witness :
  Forall2 (fun r r' =>
             (PrimFloat.is_nan (Hazardous_t r) = true ->
              PrimFloat.is_nan (Hazardous_t r') = true)
             /\ (PrimFloat.is_nan (NonHazardous_t r) = true ->
                 PrimFloat.is_nan (NonHazardous_t r') = true))
          ({| waste_Year := 2018; Hazardous_t := PrimFloat.nan;
              NonHazardous_t := lit 5.5 |} :: tl df_waste)
          (apply_waste_scenario
             ({| waste_Year := 2018; Hazardous_t := PrimFloat.nan;
                 NonHazardous_t := lit 5.5 |} :: tl df_waste) (lit 5))
  /\ PrimFloat.is_nan
       (combined_esg_scenario (A := PrimFloat.float)
          (lit 10) PrimFloat.nan (lit 20) (lit 5)) = true.
Proof.
  assert (N : PrimFloat.is_nan PrimFloat.nan = true) by by_eval.
  split.
  - exact (proj1 (proj2 (proj2 (proj2 nan_stays_nan))) _ (lit 5)).
  - exact (proj2 (proj2 (proj2 (proj2 nan_stays_nan)))
             (lit 10) PrimFloat.nan (lit 20) (lit 5) (or_intror (or_introl N))).
Defined.
